(** * BuildStream loader: a shallow embedding of [buildstream/_loader/loader.py]
    and [buildstream/_projectrefs.py], with the properties of the loader's
    passes (cycle check, dependency sort, collection, junction resolution,
    cleanup) and of the project.refs store. *)

From Stdlib Require Import String Ascii ZArith List Lia Bool.
From stdpp Require Import base option list gmap strings relations pretty sorting.

Local Open Scope string_scope.
Local Open Scope nat_scope.
Local Open Scope list_scope.

(** ** Exceptions *)

(** [LoadErrorReason] of [_exceptions.py], as far as the loader uses it. *)
Inductive LoadErrorReason :=
  | MISSING_FILE
  | INVALID_DATA
  | CIRCULAR_DEPENDENCY
  | CONFLICTING_JUNCTION
  | SUBPROJECT_FETCH_NEEDED
  | SUBPROJECT_INCONSISTENT
  | INVALID_JUNCTION
  | MISSING_PROJECT_CONF
  | OTHER_REASON.

#[global] Instance LoadErrorReason_eq_dec : EqDecision LoadErrorReason.
Proof. solve_decision. Defined.

(** What a Python call can raise here.  [RecursionLimit] is what a model
    with a recursion budget returns when the budget is used up. *)
Inductive exn :=
  | LoadError (reason : LoadErrorReason) (message : string)
  | KeyError (key : string)
  | IndexError
  | AttributeError
  | ElementError (message : string)
  | RecursionLimit.

Inductive result (A : Type) :=
  | Ok (a : A)
  | Raise (e : exn).
Arguments Ok {A} a.
Arguments Raise {A} e.

Definition rbind {A B} (r : result A) (k : A → result B) : result B :=
  match r with
  | Ok a => k a
  | Raise e => Raise e
  end.

Notation "x ←r r ; k" := (rbind r (λ x, k))
  (at level 20, r at level 100, k at level 200, right associativity,
   format "x  ←r  r ;  '/' k").

(** [for x in xs: acc = body(acc, x)], stopping at the first exception. *)
Fixpoint rfold {A S} (body : S → A → result S) (xs : list A) (acc : S) : result S :=
  match xs with
  | [] => Ok acc
  | x :: xs' => acc' ←r body acc x; rfold body xs' acc'
  end.

(** ** Python truthiness *)

(** [if s:] for [s] a [str] or [None]. *)
Definition truthy_str (s : option string) : bool :=
  match s with
  | Some s' => negb (String.eqb s' "")
  | None => false
  end.

(** A Python [dict] whose iteration order is used: insertion ordered. *)
Section pydict.
Context {V : Type}.

Definition pydict := list (string * V).

Fixpoint dict_get (k : string) (d : list (string * V)) : option V :=
  match d with
  | [] => None
  | (k', v) :: d' => if String.eqb k k' then Some v else dict_get k d'
  end.

(** [d[k] = v]: replaces in place, or appends a new key. *)
Fixpoint dict_set (k : string) (v : V) (d : list (string * V)) : list (string * V) :=
  match d with
  | [] => [(k, v)]
  | (k', v') :: d' =>
      if String.eqb k k' then (k', v) :: d' else (k', v') :: dict_set k v d'
  end.

Definition dict_values (d : list (string * V)) : list V := snd <$> d.

End pydict.
Arguments pydict V : clear implicits.

(** ** Data model *)

(** [Symbol.BUILD], [Symbol.RUNTIME], and the default (both). *)
Inductive DepType := BUILD | RUNTIME | ALL.

#[global] Instance DepType_eq_dec : EqDecision DepType.
Proof. solve_decision. Defined.

(** [types.Dependency] *)
Record Dependency := mkDependency {
  dep_name : string;
  dep_junction : option string;
  dep_type : DepType;
  dep_provenance : string;
}.

(** One entry of an element's [sources] list. *)
Record SourceNode := mkSourceNode {
  src_kind : string;
  src_directory : option string;
  src_config : list (string * string);
}.

(** The parsed document of one element file, with the keys the loader reads. *)
Record Node := mkNode {
  node_kind : string;
  node_depends : list Dependency;
  node_sources : list SourceNode;
}.

(** [LoadElement], and the [DummyTarget] named tuple that [load] uses as the
    root of the cycle check: it has the same three attributes and no [node]. *)
Record LoadElement := mkLoadElement {
  le_name : string;
  le_full_name : string;
  le_deps : list Dependency;
  le_node : option Node;
}.

Record MetaSource := mkMetaSource {
  ms_element_name : string;
  ms_element_index : nat;
  ms_kind : string;
  ms_config : list (string * string);
  ms_directory : option string;
}.

(** A [MetaElement] object; the dependency lists hold references to other
    [MetaElement] objects, here their addresses in the store. *)
Record MetaElement := mkMetaElement {
  me_project : string;
  me_name : string;
  me_kind : string;
  me_sources : list MetaSource;
  me_build_dependencies : list nat;
  me_dependencies : list nat;
}.

Record Context := mkContext {
  builddir : string;
  _fetch_subprojects : bool;
}.

Record Project := mkProject {
  project_name : string;
  element_path : string;
  project_junction : option string;
}.

(** A [Loader] object.  [_parent] and the values of [_loaders] are references
    to other [Loader] objects: addresses in the store. *)
Record Loader := mkLoader {
  project : Project;
  _context : Context;
  _basedir : string;
  _targets : list string;
  _tempdir : option string;
  _parent : option nat;
  _meta_elements : gmap string nat;
  _elements : gmap string LoadElement;
  _loaders : pydict (option nat);
}.

(** The objects a load works on: the [Loader]s and the [MetaElement]s by
    address, the directories that exist, and the [rmtree] calls made. *)
Record Store := mkStore {
  loaders : list Loader;
  metas : list MetaElement;
  dirs : list string;
  removed : list string;
}.

Definition empty_store : Store := mkStore [] [] [] [].

(** ** Calls that change the store *)

(** A call on the store: what it returns or raises, and the store it leaves.
    An exception leaves the store as it was when it was raised. *)
Definition M (A : Type) : Type := Store → result A * Store.

Definition mret {A} (a : A) : M A := λ st, (Ok a, st).
Definition mraise {A} (e : exn) : M A := λ st, (Raise e, st).
Definition mlift {A} (r : Store → result A) : M A := λ st, (r st, st).

Definition mbind {A B} (m : M A) (k : A → M B) : M B :=
  λ st, match m st with
        | (Ok a, st') => k a st'
        | (Raise e, st') => (Raise e, st')
        end.

Notation "x ←m m ; k" := (mbind m (λ x, k))
  (at level 20, m at level 100, k at level 200, right associativity,
   format "x  ←m  m ;  '/' k").

(** [for x in xs: body(x)] *)
Fixpoint mfor {A} (xs : list A) (body : A → M unit) : M unit :=
  match xs with
  | [] => mret tt
  | x :: xs' => _ ←m body x; mfor xs' body
  end.

(** [for x in xs: acc = body(acc, x)] on the store. *)
Fixpoint mfold {A S} (body : S → A → M S) (xs : list A) (acc : S) : M S :=
  match xs with
  | [] => mret acc
  | x :: xs' => acc' ←m body acc x; mfold body xs' acc'
  end.

(** ** [Loader.__init__] *)

(** [os.path.isabs] on POSIX. *)
Definition isabs (path : string) : bool :=
  match path with
  | String "/" _ => true
  | _ => false
  end.

Section init.
(** [os.path.abspath], which depends on the working directory. *)
Variable abspath : string → string.

Definition init_basedir (p : Project) : string :=
  if isabs (element_path p) then element_path p else abspath (element_path p).

(** The loop over [filenames] at the head of the constructor. *)
Fixpoint check_targets_relative (basedir : string) (filenames : list string) : result unit :=
  match filenames with
  | [] => Ok tt
  | filename :: rest =>
      if isabs filename then
        Raise (LoadError INVALID_DATA
                 ("Target '" +:+ filename +:+ "' was not specified as a relative "
                  +:+ "path to the base project directory: " +:+ basedir))
      else check_targets_relative basedir rest
  end.

(** [Loader(context, project, filenames, parent=..., tempdir=...)]: the
    address of the new object and the store that holds it; when the
    constructor raises, no object is made. *)
Definition __init__ (context : Context) (p : Project) (filenames : list string)
    (parent : option nat) (tempdir : option string) (st : Store)
    : result nat * Store :=
  let basedir := init_basedir p in
  match check_targets_relative basedir filenames with
  | Raise e => (Raise e, st)
  | Ok _ =>
      let self := mkLoader p context basedir filenames tempdir parent ∅ ∅ [] in
      (Ok (length (loaders st)),
       mkStore (loaders st ++ [self])%list (metas st) (dirs st) (removed st))
  end.
End init.

(** ** Accessors on the store *)

(** Following a reference to a [Loader]; a call on [None] is Python's
    [AttributeError]. *)
Definition deref (st : Store) (l : option nat) : result Loader :=
  match l with
  | Some a =>
      match loaders st !! a with
      | Some L => Ok L
      | None => Raise AttributeError
      end
  | None => Raise AttributeError
  end.

(** [self._elements[element_name]] *)
Definition lookup_element (L : Loader) (element_name : string) : result LoadElement :=
  match _elements L !! element_name with
  | Some e => Ok e
  | None => Raise (KeyError element_name)
  end.

(** [Loader._get_loader_for_dep]: the [Loader] for a [Dependency], which is
    [None] when the junction was marked as absent. *)
Definition _get_loader_for_dep (st : Store) (self : nat) (dep : Dependency)
    : result (option nat) :=
  if truthy_str (dep_junction dep) then
    L ←r deref st (Some self);
    let junction := default "" (dep_junction dep) in
    match dict_get junction (_loaders L) with
    | Some loader => Ok loader
    | None => Raise (KeyError junction)
    end
  else Ok (Some self).

(** [Loader.get_element_for_dep] *)
Definition get_element_for_dep (st : Store) (self : nat) (dep : Dependency)
    : result LoadElement :=
  loader ←r _get_loader_for_dep st self dep;
  L ←r deref st loader;
  lookup_element L (dep_name dep).

(** ** [Loader._check_circular_deps] *)

Definition circular_message (name : string) : string :=
  "Circular dependency detected for element: " +:+ name.

(** The two dicts [check_elements] and [validated] are shared by all the
    recursive calls; they come back updated. *)
Fixpoint _check_circular_deps (fuel : nat) (st : Store) (self : nat)
    (element_name : string) (cv : gmap string bool * gmap string bool)
    : result (gmap string bool * gmap string bool) :=
  match fuel with
  | 0 => Raise RecursionLimit
  | S fuel' =>
      L ←r deref st (Some self);
      element ←r lookup_element L element_name;
      let element_name := le_full_name element in
      let '(check_elements, validated) := cv in
      if validated !! element_name is Some _ then Ok cv
      else if check_elements !! element_name is Some _ then
        Raise (LoadError CIRCULAR_DEPENDENCY (circular_message (le_name element)))
      else
        let check_elements := <[element_name := true]> check_elements in
        cv' ←r rfold
                 (λ cv dep,
                    loader ←r _get_loader_for_dep st self dep;
                    match loader with
                    | Some l => _check_circular_deps fuel' st l (dep_name dep) cv
                    | None => Raise AttributeError
                    end)
                 (le_deps element) (check_elements, validated);
        let '(check_elements, validated) := cv' in
        Ok (delete element_name check_elements, <[element_name := true]> validated)
  end.

(** [Dependency(e)] for a target [e]. *)
Definition target_dependency (e : string) : Dependency :=
  mkDependency e None ALL "".

(** [DummyTarget(name='', full_name='', deps=[Dependency(e) for e in self._targets])] *)
Definition dummy_target (targets : list string) : LoadElement :=
  mkLoadElement "" "" (target_dependency <$> targets) None.

Definition set_elements (L : Loader) (es : gmap string LoadElement) : Loader :=
  mkLoader (project L) (_context L) (_basedir L) (_targets L) (_tempdir L)
           (_parent L) (_meta_elements L) es (_loaders L).

Definition set_loader (st : Store) (a : nat) (L : Loader) : Store :=
  mkStore (<[a := L]> (loaders st)) (metas st) (dirs st) (removed st).

(** ** [list.sort(key=cmp_to_key(cmp))] *)

(** CPython's [list.sort] on a list of fewer than 64 items, which is one run:
    [count_run] finds the longest prefix that is non-descending, or strictly
    descending and then reversed, and [binarysort] inserts the remaining
    items one by one at the place a binary search gives.  [lt x y] is
    [cmp(x, y) < 0], the [__lt__] of [cmp_to_key], and may raise.  (From 64
    items on, CPython merges several such runs; that part is not modelled, and
    gives the same list whenever [cmp] is a total preorder.) *)
Section list_sort.
Context {A : Type}.
Variable lt : A → A → result bool.

(** How many more items continue a strictly descending run after [prev]. *)
Fixpoint run_descending (prev : A) (l : list A) : result nat :=
  match l with
  | [] => Ok 0
  | x :: l' =>
      b ←r lt x prev;
      if b then n ←r run_descending x l'; Ok (S n) else Ok 0
  end.

(** How many more items continue a non-descending run after [prev]. *)
Fixpoint run_ascending (prev : A) (l : list A) : result nat :=
  match l with
  | [] => Ok 0
  | x :: l' =>
      b ←r lt x prev;
      if b then Ok 0 else n ←r run_ascending x l'; Ok (S n)
  end.

(** [count_run]: the length of the run at the head, and whether it descends. *)
Definition count_run (l : list A) : result (nat * bool) :=
  match l with
  | [] => Ok (0, false)
  | [_] => Ok (1, false)
  | x0 :: x1 :: rest =>
      b ←r lt x1 x0;
      if b then n ←r run_descending x1 rest; Ok (2 + n, true)
      else n ←r run_ascending x1 rest; Ok (2 + n, false)
  end.

(** The binary search of [binarysort]: the place of [pivot] among the sorted
    items [sorted], between [l] and [r]. *)
Fixpoint bisect (steps : nat) (sorted : list A) (pivot : A) (l r : nat) : result nat :=
  match steps with
  | 0 => Ok l
  | S steps' =>
      let p := l + (r - l) / 2 in
      match sorted !! p with
      | None => Ok l
      | Some x =>
          b ←r lt pivot x;
          let '(l', r') := if b then (l, p) else (S p, r) in
          if l' <? r' then bisect steps' sorted pivot l' r' else Ok l'
      end
  end.

Definition binary_insert (sorted : list A) (pivot : A) : result (list A) :=
  i ←r bisect (length sorted) sorted pivot 0 (length sorted);
  Ok (take i sorted ++ pivot :: drop i sorted)%list.

Definition list_sort (l : list A) : result (list A) :=
  if length l <? 2 then Ok l
  else
    run ←r count_run l;
    let '(n, descending) := run in
    let run := if descending : bool then reverse (take n l) else take n l in
    rfold binary_insert (drop n l) run.
End list_sort.

(** ** [Loader._sort_dependencies] *)

(** Modelled from the spec: [LoadElement.depends] ([loadelement.py] is not
    part of the sources).  The spec has rule 1 ask whether one element
    "directly or transitively" depends on the other "via each side's
    already-resolved dependency set"; this is that set, by full name, for the
    element [e] owned by the loader at [l]. *)
Fixpoint dependency_set (fuel : nat) (st : Store) (l : nat) (e : LoadElement)
    : result (gset string) :=
  match fuel with
  | 0 => Raise RecursionLimit
  | S fuel' =>
      rfold (λ acc dep,
               loader ←r _get_loader_for_dep st l dep;
               L ←r deref st loader;
               elt ←r lookup_element L (dep_name dep);
               sub ←r dependency_set fuel' st (default 0 loader) elt;
               Ok ({[le_full_name elt]} ∪ sub ∪ acc))
            (le_deps e) ∅
  end.

(** Modelled from the spec: [element_a.depends(element_b)]. *)
Definition depends (fuel : nat) (st : Store) (la : nat) (element_a element_b : LoadElement)
    : result bool :=
  s ←r dependency_set fuel st la element_a;
  Ok (bool_decide (le_full_name element_b ∈ s)).

(** The tail of [dependency_cmp], from the comparison of names on. *)
Definition cmp_name_junction (dep_a dep_b : Dependency) : Z :=
  if String.ltb (dep_name dep_b) (dep_name dep_a) then 1%Z
  else if String.ltb (dep_name dep_a) (dep_name dep_b) then (-1)%Z
  else
    let junction_a := default "" (dep_junction dep_a) in
    let junction_b := default "" (dep_junction dep_b) in
    if truthy_str (dep_junction dep_a) && truthy_str (dep_junction dep_b) then
      if String.ltb junction_b junction_a then 1%Z
      else if String.ltb junction_a junction_b then (-1)%Z
      else 0%Z
    else if truthy_str (dep_junction dep_a) then (-1)%Z
    else if truthy_str (dep_junction dep_b) then 1%Z
    else 0%Z.

(** The local function [dependency_cmp] of [_sort_dependencies].  An element
    knows its loader; here the loader of each of the two elements is looked
    up next to the element, for [depends]. *)
Definition dependency_cmp (fuel : nat) (st : Store) (self : nat)
    (dep_a dep_b : Dependency) : result Z :=
  loader_a ←r _get_loader_for_dep st self dep_a;
  element_a ←r get_element_for_dep st self dep_a;
  loader_b ←r _get_loader_for_dep st self dep_b;
  element_b ←r get_element_for_dep st self dep_b;
  a_on_b ←r depends fuel st (default 0 loader_a) element_a element_b;
  if a_on_b : bool then Ok 1%Z
  else
    b_on_a ←r depends fuel st (default 0 loader_b) element_b element_a;
    if b_on_a : bool then Ok (-1)%Z
    else if decide (dep_type dep_a ≠ dep_type dep_b) then
      if decide (dep_type dep_a = RUNTIME) then Ok 1%Z
      else if decide (dep_type dep_b = RUNTIME) then Ok (-1)%Z
      else Ok (cmp_name_junction dep_a dep_b)
    else Ok (cmp_name_junction dep_a dep_b).

(** [K(a) < K(b)] for [K = cmp_to_key(dependency_cmp)]. *)
Definition dependency_lt (fuel : nat) (st : Store) (self : nat)
    (dep_a dep_b : Dependency) : result bool :=
  c ←r dependency_cmp fuel st self dep_a dep_b;
  Ok (c <? 0)%Z.

Definition set_deps (e : LoadElement) (deps : list Dependency) : LoadElement :=
  mkLoadElement (le_name e) (le_full_name e) deps (le_node e).

(** [element.deps.sort(key=cmp_to_key(dependency_cmp))] on the element
    [element_name] of [self].  When a comparison raises, the list is taken
    to be as it was. *)
Definition sort_deps (fuel : nat) (self : nat) (element_name : string) : M unit :=
  λ st,
    match (L ←r deref st (Some self);
           element ←r lookup_element L element_name;
           sorted ←r list_sort (dependency_lt fuel st self) (le_deps element);
           Ok (set_loader st self
                 (set_elements L
                    (<[element_name := set_deps element sorted]> (_elements L))))) with
    | Ok st' => (Ok tt, st')
    | Raise e => (Raise e, st)
    end.

(** [_sort_dependencies]: it reorders the dependency lists in the store and
    returns the [visited] dict, which all the recursive calls share. *)
Fixpoint _sort_dependencies (fuel : nat) (self : nat) (element_name : string)
    (visited : gmap string bool) : M (gmap string bool) :=
  match fuel with
  | 0 => mraise RecursionLimit
  | S fuel' =>
      L ←m mlift (λ st, deref st (Some self));
      element ←m mlift (λ _, lookup_element L element_name);
      let full_name := le_full_name element in
      if visited !! full_name is Some _ then mret visited
      else
        visited ←m mfold
                     (λ visited dep,
                        loader ←m mlift (λ st, _get_loader_for_dep st self dep);
                        match loader with
                        | Some l => _sort_dependencies fuel' l (dep_name dep) visited
                        | None => mraise AttributeError
                        end)
                     (le_deps element) visited;
        _ ←m sort_deps fuel' self element_name;
        mret (<[full_name := true]> visited)
  end.

(** ** The dummy root of [load] *)

(** [self._elements[''] = dummy] in [load]. *)
Definition install_dummy (self : nat) : M unit :=
  λ st, match deref st (Some self) with
        | Ok L =>
            (Ok tt, set_loader st self
                      (set_elements L (<["" := dummy_target (_targets L)]> (_elements L))))
        | Raise e => (Raise e, st)
        end.

(** The second pass of [load]: the dummy element, then the check from it. *)
Definition load_check_circular (fuel : nat) (self : nat) : M unit :=
  _ ←m install_dummy self;
  _ ←m mlift (λ st, _check_circular_deps fuel st self "" (∅, ∅));
  mret tt.

(** ** [Loader._collect_element] *)

(** What is left of a source mapping once [kind] and a non-empty [directory]
    have been deleted from it. *)
Definition strip_source (s : SourceNode) : option string * list (string * string) :=
  (if truthy_str (src_directory s) then None else src_directory s, src_config s).

(** [sources.index(source)] at step [i] of the loop: the first entry equal to
    the stripped mapping, which is entry [i] or an equal one before it. *)
Definition source_index (sources : list SourceNode) (i : nat) (s : SourceNode) : nat :=
  match list_find (λ s', strip_source s' = strip_source s) (take i sources) with
  | Some (j, _) => j
  | None => i
  end.

(** The loop over the sources in [_collect_element]: one [MetaSource] for
    each.  The deletions change the mappings of the document in place; the
    loader does not read them again, and the document is left as it is
    here. *)
Definition collect_sources (element_name : string) (sources : list SourceNode)
    : list MetaSource :=
  imap (λ i s,
          mkMetaSource element_name (source_index sources i s) (src_kind s)
            (src_config s)
            (if truthy_str (src_directory s) then src_directory s else None))
       sources.

Definition set_meta_elements (L : Loader) (ms : gmap string nat) : Loader :=
  mkLoader (project L) (_context L) (_basedir L) (_targets L) (_tempdir L)
           (_parent L) ms (_elements L) (_loaders L).

Definition set_metas (st : Store) (ms : list MetaElement) : Store :=
  mkStore (loaders st) ms (dirs st) (removed st).

(** A new [MetaElement] object: its address. *)
Definition new_meta (m : MetaElement) : M nat :=
  λ st, (Ok (length (metas st)), set_metas st (metas st ++ [m])%list).

(** [self._meta_elements[element_name] = meta_element] *)
Definition cache_meta (self : nat) (element_name : string) (m : nat) : M unit :=
  λ st, match deref st (Some self) with
        | Ok L =>
            (Ok tt, set_loader st self
                      (set_meta_elements L (<[element_name := m]> (_meta_elements L))))
        | Raise e => (Raise e, st)
        end.

(** The two [append] calls at the end of the loop of [_collect_element]. *)
Definition add_dependency (dep : Dependency) (meta_dep : nat) (m : MetaElement)
    : MetaElement :=
  let build := if decide (dep_type dep ≠ RUNTIME)
               then (me_build_dependencies m ++ [meta_dep])%list
               else me_build_dependencies m in
  let run := if decide (dep_type dep ≠ BUILD)
             then (me_dependencies m ++ [meta_dep])%list
             else me_dependencies m in
  mkMetaElement (me_project m) (me_name m) (me_kind m) (me_sources m) build run.

Definition append_dependency (meta_element : nat) (dep : Dependency) (meta_dep : nat)
    : M unit :=
  λ st, match metas st !! meta_element with
        | Some m =>
            (Ok tt, set_metas st (<[meta_element := add_dependency dep meta_dep m]> (metas st)))
        | None => (Raise AttributeError, st)
        end.

Definition junction_dependencies_message (dep : Dependency) : string :=
  dep_provenance dep +:+ ": Junctions do not support dependencies".

(** One turn of the loop over [element.deps] in [_collect_element];
    [collect] is the recursive call. *)
Definition collect_dependency (collect : nat → string → M nat) (kind : string)
    (self meta_element : nat) (dep : Dependency) : M unit :=
  if String.eqb kind "junction" then
    mraise (LoadError INVALID_DATA (junction_dependencies_message dep))
  else
    loader ←m mlift (λ st, _get_loader_for_dep st self dep);
    match loader with
    | None => mraise AttributeError
    | Some l =>
        meta_dep ←m collect l (dep_name dep);
        append_dependency meta_element dep meta_dep
    end.

(** [_collect_element]: the address of the [MetaElement] of the element. *)
Fixpoint _collect_element (fuel : nat) (self : nat) (element_name : string) : M nat :=
  match fuel with
  | 0 => mraise RecursionLimit
  | S fuel' =>
      L ←m mlift (λ st, deref st (Some self));
      element ←m mlift (λ _, lookup_element L element_name);
      match _meta_elements L !! element_name with
      | Some meta_element => mret meta_element
      | None =>
          match le_node element with
          | None => mraise AttributeError
          | Some node =>
              let meta_sources := collect_sources element_name (node_sources node) in
              let kind := node_kind node in
              meta_element ←m new_meta (mkMetaElement (project_name (project L))
                                          element_name kind meta_sources [] []);
              _ ←m cache_meta self element_name meta_element;
              _ ←m mfor (le_deps element)
                     (collect_dependency (_collect_element fuel') kind self meta_element);
              mret meta_element
          end
      end
  end.

(** ** What the loader asks of its surroundings *)

(** [Consistency] of a source. *)
Inductive Consistency := INCONSISTENT | RESOLVED | CACHED.

#[global] Instance Consistency_eq_dec : EqDecision Consistency.
Proof. solve_decision. Defined.

(** The collaborators of the loader that are not part of these sources: the
    files ([_yaml.load] with the project options applied), the element and
    source plugins of a junction, [Project], and the operating system. *)
Record World := mkWorld {
  abspath : string → string;
  (** [_yaml.load(os.path.join(basedir, filename))]: the document, or a
      [LoadError], [MISSING_FILE] when there is no such file. *)
  yaml_load : string → string → result Node;
  (** [Element._new_from_meta(meta_element, ...)._preflight()] *)
  preflight : MetaElement → result unit;
  (** [element.sources()]: for each source, its consistency and what its
      [fetch()] does. *)
  junction_sources : MetaElement → list (Consistency * result unit);
  (** [element.normal_name] and [element.path] of a junction. *)
  normal_name : MetaElement → string;
  junction_path : MetaElement → string;
  (** The random part of the name [tempfile.mkdtemp] picks. *)
  mkdtemp_suffix : list string → string;
  (** [Project(project_dir, context, junction=element)] *)
  load_project : string → MetaElement → result Project;
}.

(** [os.path.join(a, b)] on POSIX. *)
Definition path_join (a b : string) : string :=
  if isabs b then b
  else if String.eqb a "" then b
  else if String.prefix "/" (String.string_of_list_ascii (rev (String.list_ascii_of_string a)))
       then a +:+ b
       else a +:+ "/" +:+ b.

(** [os.makedirs(path, exist_ok=True)] *)
Definition makedirs (path : string) : M unit :=
  λ st, (Ok tt,
         if bool_decide (path ∈ dirs st) then st
         else mkStore (loaders st) (metas st) (dirs st ++ [path]) (removed st)).

(** [tempfile.mkdtemp(prefix=prefix, dir=dir)]: a new directory in [dir]. *)
Definition mkdtemp (W : World) (prefix dir : string) : M string :=
  λ st, let path := path_join dir (prefix +:+ mkdtemp_suffix W (dirs st)) in
        (Ok path, mkStore (loaders st) (metas st) (dirs st ++ [path]) (removed st)).

(** Modelled from the spec: the constructor [LoadElement(node, filename,
    loader)] ([loadelement.py] is not part of the sources).  The name is the
    file name and the full name is "junction-qualified": prefixed with the
    name of the junction of the loader's project, when it has one. *)
Definition new_load_element (node : Node) (filename : string) (L : Loader) : LoadElement :=
  mkLoadElement filename
    (match project_junction (project L) with
     | Some junction => junction +:+ ":" +:+ filename
     | None => filename
     end)
    (node_depends node) (Some node).

Definition set_loaders (L : Loader) (ls : pydict (option nat)) : Loader :=
  mkLoader (project L) (_context L) (_basedir L) (_targets L) (_tempdir L)
           (_parent L) (_meta_elements L) (_elements L) ls.

(** [self._elements[filename] = element] *)
Definition store_element (self : nat) (filename : string) (element : LoadElement) : M unit :=
  λ st, match deref st (Some self) with
        | Ok L => (Ok tt, set_loader st self
                            (set_elements L (<[filename := element]> (_elements L))))
        | Raise e => (Raise e, st)
        end.

(** [self._loaders[filename] = loader] *)
Definition store_loader (self : nat) (filename : string) (loader : option nat) : M unit :=
  λ st, match deref st (Some self) with
        | Ok L => (Ok tt, set_loader st self
                            (set_loaders L (dict_set filename loader (_loaders L))))
        | Raise e => (Raise e, st)
        end.

Definition conflicting_junction_message (filename project_name : string) : string :=
  "Conflicting junction " +:+ filename +:+ " in subprojects, define junction in "
  +:+ project_name.

Definition cannot_depend_message (dep : Dependency) : string :=
  dep_provenance dep +:+ ": Cannot depend on junction".

(** The loop over [element.sources()] in [_get_loader]. *)
Fixpoint fetch_sources (fetch_subprojects : bool) (filename : string)
    (sources : list (Consistency * result unit)) : result unit :=
  match sources with
  | [] => Ok tt
  | (consistency, fetch) :: rest =>
      _ ←r (if decide (consistency = RESOLVED) then
              if fetch_subprojects then fetch
              else Raise (LoadError SUBPROJECT_FETCH_NEEDED
                            ("Subproject fetch needed for junction: " +:+ filename))
            else if decide (consistency = INCONSISTENT) then
              Raise (LoadError SUBPROJECT_INCONSISTENT
                       ("Subproject has no ref for junction: " +:+ filename))
            else Ok tt);
      fetch_sources fetch_subprojects filename rest
  end.

(** The end of [_get_loader], once the junction element is loaded: from the
    collection of its [MetaElement] to the new [Loader] of the subproject. *)
Definition open_junction (W : World) (fuel : nat) (self : nat) (filename : string)
    : M (option nat) :=
  L ←m mlift (λ st, deref st (Some self));
  m ←m _collect_element fuel self filename;
  meta_element ←m mlift (λ st, match metas st !! m with
                                | Some me => Ok me
                                | None => Raise AttributeError
                                end);
  if negb (String.eqb (me_kind meta_element) "junction") then
    mraise (LoadError INVALID_DATA
              (filename +:+ ": Expected junction but element kind is "
               +:+ me_kind meta_element))
  else
    _ ←m mlift (λ _, preflight W meta_element);
    _ ←m mlift (λ _, fetch_sources (_fetch_subprojects (_context L)) filename
                       (junction_sources W meta_element));
    _ ←m makedirs (builddir (_context L));
    basedir ←m mkdtemp W (normal_name W meta_element +:+ "-") (builddir (_context L));
    let project_dir := path_join basedir (junction_path W meta_element) in
    match load_project W project_dir meta_element with
    | Raise (LoadError MISSING_PROJECT_CONF _) =>
        mraise (LoadError INVALID_JUNCTION
                  ("Could not find the project.conf file for " +:+ filename
                   +:+ ". Expecting a project at path '"
                   +:+ (if String.eqb (junction_path W meta_element) "" then "."
                        else junction_path W meta_element)
                   +:+ "'"))
    | Raise e => mraise e
    | Ok p =>
        let p := mkProject (project_name p) (element_path p) (Some filename) in
        loader ←m __init__ (abspath W) (_context L) p [] (Some self) (Some basedir);
        _ ←m store_loader self filename (Some loader);
        mret (Some loader)
    end.

(** [Loader._load_file] and [Loader._get_loader], which call each other. *)
Fixpoint _load_file (W : World) (fuel : nat) (self : nat) (filename : string)
    : M LoadElement :=
  match fuel with
  | 0 => mraise RecursionLimit
  | S fuel' =>
      L ←m mlift (λ st, deref st (Some self));
      match _elements L !! filename with
      | Some element => mret element
      | None =>
          node ←m mlift (λ _, yaml_load W (_basedir L) filename);
          let element := new_load_element node filename L in
          _ ←m store_element self filename element;
          _ ←m mfor (le_deps element)
                 (λ dep,
                    loader ←m (if truthy_str (dep_junction dep) then
                                 let junction := default "" (dep_junction dep) in
                                 _ ←m _load_file W fuel' self junction;
                                 _get_loader W fuel' self junction 0
                               else mret (Some self));
                    match loader with
                    | None => mraise AttributeError
                    | Some l =>
                        dep_element ←m _load_file W fuel' l (dep_name dep);
                        match le_node dep_element with
                        | None => mraise AttributeError
                        | Some dep_node =>
                            if String.eqb (node_kind dep_node) "junction" then
                              mraise (LoadError INVALID_DATA (cannot_depend_message dep))
                            else mret tt
                        end
                    end);
          mret element
      end
  end
with _get_loader (W : World) (fuel : nat) (self : nat) (filename : string)
    (level : nat) : M (option nat) :=
  match fuel with
  | 0 => mraise RecursionLimit
  | S fuel' =>
      L ←m mlift (λ st, deref st (Some self));
      match dict_get filename (_loaders L) with
      | Some None =>
          mraise (LoadError CONFLICTING_JUNCTION
                    (conflicting_junction_message filename (project_name (project L))))
      | Some (Some loader) => mret (Some loader)
      | None =>
          from_parent ←m match _parent L with
                         | Some parent =>
                             _get_loader W fuel' parent filename (level + 1)
                         | None => mret None
                         end;
          match from_parent with
          | Some loader =>
              _ ←m store_loader self filename (Some loader);
              mret (Some loader)
          | None =>
              λ st,
                match _load_file W fuel' self filename st with
                | (Raise (LoadError MISSING_FILE message), st') =>
                    if level =? 0 then (Raise (LoadError MISSING_FILE message), st')
                    else (_ ←m store_loader self filename None; mret None) st'
                | (Raise e, st') => (Raise e, st')
                | (Ok _, st') => open_junction W fuel' self filename st'
                end
          end
      end
  end.

(** ** [Loader.load] *)

(** [[f(x) for x in xs]] *)
Fixpoint mmap {A B} (f : A → M B) (xs : list A) : M (list B) :=
  match xs with
  | [] => mret []
  | x :: xs' => y ←m f x; ys ←m mmap f xs'; mret (y :: ys)
  end.

(** The first pass of [load]: the files of the targets and of all they
    depend on. *)
Definition load_files (W : World) (fuel : nat) (self : nat) (targets : list string)
    : M unit :=
  mfor targets (λ target, _ ←m _load_file W fuel self target; mret tt).

(** The last two passes of [load]: the sort, with a [visited] dict of its own
    for each target, and the collection. *)
Definition load_sort_collect (fuel : nat) (self : nat) (targets : list string)
    : M (list nat) :=
  _ ←m mfor targets (λ target, _ ←m _sort_dependencies fuel self target ∅; mret tt);
  mmap (_collect_element fuel self) targets.

(** [load]: the four passes. *)
Definition load (W : World) (fuel : nat) (self : nat) : M (list nat) :=
  L ←m mlift (λ st, deref st (Some self));
  _ ←m load_files W fuel self (_targets L);
  _ ←m load_check_circular fuel self;
  load_sort_collect fuel self (_targets L).

(** ** [Loader.cleanup] *)

(** [os.path.exists(path)] *)
Definition path_exists (st : Store) (path : string) : bool :=
  bool_decide (path ∈ dirs st).

(** Whether [path] is [dir] or lies in it. *)
Definition in_tree (dir path : string) : bool :=
  String.eqb path dir || String.prefix (dir +:+ "/") path.

(** [shutil.rmtree(path)] *)
Definition rmtree (path : string) : M unit :=
  λ st, (Ok tt,
         mkStore (loaders st) (metas st)
                 (filter (λ p, in_tree path p = false) (dirs st))
                 (removed st ++ [path])%list).

Fixpoint cleanup (fuel : nat) (self : nat) : M unit :=
  match fuel with
  | 0 => mraise RecursionLimit
  | S fuel' =>
      L ←m mlift (λ st, deref st (Some self));
      if bool_decide (is_Some (_parent L)) && negb (truthy_str (_tempdir L)) then
        mret tt
      else
        _ ←m mfor (dict_values (_loaders L))
               (λ loader, match loader with
                          | Some l => cleanup fuel' l
                          | None => mret tt
                          end);
        if negb (bool_decide (is_Some (_parent L))) then mret tt
        else
          let tempdir := default "" (_tempdir L) in
          if String.prefix (builddir (_context L) +:+ "/") tempdir then
            exists_ ←m mlift (λ st, Ok (path_exists st tempdir));
            if exists_ : bool then rmtree tempdir else mret tt
          else mret tt
  end.

(** * [ProjectRefs]: the project.refs store *)

(** The two document trees of a [ProjectRefs]. *)
Inductive TreeName := TOPLEVEL_NODE | TOPLEVEL_SAVE.

#[global] Instance TreeName_eq_dec : EqDecision TreeName.
Proof. solve_decision. Defined.

(** A reference to a ref node: the tree it is in and its place there. *)
Record NodeRef := mkNodeRef {
  nr_tree : TreeName;
  nr_project : string;
  nr_element : string;
  nr_index : nat;
}.

(** A ref node: its items and, when it was loaded from the file, its
    provenance, whose [node] is the original node in the tree to save. *)
Record RefNode := mkRefNode {
  rn_items : list (string * string);
  rn_provenance : option NodeRef;
}.

(** A new [{}]. *)
Definition empty_node : RefNode := mkRefNode [] None.

(** The value of the key [projects] of a document: project name, element
    name, list of ref nodes by source index.  A document is [None] when it
    has no key [projects]. *)
Abbreviation Projects := (gmap string (gmap string (list RefNode))).

(** A [ProjectRefs] object.  [toplevel_save] is [None] when it is the same
    object as [toplevel_node], as [load] leaves it when there is no file. *)
Record ProjectRefs := mkProjectRefs {
  toplevel_node : option Projects;
  toplevel_save : option (option Projects);
}.

(** [l[i]] for a Python [int]: the place of the item, [None] for
    [IndexError]. *)
Definition py_index {A} (l : list A) (i : Z) : option nat :=
  if (0 <=? i)%Z then
    if (i <? Z.of_nat (length l))%Z then Some (Z.to_nat i) else None
  else
    if (- Z.of_nat (length l) <=? i)%Z then Some (Z.to_nat (Z.of_nat (length l) + i)) else None.

(** The third step of [_lookup]: the source index in the element list. *)
Definition lookup_source (projects : Projects) (project : string)
    (project_node : gmap string (list RefNode)) (element : string)
    (element_list : list RefNode) (source_index : Z) (ensure : bool)
    : result (option nat) * option Projects :=
  match py_index element_list source_index with
  | Some i => (Ok (Some i), Some projects)
  | None =>
      if ensure then
        let padded :=
          (element_list ++
             replicate (Z.to_nat (source_index + 1 - Z.of_nat (length element_list)))
               empty_node)%list in
        let projects' := <[project := <[element := padded]> project_node]> projects in
        match py_index padded source_index with
        | Some i => (Ok (Some i), Some projects')
        | None => (Raise IndexError, Some projects')
        end
      else (Ok None, Some projects)
  end.

(** The second step of [_lookup]: the element in the project node. *)
Definition lookup_element_list (projects : Projects) (project : string)
    (project_node : gmap string (list RefNode)) (element : string)
    (source_index : Z) (ensure : bool) : result (option nat) * option Projects :=
  match project_node !! element with
  | Some element_list =>
      lookup_source projects project project_node element element_list source_index ensure
  | None =>
      if ensure then
        let project_node' := <[element := []]> project_node in
        lookup_source (<[project := project_node']> projects) project project_node'
          element [] source_index ensure
      else (Ok None, Some projects)
  end.

(** [ProjectRefs._lookup]: the place of the node in its element list, and
    the tree as the call leaves it. *)
Definition _lookup (toplevel : option Projects) (project element : string)
    (source_index : Z) (ensure : bool) : result (option nat) * option Projects :=
  match toplevel with
  | None => if ensure then (Raise (KeyError "projects"), None) else (Ok None, None)
  | Some projects =>
      match projects !! project with
      | Some project_node =>
          lookup_element_list projects project project_node element source_index ensure
      | None =>
          if ensure then
            lookup_element_list (<[project := ∅]> projects) project ∅ element
              source_index ensure
          else (Ok None, Some projects)
      end
  end.

(** The node at a place of a tree. *)
Definition node_at (toplevel : option Projects) (project element : string) (i : nat)
    : option RefNode :=
  projects ← toplevel;
  project_node ← projects !! project;
  element_list ← project_node !! element;
  element_list !! i.

(** The node a call of [_lookup] on the tree [tree] returned. *)
Definition node_ref (tree : TreeName) (project element : string)
    (r : result (option nat)) : result (option NodeRef) :=
  match r with
  | Ok found => Ok (mkNodeRef tree project element <$> found)
  | Raise e => Raise e
  end.

(** [ProjectRefs.lookup_ref] *)
Definition lookup_ref (self : ProjectRefs) (project element : string)
    (source_index : Z) (write : bool) : result (option NodeRef) * ProjectRefs :=
  match _lookup (toplevel_node self) project element source_index false with
  | (Raise e, t) => (Raise e, mkProjectRefs t (toplevel_save self))
  | (Ok found, t) =>
      let self := mkProjectRefs t (toplevel_save self) in
      let node := mkNodeRef TOPLEVEL_NODE project element <$> found in
      if write then
        let node :=
          match found with
          | Some i =>
              match node_at t project element i ≫= rn_provenance with
              | Some original => Some original
              | None => node
              end
          | None => None
          end in
        match node with
        | Some n => (Ok (Some n), self)
        | None =>
            match toplevel_save self with
            | None =>
                let '(r, t') := _lookup t project element source_index true in
                (node_ref TOPLEVEL_NODE project element r, mkProjectRefs t' None)
            | Some save =>
                let '(r, save') := _lookup save project element source_index true in
                (node_ref TOPLEVEL_SAVE project element r, mkProjectRefs t (Some save'))
            end
        end
      else (Ok node, self)
  end.
(** * Properties *)

(** ** The dependency graph of a store *)

(** An element is named by the address of its [Loader] and its file name. *)
Definition eref : Type := nat * string.

Definition elem_at (st : Store) (x : eref) : option LoadElement :=
  match loaders st !! x.1 with
  | Some L => _elements L !! x.2
  | None => None
  end.

(** The element a [Dependency] of an element of loader [l] leads to. *)
Definition resolve (st : Store) (l : nat) (d : Dependency) : option eref :=
  match _get_loader_for_dep st l d with
  | Ok (Some l') => Some (l', dep_name d)
  | _ => None
  end.

Definition edge (st : Store) (x y : eref) : Prop :=
  ∃ e d, elem_at st x = Some e ∧ d ∈ le_deps e ∧ resolve st x.1 d = Some y.

(** A cycle that can be reached from [r]. *)
Definition has_cycle (st : Store) (r : eref) : Prop :=
  ∃ x, rtc (edge st) r x ∧ tc (edge st) x x.

(** All the elements of all the loaders. *)
Definition loader_refs (a : nat) (L : Loader) : list eref :=
  (λ kv : string * LoadElement, (a, kv.1)) <$> map_to_list (_elements L).

Definition all_refs (st : Store) : list eref :=
  mjoin (imap loader_refs (loaders st)).

(** The key of the two dicts of the cycle check. *)
Definition key (st : Store) (x : eref) : string :=
  from_option le_full_name "" (elem_at st x).

(** Every dependency of every loaded element leads to a loaded element: what
    the first pass of [load] leaves when it does not raise. *)
Definition dep_loaded (st : Store) (l : nat) (d : Dependency) : bool :=
  match resolve st l d with
  | Some y => bool_decide (is_Some (elem_at st y))
  | None => false
  end.

Definition closed (st : Store) : bool :=
  forallb (λ x, match elem_at st x with
                | Some e => forallb (dep_loaded st x.1) (le_deps e)
                | None => false
                end) (all_refs st).

(** Full names are unique across the loaders. *)
Definition unique_full_names (st : Store) : bool :=
  bool_decide (NoDup (key st <$> all_refs st)).


(** ** Invariants of the cycle check *)

(** Every key of [check_elements] is an element from which the element
    being visited can be reached: the current path. *)
Definition on_path (st : Store) (x : eref) (CE : gmap string bool) : Prop :=
  ∀ k, is_Some (CE !! k) →
       ∃ p, is_Some (elem_at st p) ∧ key st p = k ∧ tc (edge st) p x.

(** Validated elements have validated dependencies and lie on no cycle. *)
Definition vgood (st : Store) (V : gmap string bool) : Prop :=
  ∀ z, is_Some (elem_at st z) → is_Some (V !! key st z) →
       (∀ y, edge st z y → is_Some (V !! key st y)) ∧ ¬ tc (edge st) z z.

Definition disjoint_dicts (CE V : gmap string bool) : Prop :=
  ∀ k, is_Some (CE !! k) → V !! k = None.

Definition check_post (st : Store) (x : eref) (CE V : gmap string bool)
    (r : result (gmap string bool * gmap string bool)) : Prop :=
  match r with
  | Ok (CE', V') =>
      CE' = CE ∧ (∀ k, is_Some (V !! k) → is_Some (V' !! k)) ∧
      is_Some (V' !! key st x) ∧ vgood st V' ∧ disjoint_dicts CE V'
  | Raise (LoadError CIRCULAR_DEPENDENCY m) =>
      ∃ y e, elem_at st y = Some e ∧ rtc (edge st) x y ∧ tc (edge st) y y ∧
             m = circular_message (le_name e)
  | Raise _ => False
  end.

(** ** Example stores *)

Definition example_context : Context := mkContext "/build" true.
Definition example_project : Project := mkProject "top" "/top/elements" None.

(** A plain dependency, as [depends: [name]] gives it. *)
Definition plain_dep (name : string) : Dependency :=
  mkDependency name None ALL (name +:+ " [line 1 column 2]").

(** A loaded element of the top-level project. *)
Definition top_element (kind name : string) (deps : list Dependency) : LoadElement :=
  mkLoadElement name name deps (Some (mkNode kind deps [])).

(** A top-level loader after the first pass. *)
Definition top_loader (targets : list string) (es : list LoadElement) : Loader :=
  mkLoader example_project example_context "/top/elements" targets None None ∅
           (list_to_map ((λ e, (le_name e, e)) <$> es)) [].

(** A→B, A→C, B→C *)
Definition store_acyclic : Store :=
  mkStore [top_loader ["a.bst"]
             [top_element "autotools" "a.bst" [plain_dep "b.bst"; plain_dep "c.bst"];
              top_element "autotools" "b.bst" [plain_dep "c.bst"];
              top_element "autotools" "c.bst" []]] [] [] [].

(** A→B→C→A *)
Definition store_cyclic : Store :=
  mkStore [top_loader ["a.bst"]
             [top_element "autotools" "a.bst" [plain_dep "b.bst"];
              top_element "autotools" "b.bst" [plain_dep "c.bst"];
              top_element "autotools" "c.bst" [plain_dep "a.bst"]]] [] [] [].

(** X→{A,B,C}, A→C, in the order the file of X lists them. *)
Definition store_sort : Store :=
  mkStore [top_loader ["x.bst"]
             [top_element "stack" "x.bst"
                [plain_dep "a.bst"; plain_dep "b.bst"; plain_dep "c.bst"];
              top_element "autotools" "a.bst" [plain_dep "c.bst"];
              top_element "autotools" "b.bst" [];
              top_element "autotools" "c.bst" []]] [] [] [].

(** A dependency through a junction, as [{junction: j, filename: name}] gives it. *)
Definition junction_dep (junction name : string) : Dependency :=
  mkDependency name (Some junction) ALL (junction +:+ ":" +:+ name +:+ " [line 1 column 2]").

Definition sub_project : Project := mkProject "sub" "/build/j-0/elements" (Some "j.bst").

(** X depends on [lib.bst] of its own project and on [lib.bst] of the
    subproject behind the junction [j.bst]; the two do not depend on each
    other. *)
Definition store_junction : Store :=
  mkStore
    [mkLoader example_project example_context "/top/elements" ["x.bst"] None None ∅
       (list_to_map
          [("x.bst", top_element "stack" "x.bst"
                       [plain_dep "lib.bst"; junction_dep "j.bst" "lib.bst"]);
           ("lib.bst", top_element "autotools" "lib.bst" []);
           ("j.bst", top_element "junction" "j.bst" [])])
       [("j.bst", Some 1)];
     mkLoader sub_project example_context "/build/j-0/elements" [] (Some "/build/j-0")
       (Some 0) ∅
       (list_to_map
          [("lib.bst", mkLoadElement "lib.bst" "j.bst:lib.bst" []
                         (Some (mkNode "autotools" [] [])))])
       []]
    [] ["/build/j-0"] [].

(** The dependency list of an element after a call of [_sort_dependencies]. *)
Definition sorted_deps (r : result (gmap string bool) * Store) (x : eref)
    : option (list Dependency) :=
  match r with
  | (Ok _, st) => le_deps <$> elem_at st x
  | (Raise _, _) => None
  end.

(** ** The ref node of a triple *)

(** The place of the node that exists for (project, element, source index)
    in a tree; none as soon as one of the keys on the way is missing. *)
Definition existing_node (toplevel : option Projects) (project element : string)
    (source_index : Z) : option nat :=
  projects ← toplevel;
  project_node ← projects !! project;
  element_list ← project_node !! element;
  py_index element_list source_index.

(** The same as a reference into the loaded tree. *)
Definition existing_ref (self : ProjectRefs) (project element : string)
    (source_index : Z) : option NodeRef :=
  mkNodeRef TOPLEVEL_NODE project element
    <$> existing_node (toplevel_node self) project element source_index.

(** ** Invariants of the collection pass *)

(** The [MetaElement] that a loader has cached for an element. *)
Definition memo (st : Store) (x : eref) : option nat :=
  match loaders st !! x.1 with
  | Some L => _meta_elements L !! x.2
  | None => None
  end.

(** A loader without its cache of [MetaElement]s: what the collection pass
    does not touch. *)
Definition graph_of (L : Loader) : Loader := set_meta_elements L ∅.

Definition same_graph (st st' : Store) : Prop :=
  graph_of <$> loaders st = graph_of <$> loaders st'.

(** An element that [_collect_element] accepts: it has a document, and no
    dependencies when it is a junction. *)
Definition collectable (e : LoadElement) : Prop :=
  ∃ node, le_node e = Some node ∧ (node_kind node = "junction" → le_deps e = []).

(** The cached [MetaElement]s of the dependencies [ds] of [x] whose type
    satisfies [keep], in the order of [ds]. *)
Definition meta_deps (st0 st : Store) (x : eref) (keep : DepType → bool)
    (ds : list Dependency) : list (option nat) :=
  (λ d, resolve st0 x.1 d ≫= memo st) <$> filter (λ d, keep (dep_type d) = true) ds.

Definition keep_build (t : DepType) : bool := bool_decide (t ≠ RUNTIME).
Definition keep_runtime (t : DepType) : bool := bool_decide (t ≠ BUILD).

(** The [MetaElement] at [a] is the one of [x], and its two lists are the
    cached [MetaElement]s of the dependencies [ds]. *)
Definition built (st0 st : Store) (x : eref) (ds : list Dependency) (a : nat) : Prop :=
  ∃ me, metas st !! a = Some me ∧ me_name me = x.2 ∧
        Some <$> me_build_dependencies me = meta_deps st0 st x keep_build ds ∧
        Some <$> me_dependencies me = meta_deps st0 st x keep_runtime ds.

(** The state of the pass: [st0] is the store before it, [root] the element
    it was called on, [base] the number of [MetaElement]s there were, [P] the
    elements whose call has not returned yet. *)
Record collect_inv (st0 : Store) (root : eref) (base : nat) (P : eref → Prop)
    (st : Store) : Prop := {
  ci_graph : same_graph st0 st;
  ci_dirs : dirs st = dirs st0 ∧ removed st = removed st0;
  ci_base : base ≤ length (metas st);
  ci_valid : ∀ x a, memo st x = Some a →
             a < length (metas st) ∧ is_Some (elem_at st0 x);
  ci_reach : ∀ x a, memo st x = Some a → base ≤ a → rtc (edge st0) root x;
  ci_inj : ∀ x y a, memo st x = Some a → memo st y = Some a → x = y;
  ci_surj : ∀ a, a < length (metas st) → ∃ x, memo st x = Some a;
  ci_pending : ∀ x, P x → is_Some (memo st x);
  ci_done : ∀ x a e, memo st x = Some a → ¬ P x → elem_at st0 x = Some e →
            built st0 st x (le_deps e) a;
}.

(** A store between two calls of [_collect_element]: each cached
    [MetaElement] is there, belongs to one element, and is complete. *)
Definition collected (st : Store) : Prop :=
  ∀ root, collect_inv st root (length (metas st)) (λ _, False) st.

(** The elements that have no [MetaElement] yet. *)
Definition uncollected (st0 st : Store) : list eref :=
  filter (λ y, memo st y = None) (all_refs st0).

(** Before the collection pass: no [MetaElement] and empty caches. *)
Definition fresh (st : Store) : bool :=
  bool_decide (metas st = []) &&
  forallb (λ L, bool_decide (_meta_elements L = ∅)) (loaders st).

(** A→{B,C}, B→D, C→D *)
Definition store_diamond : Store :=
  mkStore [top_loader ["a.bst"]
             [top_element "stack" "a.bst" [plain_dep "b.bst"; plain_dep "c.bst"];
              top_element "autotools" "b.bst" [plain_dep "d.bst"];
              top_element "autotools" "c.bst" [plain_dep "d.bst"];
              top_element "autotools" "d.bst" []]] [] [] [].

(** What a call of [_collect_element] on [x] gives, from the store [st]. *)
Definition collect_post (st0 : Store) (root : eref) (base : nat) (P : eref → Prop)
    (x : eref) (st : Store) (r : result nat * Store) : Prop :=
  ∃ a st', r = (Ok a, st') ∧ memo st' x = Some a ∧ collect_inv st0 root base P st' ∧
    (∀ y b, memo st y = Some b → memo st' y = Some b) ∧
    (∀ b, b < length (metas st) → metas st' !! b = metas st !! b) ∧
    length (metas st) ≤ length (metas st').

(** Every loaded element is one that [_collect_element] accepts. *)
Definition all_collectable (st : Store) : bool :=
  forallb (λ x, match elem_at st x with
                | Some e =>
                    match le_node e with
                    | Some node =>
                        negb (String.eqb (node_kind node) "junction")
                        || bool_decide (le_deps e = [])
                    | None => false
                    end
                | None => true
                end) (all_refs st).

(** A depends on J, an element of kind junction without dependencies. *)
Definition store_depends_on_junction : Store :=
  mkStore [top_loader ["a.bst"]
             [top_element "autotools" "a.bst" [plain_dep "j.bst"];
              top_element "junction" "j.bst" []]] [] [] [].

(** J is an element of kind junction with a dependency. *)
Definition store_junction_with_dependency : Store :=
  mkStore [top_loader ["j.bst"]
             [top_element "junction" "j.bst" [plain_dep "a.bst"];
              top_element "autotools" "a.bst" []]] [] [] [].

(** ** What a call leaves of the loaders *)

(** The attributes of a [Loader] that are set once, by the constructor. *)
Definition frame_of (L : Loader) :=
  (project L, _context L, _basedir L, _targets L, _tempdir L, _parent L).

(** Every loader of [st] is still there in [st'], with the same attributes. *)
Definition ext (st st' : Store) : Prop :=
  ∀ a L, loaders st !! a = Some L →
         ∃ L', loaders st' !! a = Some L' ∧ frame_of L' = frame_of L.

Definition stable {A} (m : M A) : Prop := ∀ st, ext st (m st).2.

(** ** An example world *)

(** The files of the example, by base directory and name. *)
Definition example_files (files : list (string * string * Node)) (basedir filename : string)
    : result Node :=
  match list_find (λ f, f.1 = (basedir, filename)) files with
  | Some (_, f) => Ok f.2
  | None => Raise (LoadError MISSING_FILE ("Could not find file at " +:+ filename))
  end.

(** Projects are found by the project and the name of the junction element,
    which stand for its source and ref; sources are cached; the temporary
    directories are numbered. *)
Definition example_world (files : list (string * string * Node))
    (projects : list (string * string * string)) : World :=
  mkWorld
    (λ path, "/cwd/" +:+ path)
    (example_files files)
    (λ _, Ok tt)
    (λ _, [(CACHED, Ok tt)])
    (λ m, String.substring 0 (String.length (me_name m) - 4) (me_name m))
    (λ _, "")
    (λ dirs, pretty (length dirs))
    (λ project_dir m,
       match list_find (λ p, p.1 = (me_project m, me_name m)) projects with
       | Some (_, p) => Ok (mkProject p.2 project_dir None)
       | None => Raise (LoadError MISSING_PROJECT_CONF "project.conf")
       end).

Definition junction_node : Node := mkNode "junction" [] [].
Definition element_node (deps : list Dependency) : Node := mkNode "autotools" deps [].

(** The top-level project and its subproject [sub] both define the junction
    [base.bst]: the one of the top-level project leads to the project
    [base-r1], the one of [sub] to [base-r2]. *)
Definition world_override : World :=
  example_world
    [("/top/elements", "app.bst", element_node [junction_dep "sub.bst" "lib.bst"]);
     ("/top/elements", "sub.bst", junction_node);
     ("/top/elements", "base.bst", junction_node);
     ("/build/sub-1/", "lib.bst", element_node [junction_dep "base.bst" "core.bst"]);
     ("/build/sub-1/", "base.bst", junction_node);
     ("/build/base-2/", "core.bst", element_node [])]
    [("top", "sub.bst", "sub"); ("top", "base.bst", "base-r1");
     ("sub", "base.bst", "base-r2")].

(** The two subprojects [s1] and [s2] of the top-level project both define
    the junction [base.bst], and the top-level project does not. *)
Definition world_conflict : World :=
  example_world
    [("/top/elements", "app.bst",
        element_node [junction_dep "s1.bst" "lib.bst"; junction_dep "s2.bst" "lib.bst"]);
     ("/top/elements", "s1.bst", junction_node);
     ("/top/elements", "s2.bst", junction_node);
     ("/build/s1-1/", "lib.bst", element_node [junction_dep "base.bst" "core.bst"]);
     ("/build/s1-1/", "base.bst", junction_node);
     ("/build/base-2/", "core.bst", element_node []);
     ("/build/s2-3/", "lib.bst", element_node [junction_dep "base.bst" "core.bst"]);
     ("/build/s2-3/", "base.bst", junction_node)]
    [("top", "s1.bst", "s1"); ("top", "s2.bst", "s2");
     ("s1", "base.bst", "base-r1"); ("s2", "base.bst", "base-r2")].

(** The store with the top-level loader for the target [app.bst]. *)
Definition store_top : Store :=
  mkStore [mkLoader example_project example_context "/top/elements" ["app.bst"]
             None None ∅ ∅ []] [] [] [].

(** The top-level project where [a.bst] names the junction [j.bst] as a
    plain dependency. *)
Definition world_depends_on_junction : World :=
  example_world
    [("/top/elements", "a.bst", element_node [plain_dep "j.bst"]);
     ("/top/elements", "j.bst", junction_node)]
    [("top", "j.bst", "sub")].

(** ** What [cleanup] may remove *)

(** The temporary directory of a loader that has a parent, lying under the
    build root of its context. *)
Definition removable (st : Store) (d : string) : Prop :=
  ∃ a L, loaders st !! a = Some L ∧ is_Some (_parent L) ∧ _tempdir L = Some d ∧
         String.prefix (builddir (_context L) +:+ "/") d = true.

(** From [st] to [st'], only such directories were removed, with what they
    hold; nothing else changed. *)
Definition cleanup_rel (st st' : Store) : Prop :=
  loaders st' = loaders st ∧ metas st' = metas st ∧
  (∃ new, removed st' = removed st ++ new ∧ ∀ d, d ∈ new → removable st d) ∧
  (∀ p, p ∈ dirs st' → p ∈ dirs st) ∧
  (∀ p, p ∈ dirs st → p ∈ dirs st' ∨ ∃ d, removable st d ∧ in_tree d p = true).

(** One turn of the loop of [cleanup] over [self._loaders.values()]. *)
Definition cleanup_child (fuel : nat) (loader : option nat) : M unit :=
  match loader with
  | Some l => cleanup fuel l
  | None => mret tt
  end.

(** The [rmtree] call a loader makes for itself, after its children, from
    the store [st] they left. *)
Definition own_removal (L : Loader) (st : Store) : list string :=
  match _parent L, _tempdir L with
  | Some _, Some tempdir =>
      if String.prefix (builddir (_context L) +:+ "/") tempdir
         && bool_decide (tempdir ∈ dirs st)
      then [tempdir] else []
  | _, _ => []
  end.

(** A project.refs with one ref, for the first source of [a.bst] of [top];
    no file was there, so the tree to save is the loaded one. *)
Definition example_refs : ProjectRefs :=
  mkProjectRefs
    (Some {["top" := {["a.bst" := [mkRefNode [("ref", "0a1b2c")] None]]}]})
    None.

(** ** Which passes can raise [CircularDependency] *)

Definition not_circular (e : exn) : Prop :=
  ∀ message, e ≠ LoadError CIRCULAR_DEPENDENCY message.

(** A result, or a call on the store, that does not raise
    [CircularDependency]. *)
Definition rsafe {A} (r : result A) : Prop := ∀ e, r = Raise e → not_circular e.

Definition msafe {A} (m : M A) : Prop :=
  ∀ st e st', m st = (Raise e, st') → not_circular e.

(** The store with the top-level loader for the given targets. *)
Definition store_targets (targets : list string) : Store :=
  mkStore [mkLoader example_project example_context "/top/elements" targets
             None None ∅ ∅ []] [] [] [].

(** A→B, A→C, B→C, as files. *)
Definition world_acyclic : World :=
  example_world
    [("/top/elements", "a.bst", element_node [plain_dep "b.bst"; plain_dep "c.bst"]);
     ("/top/elements", "b.bst", element_node [plain_dep "c.bst"]);
     ("/top/elements", "c.bst", element_node [])]
    [].

(** A→B→C→A, as files. *)
Definition world_cyclic : World :=
  example_world
    [("/top/elements", "a.bst", element_node [plain_dep "b.bst"]);
     ("/top/elements", "b.bst", element_node [plain_dep "c.bst"]);
     ("/top/elements", "c.bst", element_node [plain_dep "a.bst"])]
    [].

(** A cycle through two subprojects: [x.bst] of [s1] depends on [y.bst] of
    [s2], which depends on [x.bst] of [s1]; each subproject names the other
    through a junction that the top-level project defines too. *)
Definition world_cycle_across : World :=
  example_world
    [("/top/elements", "app.bst", element_node [junction_dep "s1.bst" "x.bst"]);
     ("/top/elements", "s1.bst", junction_node);
     ("/top/elements", "s2.bst", junction_node);
     ("/build/s1-1/", "x.bst", element_node [junction_dep "s2.bst" "y.bst"]);
     ("/build/s1-1/", "s2.bst", junction_node);
     ("/build/s2-2/", "y.bst", element_node [junction_dep "s1.bst" "x.bst"]);
     ("/build/s2-2/", "s1.bst", junction_node)]
    [("top", "s1.bst", "s1"); ("top", "s2.bst", "s2")].

(** Two subprojects that name each other, without a cycle among the
    elements: [x.bst] of [s1] depends on [y.bst] of [s2], and [z.bst] of [s2]
    on [w.bst] of [s1]. *)
Definition world_mutual : World :=
  example_world
    [("/top/elements", "app.bst",
        element_node [junction_dep "s1.bst" "x.bst"; junction_dep "s2.bst" "z.bst"]);
     ("/top/elements", "s1.bst", junction_node);
     ("/top/elements", "s2.bst", junction_node);
     ("/build/s1-1/", "x.bst", element_node [junction_dep "s2.bst" "y.bst"]);
     ("/build/s1-1/", "w.bst", element_node []);
     ("/build/s1-1/", "s2.bst", junction_node);
     ("/build/s2-2/", "y.bst", element_node []);
     ("/build/s2-2/", "z.bst", element_node [junction_dep "s1.bst" "w.bst"]);
     ("/build/s2-2/", "s1.bst", junction_node)]
    [("top", "s1.bst", "s1"); ("top", "s2.bst", "s2")].

(** * Further properties *)

(** ** What the sort changes *)

(** The same element, with its dependencies in another order. *)
Definition same_but_order (e e' : LoadElement) : Prop :=
  le_name e' = le_name e ∧ le_full_name e' = le_full_name e ∧
  le_node e' = le_node e ∧ le_deps e' ≡ₚ le_deps e.

(** From [st] to [st'], nothing changed but the order of dependency lists. *)
Definition reordered (st st' : Store) : Prop :=
  metas st' = metas st ∧ dirs st' = dirs st ∧ removed st' = removed st ∧
  length (loaders st') = length (loaders st) ∧
  ∀ a L, loaders st !! a = Some L →
    ∃ L', loaders st' !! a = Some L' ∧ frame_of L' = frame_of L ∧
          _meta_elements L' = _meta_elements L ∧ _loaders L' = _loaders L ∧
          ∀ k, option_Forall2 same_but_order (_elements L !! k) (_elements L' !! k).

(** A call that keeps a relation between the store before and after. *)
Definition keeps {A} (R : Store → Store → Prop) (m : M A) : Prop :=
  ∀ st, R st (m st).2.

(** ** The comparison of two dependencies *)

(** What the last rule of [dependency_cmp] compares after the name: the
    junction, when there is one. *)
Definition junction_key (dep : Dependency) : option string :=
  if truthy_str (dep_junction dep) then dep_junction dep else None.

(** ** The order of independent dependencies *)

(** Whether [dep_a] comes before [dep_b] by the rules of [dependency_cmp]
    that do not look at the elements: a dependency that is needed at run time
    only comes after one that is not; then the names decide; then a
    dependency through a junction comes first, and the names of the
    junctions decide between two of them. *)
Definition runtime_only (dep : Dependency) : bool := bool_decide (dep_type dep = RUNTIME).

Definition junction_before (dep_a dep_b : Dependency) : bool :=
  match junction_key dep_a, junction_key dep_b with
  | Some junction_a, Some junction_b => String.ltb junction_a junction_b
  | Some _, None => true
  | None, _ => false
  end.

(** A first order, and a second one for what the first does not tell
    apart. *)
Definition lexb {A} (lt1 lt2 : A → A → bool) (a b : A) : bool :=
  lt1 a b || (negb (lt1 b a) && lt2 a b).

Definition dep_before : Dependency → Dependency → bool :=
  lexb (λ a b, negb (runtime_only a) && runtime_only b)
    (lexb (λ a b, String.ltb (dep_name a) (dep_name b)) junction_before).

(** Neither of the two elements depends on the other, as far as [depends]
    tells, and [depends] returns. *)
Definition independent (fuel : nat) (st : Store) (self : nat) (dep_a dep_b : Dependency)
    : bool :=
  match (loader_a ←r _get_loader_for_dep st self dep_a;
         element_a ←r get_element_for_dep st self dep_a;
         element_b ←r get_element_for_dep st self dep_b;
         depends fuel st (default 0 loader_a) element_a element_b) with
  | Ok false => true
  | _ => false
  end.

(** A strict weak order, as a function to [bool]. *)
Record strict_weak {A} (ltb : A → A → bool) : Prop := {
  sw_asym : ∀ x y, ltb x y = true → ltb y x = false;
  sw_negtrans : ∀ x y z, ltb x y = false → ltb y z = false → ltb x z = false;
}.

(** [x] is not after [y]. *)
Definition not_after {A} (ltb : A → A → bool) (x y : A) : Prop := ltb y x = false.

(** The comparison [lt] does not raise on the items of [l], and answers as
    [ltb] does. *)
Definition pure_on {A} (lt : A → A → result bool) (ltb : A → A → bool) (l : list A) : Prop :=
  ∀ x y, x ∈ l → y ∈ l → lt x y = Ok (ltb x y).

(** ** What the first pass and the collection add *)

(** The same [MetaElement], with more dependencies appended. *)
Definition meta_extends (m m' : MetaElement) : Prop :=
  me_project m' = me_project m ∧ me_name m' = me_name m ∧ me_kind m' = me_kind m ∧
  me_sources m' = me_sources m ∧
  me_build_dependencies m `prefix_of` me_build_dependencies m' ∧
  me_dependencies m `prefix_of` me_dependencies m'.

(** From [st] to [st'], things were only added: every loader is there with
    the attributes it had, with the elements and the [MetaElement]s it had
    cached, and with an entry for every junction name it had one for; every
    [MetaElement] is there, with more dependencies at most; the directories
    are there, and none was removed. *)
Definition grows (st st' : Store) : Prop :=
  removed st' = removed st ∧
  (∀ p, p ∈ dirs st → p ∈ dirs st') ∧
  (∀ a m, metas st !! a = Some m → ∃ m', metas st' !! a = Some m' ∧ meta_extends m m') ∧
  (∀ a L, loaders st !! a = Some L →
     ∃ L', loaders st' !! a = Some L' ∧ frame_of L' = frame_of L ∧
           _elements L ⊆ _elements L' ∧ _meta_elements L ⊆ _meta_elements L' ∧
           ∀ k, is_Some (dict_get k (_loaders L)) → is_Some (dict_get k (_loaders L'))).

(** ** The loaders of subprojects *)

(** Whether a path ends with a separator, as [os.path.join] tests it. *)
Definition trailing_slash (path : string) : bool :=
  String.prefix "/" (String.string_of_list_ascii (rev (String.list_ascii_of_string path))).

(** The test of [cleanup] on the temporary directory of a loader. *)
Definition under_builddir (L : Loader) : bool :=
  String.prefix (builddir (_context L) +:+ "/") (default "" (_tempdir L)).

(** From [st] to [st'], the loaders and their attributes are the same. *)
Definition same_frames (st st' : Store) : Prop :=
  frame_of <$> loaders st' = frame_of <$> loaders st.

(** A loader as [_get_loader] makes it for a subproject: no targets, nothing
    loaded, and a temporary directory that [mkdtemp] made in the build
    directory, named after the junction element. *)
Definition subproject_loader (W : World) (L : Loader) : Prop :=
  _targets L = [] ∧
  ∃ me existing,
    _tempdir L = Some (path_join (builddir (_context L))
                         ((normal_name W me +:+ "-") +:+ mkdtemp_suffix W existing)).

(** From [st] to [st'], every loader stayed, with its attributes, and every
    new one is the loader of a subproject, whose parent is a loader made
    before it, with the same context. *)
Definition adds_subprojects (W : World) (st st' : Store) : Prop :=
  ext st st' ∧
  ∀ a L', loaders st' !! a = Some L' → loaders st !! a = None →
    subproject_loader W L' ∧
    ∃ parent Lp, _parent L' = Some parent ∧ parent < a ∧
                 loaders st' !! parent = Some Lp ∧ _context Lp = _context L'.

(** A world where the normal name of every junction is [sub]. *)
Definition world_sub : World :=
  mkWorld
    (λ path, "/cwd/" +:+ path)
    (example_files
       [("/top/elements", "app.bst", element_node [junction_dep "sub.bst" "lib.bst"]);
        ("/top/elements", "sub.bst", junction_node);
        ("/build/sub-1/", "lib.bst", element_node [])])
    (λ _, Ok tt)
    (λ _, [(CACHED, Ok tt)])
    (λ _, "sub")
    (λ _, "")
    (λ dirs, pretty (length dirs))
    (λ project_dir _, Ok (mkProject "sub" project_dir None)).

(** The store with the top-level loader for [app.bst], for a build
    directory. *)
Definition store_builddir (builddir : string) : Store :=
  mkStore [mkLoader example_project (mkContext builddir true) "/top/elements" ["app.bst"]
             None None ∅ ∅ []] [] [] [].

(** The loader that [_get_loader] makes at the end. *)
Definition junction_loader (W : World) (L : Loader) (self : nat) (filename basedir : string)
    (p : Project) : Loader :=
  let p := mkProject (project_name p) (element_path p) (Some filename) in
  mkLoader p (_context L) (init_basedir (abspath W) p) [] (Some basedir) (Some self) ∅ ∅ [].

(** The element [j.bst] of the top-level project depends on a file that is
    not there; the subproject [sub] has a junction of that name, and
    [z.bst] of the top-level project depends on [j.bst]. *)
Definition world_stale : World :=
  example_world
    [("/top/elements", "app.bst", element_node [junction_dep "sub.bst" "lib.bst"]);
     ("/top/elements", "z.bst", element_node [plain_dep "j.bst"]);
     ("/top/elements", "sub.bst", junction_node);
     ("/top/elements", "j.bst", element_node [plain_dep "missing.bst"]);
     ("/build/sub-1/", "lib.bst", element_node [junction_dep "j.bst" "core.bst"]);
     ("/build/sub-1/", "j.bst", junction_node);
     ("/build/j-2/", "core.bst", element_node [])]
    [("top", "sub.bst", "sub"); ("sub", "j.bst", "base")].

(** ** The first pass in a project without junctions *)

(** A dependency on an element of the same project. *)
Definition plain (dep : Dependency) : bool := negb (truthy_str (dep_junction dep)).

(** No element file of the world names a junction in a dependency. *)
Definition plain_world (W : World) : Prop :=
  ∀ basedir filename node,
    yaml_load W basedir filename = Ok node → forallb plain (node_depends node) = true.

(** One loader, for a project that is not a subproject, with elements as
    [_load_file] makes them from such files. *)
Definition single_project (st : Store) : Prop :=
  ∃ L, loaders st = [L] ∧ project_junction (project L) = None ∧
       ∀ k e, _elements L !! k = Some e →
              le_full_name e = k ∧ forallb plain (le_deps e) = true.

(** Every element is one of [P], whose load is going on, or has all its
    dependencies loaded. *)
Definition loaded_or (P : string → Prop) (st : Store) : Prop :=
  ∀ k e, elem_at st (0, k) = Some e →
         P k ∨ ∀ d, d ∈ le_deps e → is_Some (elem_at st (0, dep_name d)).

(** From [st] to [st'], no [MetaElement] was made or cached. *)
Definition same_metas (st st' : Store) : Prop :=
  metas st' = metas st ∧ _meta_elements <$> loaders st' = _meta_elements <$> loaders st.

(** * [ProjectRefs.load] *)

Module refs.

(** What [load] asks of [_yaml] and of the option pool, for the file of
    this [ProjectRefs]. *)
Record Yaml := mkYaml {
  (** [_yaml.load(self.fullpath, copy_tree=True)]: the copy of the document,
      and the document it was copied from, which is the [toplevel] of its
      provenance. *)
  yaml_load : result (option Projects * option Projects);
  (** [options.process_node(node)], which works on the node in place. *)
  process_node : option Projects → result (option Projects);
  (** [_yaml.node_final_assertions(node)] *)
  node_final_assertions : option Projects → result unit;
  (** [_yaml.node_validate(node, ['projects'])] *)
  node_validate : option Projects → result unit;
}.

(** The body of the [try] statement of [load]: the two trees. *)
Definition try_load (Y : Yaml) : result ProjectRefs :=
  loaded ←r yaml_load Y;
  toplevel_node ←r process_node Y loaded.1;
  _ ←r node_final_assertions Y toplevel_node;
  Ok (mkProjectRefs toplevel_node (Some loaded.2)).

(** [if 'projects' not in node: node['projects'] = {}] *)
Definition ensure_projects (node : option Projects) : option Projects :=
  match node with
  | Some projects => Some projects
  | None => Some ∅
  end.

(** [load(options)]: the object as a call that returns leaves it.  A
    [LoadError] for a missing file, from anywhere in the [try] statement,
    gives one new empty document for both trees. *)
Definition load (Y : Yaml) : result ProjectRefs :=
  self ←r match try_load Y with
          | Raise (LoadError MISSING_FILE _) => Ok (mkProjectRefs None None)
          | r => r
          end;
  _ ←r node_validate Y (toplevel_node self);
  Ok (mkProjectRefs (ensure_projects (toplevel_node self))
                    (ensure_projects <$> toplevel_save self)).

End refs.

(** The list of ref nodes of an element in a tree. *)
Definition refs_of (toplevel : option Projects) (project element : string)
    : option (list RefNode) :=
  projects ← toplevel;
  project_node ← projects !! project;
  project_node !! element.

(** Both trees of a [ProjectRefs] have the key [projects]. *)
Definition has_projects (self : ProjectRefs) : Prop :=
  is_Some (toplevel_node self) ∧ toplevel_save self ≠ Some None.

(** The node a reference leads to. *)
Definition deref_node (self : ProjectRefs) (n : NodeRef) : option RefNode :=
  node_at (match nr_tree n, toplevel_save self with
           | TOPLEVEL_SAVE, Some save => save
           | _, _ => toplevel_node self
           end) (nr_project n) (nr_element n) (nr_index n).

(** A validation that accepts every document. *)
Definition example_yaml (r : result (option Projects * option Projects)) : refs.Yaml :=
  refs.mkYaml r Ok (λ _, Ok tt) (λ _, Ok tt).

(** * [JunctionElement]: [plugins/elements/junction.py] *)

Module junction.

(** [s.split(sep)] for a separator [sep] of one character. *)
Fixpoint split (sep : ascii) (s : string) : list string :=
  match s with
  | EmptyString => [EmptyString]
  | String c s' =>
      if Ascii.eqb c sep then EmptyString :: split sep s'
      else match split sep s' with
           | x :: xs => String c x :: xs
           | [] => [String c EmptyString]
           end
  end.

(** [any(xs)] for a sequence of objects that are all true: [Source]s, and
    the pairs that [node_items] gives. *)
Definition any {A} (xs : list A) : bool :=
  match xs with
  | [] => false
  | _ :: _ => true
  end.

(** The [config] mapping of a junction element: the keys that are there. *)
Record Config := mkConfig {
  config_path : option string;
  config_options : option (list (string * string));
  config_target : option string;
}.

(** The attributes of a [JunctionElement] that [configure] and [preflight]
    use. *)
Record JunctionElement := mkJunctionElement {
  name : string;
  sources : list MetaSource;
  path : string;
  options : list (string * string);
  target : option string;
  target_element : option string;
  target_junction : option string;
}.

(** [configure(node)], on the element [name] with the sources [sources]. *)
Definition configure (name : string) (sources : list MetaSource) (node : Config)
    : JunctionElement :=
  mkJunctionElement name sources
    (default "" (config_path node)) (default [] (config_options node))
    (config_target node) None None.

Definition set_target (self : JunctionElement) (junction element : string)
    : JunctionElement :=
  mkJunctionElement (name self) (sources self) (path self) (options self) (target self)
    (Some element) (Some junction).

(** The unpacking [self.target_junction, self.target_element =
    self.target.split(":")], where a list of another length than two is a
    [ValueError], which [preflight] turns into an [ElementError]. *)
Definition unpack_target (self : JunctionElement) : result JunctionElement :=
  match split ":" (default "" (target self)) with
  | [junction; element] => Ok (set_target self junction element)
  | _ => Raise (ElementError
                  "'target' option must be in format '{junction-name}:{element-name}'")
  end.

(** [preflight()]: what it raises, and the element as it leaves it. *)
Definition preflight (self : JunctionElement) : result unit * JunctionElement :=
  if truthy_str (target self) && any (sources self) then
    (Raise (ElementError
              "junction elements cannot define both 'sources' and 'target' config option"),
     self)
  else if truthy_str (target self) && any (options self) then
    (Raise (ElementError "junction elements cannot define both 'options' and 'target'"),
     self)
  else if truthy_str (target self) && negb (String.eqb (path self) "") then
    (Raise (ElementError "junction elements cannot define both 'path' and 'target'"), self)
  else
    match (if truthy_str (target self) then unpack_target self else Ok self) with
    | Raise e => (Raise e, self)
    | Ok self =>
        if bool_decide (Some (name self) = target_element self) then
          (Raise (ElementError
                    "junction elements cannot target an element with the same name"),
           self)
        else (Ok tt, self)
    end.

End junction.

(** * The message depth of [Context]: [_context.py] *)

Module context.

(** [self._message_depth], a [deque]: the left end is the head of the
    list. *)
Definition message_depth := list bool.

(** What stops a call here is a failed [assert]. *)
Inductive outcome (A : Type) :=
  | Returns (a : A)
  | AssertionError.
Arguments Returns {A} a.
Arguments AssertionError {A}.

(** [_push_message_depth(silent_nested)] *)
Definition _push_message_depth (silent_nested : bool) (depth : message_depth)
    : message_depth :=
  silent_nested :: depth.

(** [_pop_message_depth()] *)
Definition _pop_message_depth (depth : message_depth) : outcome message_depth :=
  match depth with
  | [] => AssertionError
  | _ :: depth' => Returns depth'
  end.

(** [_silent_messages()] *)
Fixpoint _silent_messages (depth : message_depth) : bool :=
  match depth with
  | [] => false
  | silent :: depth' => if silent then true else _silent_messages depth'
  end.

(** A [Message], as far as [_message] looks at it. *)
Record Message := mkMessage {
  depth : option nat;
  text : string;
}.

(** [_message(message)], with the handler [handler] when one is set: the
    message as it is handed to the handler. *)
Definition _message {H} (handler : option H) (stack : message_depth) (message : Message)
    : outcome (H * Message) :=
  let message :=
    match depth message with
    | None => mkMessage (Some (length stack)) (text message)
    | Some _ => message
    end in
  match handler with
  | None => AssertionError
  | Some h => Returns (h, message)
  end.

(** A call of one of the two methods that change the depth. *)
Inductive call :=
  | push (silent_nested : bool)
  | pop.

(** A sequence of such calls, from the depth [stack]. *)
Fixpoint run (calls : list call) (stack : message_depth) : outcome message_depth :=
  match calls with
  | [] => Returns stack
  | push silent_nested :: calls' => run calls' (_push_message_depth silent_nested stack)
  | pop :: calls' =>
      match _pop_message_depth stack with
      | Returns stack' => run calls' stack'
      | AssertionError => AssertionError
      end
  end.

(** The calls are nested as the enter and the exit of timed activities are:
    no [pop] comes before its [push], and [open] activities are left open
    at the end. *)
Fixpoint nested (calls : list call) (open : nat) : option nat :=
  match calls with
  | [] => Some open
  | push _ :: calls' => nested calls' (S open)
  | pop :: calls' =>
      match open with
      | 0 => None
      | S open' => nested calls' open'
      end
  end.

End context.

(** ** When the sort returns *)

(** The chains of dependencies from [x] have at most [h] steps. *)
Fixpoint bounded (st : Store) (x : eref) (h : nat) : Prop :=
  match h with
  | 0 => ∀ y, ¬ edge st x y
  | S h' => ∀ y, edge st x y → bounded st y h'
  end.
(** * Proofs *)

Lemma dict_get_set_eq {V} k (v : V) d : dict_get k (dict_set k v d) = Some v.
Proof.
  induction d as [|[k' v'] d IH]; simpl.
  - by rewrite String.eqb_refl.
  - destruct (String.eqb k k') eqn:E; simpl; rewrite E; done.
Qed.

Lemma dict_get_set_ne {V} k k' (v : V) d :
  k ≠ k' → dict_get k' (dict_set k v d) = dict_get k' d.
Proof.
  intros Hne. induction d as [|[k0 v0] d IH]; simpl.
  - destruct (String.eqb k' k) eqn:E; [|done].
    apply String.eqb_eq in E. congruence.
  - destruct (String.eqb k k0) eqn:E; simpl.
    + apply String.eqb_eq in E. subst k0.
      destruct (String.eqb k' k) eqn:E'; [|done].
      apply String.eqb_eq in E'. congruence.
    + by rewrite IH.
Qed.


(** ** Facts on the graph of a store *)

Lemma elem_of_all_refs st x : x ∈ all_refs st ↔ is_Some (elem_at st x).
Proof.
  unfold all_refs, elem_at. rewrite list_elem_of_join. split.
  - intros (l & Hx & Hl). apply elem_of_lookup_imap in Hl as (a & L & -> & Ha).
    unfold loader_refs in Hx. apply list_elem_of_fmap in Hx as ([k e] & -> & Hke).
    apply elem_of_map_to_list in Hke. simpl. rewrite Ha. eauto.
  - destruct x as [a k]. simpl. destruct (loaders st !! a) as [L|] eqn:Ha.
    + intros [e He]. exists (loader_refs a L). split.
      * unfold loader_refs. apply list_elem_of_fmap. exists (k, e). split; [done|].
        by apply elem_of_map_to_list.
      * apply elem_of_lookup_imap. eauto.
    + intros [? ?]. done.
Qed.

Lemma closed_dep st x e d :
  closed st = true → elem_at st x = Some e → d ∈ le_deps e →
  ∃ y, resolve st x.1 d = Some y ∧ is_Some (elem_at st y).
Proof.
  intros Hc He Hd. unfold closed in Hc. rewrite forallb_forall in Hc.
  specialize (Hc x). rewrite He in Hc.
  assert (Hx : In x (all_refs st)).
  { apply list_elem_of_In, elem_of_all_refs. eauto. }
  specialize (Hc Hx). rewrite forallb_forall in Hc.
  specialize (Hc d (proj1 (list_elem_of_In _ _) Hd)).
  unfold dep_loaded in Hc. destruct (resolve st x.1 d) as [y|]; [|done].
  exists y. split; [done|]. by apply bool_decide_eq_true in Hc.
Qed.

Lemma edge_target st x y : closed st = true → edge st x y → is_Some (elem_at st y).
Proof.
  intros Hc (e & d & He & Hd & Hr).
  destruct (closed_dep _ _ _ _ Hc He Hd) as (y' & Hr' & Hy). congruence.
Qed.

Lemma NoDup_fmap_eq {A B} (f : A → B) (l : list A) x y :
  NoDup (f <$> l) → x ∈ l → y ∈ l → f x = f y → x = y.
Proof.
  induction l as [|a l IH]; intros Hnd Hx Hy Hf; [by apply elem_of_nil in Hx|].
  rewrite fmap_cons in Hnd. apply NoDup_cons in Hnd as [Ha Hnd].
  apply elem_of_cons in Hx as [->|Hx]; apply elem_of_cons in Hy as [->|Hy]; try done.
  - exfalso. apply Ha. rewrite Hf. by apply list_elem_of_fmap_2.
  - exfalso. apply Ha. rewrite <- Hf. by apply list_elem_of_fmap_2.
  - by apply IH.
Qed.

Lemma key_inj st x y :
  unique_full_names st = true →
  is_Some (elem_at st x) → is_Some (elem_at st y) → key st x = key st y → x = y.
Proof.
  intros Hu Hx Hy Hk. apply bool_decide_eq_true in Hu.
  eapply NoDup_fmap_eq; eauto; by apply elem_of_all_refs.
Qed.

(** ** The cycle check *)

Lemma tc_first {A} (R : relation A) x z : tc R x z → ∃ y, R x y ∧ rtc R y z.
Proof.
  destruct 1 as [x z H|x y z H Hyz].
  - exists z. split; [done|apply rtc_refl].
  - exists y. split; [done|by apply tc_rtc].
Qed.

Section check_circular.
Variable st : Store.
Hypothesis Hclosed : closed st = true.
Hypothesis Hunique : unique_full_names st = true.

Lemma on_path_size x (CE : gmap string bool) :
  on_path st x CE → (size CE ≤ length (all_refs st))%nat.
Proof.
  intros Hp.
  assert (Hsub : dom CE ⊆ (list_to_set (key st <$> all_refs st) : gset string)).
  { intros k Hk. apply elem_of_dom in Hk. destruct (Hp k Hk) as (p & Hel & <- & _).
    apply elem_of_list_to_set, list_elem_of_fmap_2. by apply elem_of_all_refs. }
  apply subseteq_size in Hsub. rewrite size_dom in Hsub.
  rewrite size_list_to_set in Hsub.
  - by rewrite length_fmap in Hsub.
  - by apply bool_decide_eq_true in Hunique.
Qed.

Lemma vgood_rtc (V : gmap string bool) z w :
  vgood st V → is_Some (elem_at st z) → is_Some (V !! key st z) →
  rtc (edge st) z w → is_Some (V !! key st w).
Proof.
  intros Hv Hz Hk Hr. induction Hr as [|z y w Hzy _ IH]; [done|].
  apply IH.
  - by eapply edge_target.
  - by apply (Hv z Hz Hk).
Qed.

Lemma resolve_loader l d y :
  resolve st l d = Some y → _get_loader_for_dep st l d = Ok (Some y.1) ∧ y.2 = dep_name d.
Proof.
  unfold resolve. destruct (_get_loader_for_dep st l d) as [[l'|]|]; [|done..].
  intros [= <-]. done.
Qed.

Lemma check_loop_spec (body : _ → Dependency → _) x e (CE1 : gmap string bool) :
  elem_at st x = Some e →
  (∀ d y Vi, d ∈ le_deps e → resolve st x.1 d = Some y →
     vgood st Vi → disjoint_dicts CE1 Vi →
     check_post st y CE1 Vi (body (CE1, Vi) d)) →
  ∀ ds Vi, (∀ d, d ∈ ds → d ∈ le_deps e) →
    vgood st Vi → disjoint_dicts CE1 Vi →
    match rfold body ds (CE1, Vi) with
    | Ok (CE', V') =>
        CE' = CE1 ∧ (∀ k, is_Some (Vi !! k) → is_Some (V' !! k)) ∧
        (∀ d y, d ∈ ds → resolve st x.1 d = Some y → is_Some (V' !! key st y)) ∧
        vgood st V' ∧ disjoint_dicts CE1 V'
    | Raise (LoadError CIRCULAR_DEPENDENCY m) =>
        ∃ y e', elem_at st y = Some e' ∧ tc (edge st) x y ∧ tc (edge st) y y ∧
                m = circular_message (le_name e')
    | Raise _ => False
    end.
Proof.
  intros He Hbody ds. induction ds as [|d ds IH]; intros Vi Hds Hv Hdj; simpl.
  - split_and!; try done. intros d y Hd. by apply elem_of_nil in Hd.
  - assert (Hd : d ∈ le_deps e) by (apply Hds; left).
    destruct (closed_dep _ _ _ _ Hclosed He Hd) as (y & Hr & Hy).
    specialize (Hbody d y Vi Hd Hr Hv Hdj).
    assert (Hxy : edge st x y) by (exists e, d; done).
    destruct (body (CE1, Vi) d) as [[CE' V']|ex]; simpl in *.
    + destruct Hbody as (-> & Hmono & Hky & Hv' & Hdj').
      specialize (IH V' (λ d' H, Hds d' (list_elem_of_further _ _ _ H)) Hv' Hdj').
      destruct (rfold body ds (CE1, V')) as [[CE'' V'']|ex]; simpl in *.
      * destruct IH as (-> & Hmono' & Hall & Hv'' & Hdj'').
        split_and!; try done; [naive_solver|].
        intros d' y' Hd' Hr'. apply elem_of_cons in Hd' as [->|Hd'].
        -- apply Hmono'. congruence.
        -- by eapply Hall.
      * done.
    + destruct ex as [[] m| | | | |]; try done.
      destruct Hbody as (w & e' & Hw & Hyw & Hww & ->).
      exists w, e'. split_and!; try done. by eapply tc_rtc_r; [apply tc_once|].
Qed.

Lemma check_spec fuel : ∀ x (CE V : gmap string bool),
  is_Some (elem_at st x) → on_path st x CE → vgood st V → disjoint_dicts CE V →
  (fuel + size CE > length (all_refs st))%nat →
  check_post st x CE V (_check_circular_deps fuel st x.1 x.2 (CE, V)).
Proof.
  induction fuel as [|fuel IH]; intros [l n] CE V [e He] Hp Hv Hdj Hfuel.
  { apply on_path_size in Hp. lia. }
  assert (Hkey : key st (l, n) = le_full_name e) by (unfold key; by rewrite He).
  pose proof He as He'. unfold elem_at in He'. simpl in He'.
  destruct (loaders st !! l) as [L|] eqn:HL; [|done].
  cbn [_check_circular_deps fst snd deref]. rewrite HL. cbn [rbind].
  unfold lookup_element. rewrite He'. cbn [rbind].
  destruct (V !! le_full_name e) as [bv|] eqn:HV.
  { simpl. rewrite Hkey. split_and!; eauto. }
  destruct (CE !! le_full_name e) as [bc|] eqn:HC.
  { simpl. destruct (Hp (le_full_name e)) as (p & Hpe & Hpk & Hpx); [eauto|].
    assert (p = (l, n)) as ->.
    { apply (key_inj st); eauto. congruence. }
    exists (l, n), e. done. }
  set (CE1 := <[le_full_name e := true]> CE).
  set (body := λ cv dep, _).
  assert (Hdj1 : disjoint_dicts CE1 V).
  { intros k [b Hk]. unfold CE1 in Hk. apply lookup_insert_Some in Hk as [[<- _]|[_ Hk]]; [done|].
    apply Hdj; eauto. }
  assert (Hsz : size CE1 = S (size CE)) by (by apply map_size_insert_None).
  pose proof (check_loop_spec body (l, n) e CE1 He) as Hloop.
  specialize (Hloop) with (ds := le_deps e) (Vi := V).
  assert (Hb : ∀ d y Vi, d ∈ le_deps e → resolve st (l, n).1 d = Some y →
     vgood st Vi → disjoint_dicts CE1 Vi →
     check_post st y CE1 Vi (body (CE1, Vi) d)).
  { intros d y Vi Hd Hr HvVi HdjVi. simpl in Hr.
    destruct (resolve_loader _ _ _ Hr) as [Hg Hn].
    unfold body. rewrite Hg. cbn [rbind]. rewrite <- Hn.
    assert (Hxy : edge st (l, n) y) by (exists e, d; done).
    apply IH; try done.
    - by eapply edge_target.
    - intros k [b Hk]. unfold CE1 in Hk.
      apply lookup_insert_Some in Hk as [[<- _]|[_ Hk]].
      + exists (l, n). split_and!; eauto. by apply tc_once.
      + destruct (Hp k) as (p & ? & ? & ?); [eauto|].
        exists p. split_and!; try done. by eapply tc_r.
    - lia. }
  specialize (Hloop Hb (λ _ H, H) Hv Hdj1).
  destruct (rfold body (le_deps e) (CE1, V)) as [[CE' V']|ex]; cbn [rbind].
  - destruct Hloop as (-> & Hmono & Hall & Hv' & Hdj').
    assert (HnV : V' !! le_full_name e = None).
    { apply Hdj'. unfold CE1. rewrite lookup_insert_eq. eauto. }
    simpl. split_and!.
    + unfold CE1. by rewrite delete_insert_eq, delete_id.
    + intros k Hk. destruct (decide (le_full_name e = k)) as [<-|Hne].
      * rewrite lookup_insert_eq. eauto.
      * rewrite lookup_insert_ne by done. by apply Hmono.
    + rewrite Hkey, lookup_insert_eq. eauto.
    + intros z Hz Hkz.
      destruct (decide (key st z = le_full_name e)) as [Heq|Hne].
      * assert (z = (l, n)) as ->.
        { apply (key_inj st); eauto. congruence. }
        assert (Hsucc : ∀ y, edge st (l, n) y → is_Some (V' !! key st y)).
        { intros y (e0 & d & He0 & Hd & Hr). rewrite He in He0.
          injection He0 as <-. by eapply Hall. }
        split.
        -- intros y Hy. specialize (Hsucc y Hy).
           destruct (decide (le_full_name e = key st y)) as [->|Hne].
           ++ rewrite lookup_insert_eq. eauto.
           ++ by rewrite lookup_insert_ne.
        -- intros Hcyc. apply tc_first in Hcyc as (y & Hxy & Hyx).
           assert (Hbad : is_Some (V' !! key st (l, n))).
           { eapply vgood_rtc; [done| |by apply Hsucc|done]. by eapply edge_target. }
           rewrite Hkey, HnV in Hbad. by destruct Hbad.
      * rewrite lookup_insert_ne in Hkz by done.
        destruct (Hv' z Hz Hkz) as [Hs Hnc]. split; [|done].
        intros y Hy. specialize (Hs y Hy).
        destruct (decide (le_full_name e = key st y)) as [->|Hne'].
        -- rewrite lookup_insert_eq. eauto.
        -- by rewrite lookup_insert_ne.
    + intros k Hk. destruct (decide (le_full_name e = k)) as [<-|Hne].
      * rewrite HC in Hk. by destruct Hk.
      * rewrite lookup_insert_ne by done. apply Hdj'. unfold CE1.
        by rewrite lookup_insert_ne.
  - destruct ex as [[] m| | | | |]; try done.
    destruct Hloop as (w & e' & Hw & Hyw & Hww & ->). simpl.
    exists w, e'. split_and!; try done. by apply tc_rtc.
Qed.

End check_circular.

Lemma install_dummy_root st self st' :
  install_dummy self st = (Ok tt, st') → is_Some (elem_at st' (self, "")).
Proof.
  unfold install_dummy, deref. destruct (loaders st !! self) as [L|] eqn:HL; [|done].
  intros [= <-]. unfold elem_at, set_loader. simpl.
  rewrite list_lookup_insert_eq by (by eapply lookup_lt_Some).
  simpl. rewrite lookup_insert_eq. eauto.
Qed.

(** The second pass, from the store the first pass left: it returns and
    there is no cycle, or it raises and there is one. *)
Lemma check_from_dummy_cases st self st' fuel :
  install_dummy self st = (Ok tt, st') →
  closed st' = true →
  unique_full_names st' = true →
  (fuel > length (all_refs st'))%nat →
  (load_check_circular fuel self st = (Ok tt, st') ∧ ¬ has_cycle st' (self, "")) ∨
  (∃ x e, elem_at st' x = Some e ∧ rtc (edge st') (self, "") x ∧ tc (edge st') x x ∧
          load_check_circular fuel self st
          = (Raise (LoadError CIRCULAR_DEPENDENCY (circular_message (le_name e))), st')).
Proof.
  intros Hd Hc Hu Hfuel.
  pose proof (install_dummy_root _ _ _ Hd) as Hroot.
  assert (Hpost : check_post st' (self, "") ∅ ∅
                    (_check_circular_deps fuel st' self "" (∅, ∅))).
  { apply (check_spec st' Hc Hu fuel (self, "") ∅ ∅ Hroot).
    - intros k [b Hk]. by rewrite lookup_empty in Hk.
    - intros z _ [b Hk]. by rewrite lookup_empty in Hk.
    - intros k [b Hk]. by rewrite lookup_empty in Hk.
    - rewrite map_size_empty. lia. }
  unfold load_check_circular, mbind, mlift, mret. rewrite Hd.
  destruct (_check_circular_deps fuel st' self "" (∅, ∅)) as [[CE V]|ex].
  - destruct Hpost as (_ & _ & Hk & Hv & _). left. split; [done|].
    intros (x & Hrx & Hxx).
    assert (Hx : is_Some (elem_at st' x)).
    { apply rtc_tc in Hrx as [<-|Hrx]; [done|].
      apply tc_first in Hxx as (y & Hxy & _).
      destruct Hxy as (e & _ & He & _). eauto. }
    apply (Hv x Hx); [|done]. by eapply (vgood_rtc st' Hc V (self, "")).
  - simpl in Hpost. destruct ex as [[] m| | | | |]; try done.
    destruct Hpost as (y & e & He & Hry & Hyy & ->). right. eauto 10.
Qed.

(** A→B, A→C, B→C passes the check, and the store is as it was. *)
Example load_check_circular_acyclic :
  load_check_circular 5 0 store_acyclic = (Ok tt, (install_dummy 0 store_acyclic).2).
Proof. vm_compute. reflexivity. Qed.

(** A→B→C→A fails, and the message names the element met again. *)
Example load_check_circular_cyclic :
  (load_check_circular 5 0 store_cyclic).1 =
  Raise (LoadError CIRCULAR_DEPENDENCY "Circular dependency detected for element: a.bst").
Proof. vm_compute. reflexivity. Qed.


(** ** The constructor *)

Lemma check_targets_relative_absolute basedir filenames :
  (∃ f, f ∈ filenames ∧ isabs f = true) →
  ∃ msg, check_targets_relative basedir filenames = Raise (LoadError INVALID_DATA msg).
Proof.
  intros (f & Hf & Habs). induction filenames as [|g rest IH]; [by apply elem_of_nil in Hf|].
  simpl. destruct (isabs g) eqn:Hg; [eauto|].
  apply elem_of_cons in Hf as [->|Hf]; [congruence|]. by apply IH.
Qed.

(** C10. When one of the targets given to the constructor is an absolute
    path, the constructor raises [InvalidData]; no [Loader] is made and the
    store is as it was, so nothing is loaded for any of the targets. *)
Theorem init_absolute_target_invalid abspath context p filenames parent tempdir st :
  (∃ f, f ∈ filenames ∧ isabs f = true) →
  ∃ msg, __init__ abspath context p filenames parent tempdir st
         = (Raise (LoadError INVALID_DATA msg), st).
Proof.
  intros Habs. unfold __init__.
  destruct (check_targets_relative_absolute (init_basedir abspath p) filenames Habs)
    as [msg ->].
  by exists msg.
Qed.

Lemma init_absolute_target_invalid_witness :
  ∃ msg, __init__ (λ s, "/cwd/" +:+ s) example_context example_project
           ["a.bst"; "/etc/b.bst"; "c.bst"] None None empty_store
         = (Raise (LoadError INVALID_DATA msg), empty_store).
Proof.
  apply init_absolute_target_invalid.
  exists "/etc/b.bst". split; [|reflexivity].
  apply elem_of_cons. right. apply elem_of_cons. by left.
Defined.

(** ** The dependency sort *)

(** C2. X lists A, B, C and A depends on C: the sort leaves A, B, C, with A
    before C, although A depends on C.  The comparisons made are (B, A) and
    (C, B), both decided by name; A and C are never compared. *)
Theorem sort_dependencies_consumer_before_dependency :
  sorted_deps (_sort_dependencies 6 0 "x.bst" ∅ store_sort) (0, "x.bst")
  = Some [plain_dep "a.bst"; plain_dep "b.bst"; plain_dep "c.bst"]
  ∧ dependency_cmp 6 store_sort 0 (plain_dep "a.bst") (plain_dep "c.bst") = Ok 1%Z
  ∧ dependency_cmp 6 store_sort 0 (plain_dep "b.bst") (plain_dep "a.bst") = Ok 1%Z
  ∧ dependency_cmp 6 store_sort 0 (plain_dep "c.bst") (plain_dep "b.bst") = Ok 1%Z.
Proof. vm_compute. done. Qed.

Lemma string_ltb_irrefl s : String.ltb s s = false.
Proof.
  unfold String.ltb. pose proof (String.compare_antisym s s) as H.
  destruct (String.compare s s); done.
Qed.

(** The last rule, for equal names: a dependency through a junction comes
    before one without, whichever way they are given. *)
Lemma cmp_name_junction_mixed dep_a dep_b :
  dep_name dep_a = dep_name dep_b →
  truthy_str (dep_junction dep_a) = true →
  truthy_str (dep_junction dep_b) = false →
  cmp_name_junction dep_a dep_b = (-1)%Z ∧ cmp_name_junction dep_b dep_a = 1%Z.
Proof.
  intros Hn Ha Hb. unfold cmp_name_junction.
  rewrite Hn, !string_ltb_irrefl, Ha, Hb. done.
Qed.

(** The last rule, for equal names and two junctions: by junction name. *)
Lemma cmp_name_junction_both dep_a dep_b junction_a junction_b :
  dep_name dep_a = dep_name dep_b →
  dep_junction dep_a = Some junction_a → dep_junction dep_b = Some junction_b →
  junction_a ≠ "" → junction_b ≠ "" →
  cmp_name_junction dep_a dep_b
  = if String.ltb junction_b junction_a then 1%Z
    else if String.ltb junction_a junction_b then (-1)%Z else 0%Z.
Proof.
  intros Hn Ha Hb Hna Hnb. unfold cmp_name_junction.
  rewrite Hn, !string_ltb_irrefl, Ha, Hb. simpl.
  apply String.eqb_neq in Hna, Hnb. by rewrite Hna, Hnb.
Qed.

(** C3. With equal names and no dependency between the two, the comparison
    puts the dependency through a junction before the one of the same
    project, and the sort leaves them in that order. *)
Theorem dependency_cmp_junction_before_local :
  dependency_cmp 6 store_junction 0 (junction_dep "j.bst" "lib.bst") (plain_dep "lib.bst")
  = Ok (-1)%Z
  ∧ dependency_cmp 6 store_junction 0 (plain_dep "lib.bst") (junction_dep "j.bst" "lib.bst")
    = Ok 1%Z
  ∧ sorted_deps (_sort_dependencies 6 0 "x.bst" ∅ store_junction) (0, "x.bst")
    = Some [junction_dep "j.bst" "lib.bst"; plain_dep "lib.bst"].
Proof. vm_compute. done. Qed.

(** ** The project.refs store *)

Lemma lookup_read toplevel project element source_index :
  _lookup toplevel project element source_index false
  = (Ok (existing_node toplevel project element source_index), toplevel).
Proof.
  unfold _lookup, existing_node. destruct toplevel as [projects|]; [|done]. simpl.
  destruct (projects !! project) as [project_node|]; [|done]. simpl.
  unfold lookup_element_list.
  destruct (project_node !! element) as [element_list|]; [|done]. simpl.
  unfold lookup_source. by destruct (py_index element_list source_index).
Qed.

Lemma py_index_padded (l : list RefNode) source_index pos :
  py_index l source_index = None →
  py_index (l ++ replicate (Z.to_nat (source_index + 1 - Z.of_nat (length l))) empty_node)
    source_index = Some pos →
  (l ++ replicate (Z.to_nat (source_index + 1 - Z.of_nat (length l))) empty_node) !! pos
  = Some empty_node.
Proof.
  unfold py_index. rewrite length_app, length_replicate.
  destruct (0 <=? source_index)%Z eqn:Hsign.
  - apply Z.leb_le in Hsign.
    destruct (source_index <? Z.of_nat (length l))%Z eqn:Hlt; [done|].
    apply Z.ltb_ge in Hlt. intros _.
    destruct (source_index <? _)%Z eqn:Hlt'; [|done]. intros [= <-].
    rewrite lookup_app_r by lia. apply lookup_replicate_2. lia.
  - apply Z.leb_gt in Hsign.
    replace (Z.to_nat (source_index + 1 - Z.of_nat (length l))) with 0%nat by lia.
    rewrite Nat.add_0_r.
    destruct (- Z.of_nat (length l) <=? source_index)%Z; done.
Qed.

Lemma py_index_nil {A} source_index : py_index (@nil A) source_index = None.
Proof.
  unfold py_index. cbn [length]. change (Z.of_nat 0) with 0%Z.
  destruct (0 <=? source_index)%Z eqn:Hsign.
  - apply Z.leb_le in Hsign. destruct (source_index <? 0)%Z eqn:Hlt; [|done].
    apply Z.ltb_lt in Hlt. lia.
  - apply Z.leb_gt in Hsign. destruct (- 0 <=? source_index)%Z eqn:Hle; [|done].
    apply Z.leb_le in Hle. lia.
Qed.

Lemma lookup_source_ensure projects project project_node element element_list
    source_index found t' :
  projects !! project = Some project_node →
  project_node !! element = Some element_list →
  lookup_source projects project project_node element element_list source_index true
  = (Ok found, t') →
  ∃ pos, found = Some pos ∧
    existing_node t' project element source_index = Some pos ∧
    _lookup t' project element source_index true = (Ok (Some pos), t') ∧
    (py_index element_list source_index = None →
       node_at t' project element pos = Some empty_node).
Proof.
  intros Hp He. unfold lookup_source.
  destruct (py_index element_list source_index) as [pos|] eqn:Hi.
  - intros [= <- <-]. exists pos. split_and!; try done.
    + unfold existing_node. simpl. rewrite Hp. simpl. rewrite He. done.
    + unfold _lookup, lookup_element_list, lookup_source. by rewrite Hp, He, Hi.
  - set (padded := (element_list ++ _)%list).
    destruct (py_index padded source_index) as [pos|] eqn:Hi'; [|done].
    intros [= <- <-]. exists pos. split_and!; try done.
    + unfold existing_node. simpl. rewrite lookup_insert_eq. simpl.
      rewrite lookup_insert_eq. done.
    + unfold _lookup, lookup_element_list, lookup_source.
      by rewrite !lookup_insert_eq, Hi'.
    + intros _. unfold node_at. simpl. rewrite lookup_insert_eq. simpl.
      rewrite lookup_insert_eq. simpl. by apply py_index_padded.
Qed.

Lemma lookup_ensure toplevel project element source_index found t' :
  _lookup toplevel project element source_index true = (Ok found, t') →
  ∃ pos, found = Some pos ∧
    existing_node t' project element source_index = Some pos ∧
    _lookup t' project element source_index true = (Ok (Some pos), t') ∧
    (existing_node toplevel project element source_index = None →
       node_at t' project element pos = Some empty_node).
Proof.
  unfold _lookup at 1. destruct toplevel as [projects|]; [|done].
  unfold existing_node at 2. simpl.
  destruct (projects !! project) as [project_node|] eqn:Hp; simpl.
  - unfold lookup_element_list.
    destruct (project_node !! element) as [element_list|] eqn:He; simpl.
    + intros H. eapply lookup_source_ensure in H as (pos & ? & ? & ? & ?); eauto.
    + intros H. eapply lookup_source_ensure in H as (pos & ? & ? & ? & Hn).
      * exists pos. split_and!; try done. intros _. apply Hn, py_index_nil.
      * by rewrite lookup_insert_eq.
      * by rewrite lookup_insert_eq.
  - unfold lookup_element_list. rewrite lookup_empty.
    intros H. eapply lookup_source_ensure in H as (pos & ? & ? & ? & Hn).
    + exists pos. split_and!; try done. intros _. apply Hn, py_index_nil.
    + by rewrite lookup_insert_eq.
    + by rewrite lookup_insert_eq.
Qed.

(** C9. [lookup_ref] with [write=False] returns the node that exists for the
    triple, or [None] when a key on the way is missing, and leaves both trees
    as they were; [_lookup] creates nothing unless [ensure] is set.  With
    [write=True] a lookup that returns gives a node, and asking again gives
    that same node and changes nothing more: a triple never gets a second
    node. *)
Theorem lookup_ref_read_leaves_trees self project element source_index :
  lookup_ref self project element source_index false
  = (Ok (existing_ref self project element source_index), self)
  ∧ (∀ toplevel,
       (_lookup toplevel project element source_index false).2 = toplevel)
  ∧ (∀ r self',
       lookup_ref self project element source_index true = (Ok r, self') →
       ∃ n, r = Some n ∧
            lookup_ref self' project element source_index true = (Ok (Some n), self')).
Proof.
  destruct self as [t save]. split_and!.
  - unfold lookup_ref. rewrite lookup_read. done.
  - intros toplevel. by rewrite lookup_read.
  - intros r self'. unfold lookup_ref. rewrite lookup_read. simpl.
    destruct (existing_node t project element source_index) as [i|] eqn:Hex; simpl.
    + destruct (node_at t project element i ≫= rn_provenance) as [original|] eqn:Hprov.
      * intros [= <- <-]. exists original. split; [done|].
        rewrite lookup_read. simpl. rewrite Hex. simpl. by rewrite Hprov.
      * intros [= <- <-]. eexists. split; [done|].
        rewrite lookup_read. simpl. rewrite Hex. simpl. by rewrite Hprov.
    + destruct save as [save|].
      * destruct (_lookup save project element source_index true) as [res save'] eqn:Hl.
        destruct res as [found|e]; [|done]. simpl. intros [= <- <-].
        apply lookup_ensure in Hl as (pos & -> & _ & Hagain & _).
        eexists. split; [done|].
        rewrite lookup_read. simpl. rewrite Hex. simpl. by rewrite Hagain.
      * destruct (_lookup t project element source_index true) as [res t'] eqn:Hl.
        destruct res as [found|e]; [|done]. simpl. intros [= <- <-].
        apply lookup_ensure in Hl as (pos & -> & Hex' & _ & Hnew).
        eexists. split; [done|].
        rewrite lookup_read. simpl. rewrite Hex'. simpl.
        by rewrite (Hnew Hex).
Qed.

(** ** The collection pass *)

Lemma same_graph_lookup st st' l L' :
  same_graph st st' → loaders st' !! l = Some L' →
  ∃ L, loaders st !! l = Some L ∧ graph_of L = graph_of L'.
Proof.
  intros Hg HL. unfold same_graph in Hg.
  assert (H : (graph_of <$> loaders st') !! l = Some (graph_of L')).
  { by rewrite list_lookup_fmap, HL. }
  rewrite <- Hg, list_lookup_fmap in H.
  destruct (loaders st !! l) as [L|]; [|done].
  exists L. split; [done|]. simpl in H. congruence.
Qed.

Lemma same_graph_sym st st' : same_graph st st' → same_graph st' st.
Proof. unfold same_graph. intros H. by rewrite H. Qed.

Lemma same_graph_trans st1 st2 st3 :
  same_graph st1 st2 → same_graph st2 st3 → same_graph st1 st3.
Proof. unfold same_graph. congruence. Qed.

Lemma graph_of_fields L L' :
  graph_of L = graph_of L' →
  _elements L = _elements L' ∧ _loaders L = _loaders L' ∧ project L = project L'.
Proof.
  intros H. split_and!.
  - apply (f_equal _elements) in H. done.
  - apply (f_equal _loaders) in H. done.
  - apply (f_equal project) in H. done.
Qed.

Lemma same_graph_elem_at st st' x :
  same_graph st st' → elem_at st' x = elem_at st x.
Proof.
  intros Hg. unfold elem_at.
  destruct (loaders st' !! x.1) as [L'|] eqn:HL'.
  - destruct (same_graph_lookup _ _ _ _ Hg HL') as (L & -> & HLL).
    apply graph_of_fields in HLL as (-> & _). done.
  - destruct (loaders st !! x.1) as [L|] eqn:HL; [|done].
    destruct (same_graph_lookup _ _ _ _ (same_graph_sym _ _ Hg) HL) as (? & ? & _).
    congruence.
Qed.

Lemma same_graph_get_loader st st' l d :
  same_graph st st' → _get_loader_for_dep st' l d = _get_loader_for_dep st l d.
Proof.
  intros Hg. unfold _get_loader_for_dep.
  destruct (truthy_str (dep_junction d)); [|done].
  unfold deref.
  destruct (loaders st' !! l) as [L'|] eqn:HL'.
  - destruct (same_graph_lookup _ _ _ _ Hg HL') as (L & -> & HLL).
    apply graph_of_fields in HLL as (_ & HLL & _). simpl. by rewrite HLL.
  - destruct (loaders st !! l) as [L|] eqn:HL; [|done].
    destruct (same_graph_lookup _ _ _ _ (same_graph_sym _ _ Hg) HL) as (? & ? & _).
    congruence.
Qed.

Lemma meta_deps_mono st0 st st' x keep ds (l : list nat) :
  (∀ y b, memo st y = Some b → memo st' y = Some b) →
  Some <$> l = meta_deps st0 st x keep ds →
  Some <$> l = meta_deps st0 st' x keep ds.
Proof.
  intros Hmono. unfold meta_deps.
  generalize (filter (λ d, keep (dep_type d) = true) ds). clear ds.
  intros ds. revert l. induction ds as [|d ds IH]; intros l Hl; [done|].
  destruct l as [|b l]; [done|]. rewrite !fmap_cons in *.
  injection Hl as Hb Hl. f_equal; [|by apply IH].
  destruct (resolve st0 x.1 d) as [y|]; [|done]. simpl in *.
  symmetry. by apply Hmono.
Qed.

Lemma built_mono st0 st st' x ds a :
  (∀ y b, memo st y = Some b → memo st' y = Some b) →
  metas st' !! a = metas st !! a →
  built st0 st x ds a → built st0 st' x ds a.
Proof.
  intros Hmono Hframe (me & Hme & Hname & Hb & Hr).
  exists me. rewrite Hframe. split_and!; try done; by eapply meta_deps_mono.
Qed.

Lemma meta_deps_snoc st0 st x keep pre d :
  meta_deps st0 st x keep (pre ++ [d])
  = meta_deps st0 st x keep pre
    ++ (if keep (dep_type d) then [resolve st0 x.1 d ≫= memo st] else []).
Proof.
  unfold meta_deps. rewrite filter_app, fmap_app. f_equal.
  rewrite filter_cons, filter_nil.
  destruct (decide (keep (dep_type d) = true)) as [->|Hk]; [done|].
  by destruct (keep (dep_type d)).
Qed.

Lemma filter_length_lt {A} (P Q : A → Prop) `{∀ x, Decision (P x)} `{∀ x, Decision (Q x)}
    (l : list A) x :
  (∀ y, Q y → P y) → x ∈ l → P x → ¬ Q x →
  length (filter Q l) < length (filter P l).
Proof.
  intros HQP Hx HP HQ. induction l as [|y l IH]; [by apply elem_of_nil in Hx|].
  assert (Hle : ∀ l', length (filter Q l') ≤ length (filter P l')).
  { induction l' as [|z l' IH']; [done|]. rewrite !filter_cons.
    destruct (decide (Q z)) as [Hz|Hz].
    - rewrite decide_True by auto. simpl. lia.
    - destruct (decide (P z)); simpl; lia. }
  rewrite !filter_cons. apply elem_of_cons in Hx as [<-|Hx].
  - rewrite decide_False by done. rewrite decide_True by done. simpl.
    specialize (Hle l). lia.
  - specialize (IH Hx). destruct (decide (Q y)) as [Hy|Hy].
    + rewrite decide_True by auto. simpl. lia.
    + destruct (decide (P y)); simpl; lia.
Qed.

Lemma filter_length_le {A} (P Q : A → Prop) `{∀ x, Decision (P x)} `{∀ x, Decision (Q x)}
    (l : list A) :
  (∀ y, Q y → P y) → length (filter Q l) ≤ length (filter P l).
Proof.
  intros HQP. induction l as [|z l IH]; [done|]. rewrite !filter_cons.
  destruct (decide (Q z)) as [Hz|Hz].
  - rewrite decide_True by auto. simpl. lia.
  - destruct (decide (P z)); simpl; lia.
Qed.

Lemma uncollected_mono st0 st st' :
  (∀ y b, memo st y = Some b → memo st' y = Some b) →
  length (uncollected st0 st') ≤ length (uncollected st0 st).
Proof.
  intros Hmono. apply filter_length_le. intros y Hy.
  destruct (memo st y) as [b|] eqn:Hb; [|done].
  apply Hmono in Hb. congruence.
Qed.

(** The store after [new_meta] and [cache_meta]. *)
Lemma memo_set_loader st l L L' y :
  loaders st !! l = Some L →
  memo (set_loader st l L') y
  = if decide (y.1 = l) then _meta_elements L' !! y.2 else memo st y.
Proof.
  intros HL. unfold memo, set_loader. simpl.
  destruct (decide (y.1 = l)) as [->|Hne].
  - rewrite list_lookup_insert_eq by (by eapply lookup_lt_Some). done.
  - by rewrite list_lookup_insert_ne.
Qed.

Lemma same_graph_set_meta st l L ms :
  loaders st !! l = Some L →
  same_graph st (set_loader st l (set_meta_elements L ms)).
Proof.
  intros HL. unfold same_graph, set_loader. simpl.
  rewrite list_fmap_insert. symmetry. apply list_insert_id.
  by rewrite list_lookup_fmap, HL.
Qed.

Section collect.
Variable st0 : Store.
Variable root : eref.
Variable base : nat.
Hypothesis Hclosed : closed st0 = true.
Hypothesis Hnodes :
  ∀ x e, rtc (edge st0) root x → elem_at st0 x = Some e → collectable e.

Lemma append_dependency_spec P x pre d a0 b st y :
  collect_inv st0 root base P st → P x → memo st x = Some a0 →
  built st0 st x pre a0 →
  resolve st0 x.1 d = Some y → memo st y = Some b →
  ∃ st', append_dependency a0 d b st = (Ok tt, st') ∧
    collect_inv st0 root base P st' ∧ built st0 st' x (pre ++ [d]) a0 ∧
    (∀ z, memo st' z = memo st z) ∧
    (∀ c, c ≠ a0 → metas st' !! c = metas st !! c) ∧
    length (metas st') = length (metas st).
Proof.
  intros Hinv HP Hx (me & Hme & Hname & Hb & Hr) Hres Hy.
  unfold append_dependency. rewrite Hme. eexists. split; [done|].
  set (st' := set_metas st _).
  assert (Hmemo : ∀ z, memo st' z = memo st z) by done.
  assert (Hlen : length (metas st') = length (metas st)).
  { unfold st'. simpl. by rewrite length_insert. }
  assert (Hother : ∀ c, c ≠ a0 → metas st' !! c = metas st !! c).
  { intros c Hc. unfold st'. simpl. by rewrite list_lookup_insert_ne. }
  destruct Hinv as [Hg Hd Hbase Hv Hreach Hi Hs Hp Hdone].
  split_and!; try done.
  - split; try done.
    + by rewrite Hlen.
    + intros z a Hz. rewrite Hlen. by apply Hv.
    + intros a Ha. rewrite Hlen in Ha. by apply Hs.
    + intros z a e Hz HnP He.
      assert (a ≠ a0).
      { intros ->. apply HnP. by rewrite (Hi z x a0 Hz Hx). }
      eapply built_mono; [| |by eapply Hdone]; [done|]. by apply Hother.
  - exists (add_dependency d b me). split_and!.
    + unfold st'. simpl. apply list_lookup_insert_eq. by eapply lookup_lt_Some.
    + done.
    + rewrite meta_deps_snoc. unfold add_dependency, keep_build. simpl.
      rewrite Hres. simpl. rewrite Hmemo, Hy.
      destruct (decide (dep_type d ≠ RUNTIME)) as [Ht|Ht].
      * rewrite bool_decide_eq_true_2 by done. rewrite fmap_app. f_equal.
        eapply meta_deps_mono; [|done]. done.
      * rewrite bool_decide_eq_false_2 by done. rewrite app_nil_r.
        eapply meta_deps_mono; [|done]. done.
    + rewrite meta_deps_snoc. unfold add_dependency, keep_runtime. simpl.
      rewrite Hres. simpl. rewrite Hmemo, Hy.
      destruct (decide (dep_type d ≠ BUILD)) as [Ht|Ht].
      * rewrite bool_decide_eq_true_2 by done. rewrite fmap_app. f_equal.
        eapply meta_deps_mono; [|done]. done.
      * rewrite bool_decide_eq_false_2 by done. rewrite app_nil_r.
        eapply meta_deps_mono; [|done]. done.
Qed.

Lemma collect_loop fuel' P x e kind a0 :
  (∀ y P st, collect_inv st0 root base P st → rtc (edge st0) root y →
     is_Some (elem_at st0 y) → fuel' > length (uncollected st0 st) →
     collect_post st0 root base P y st (_collect_element fuel' y.1 y.2 st)) →
  elem_at st0 x = Some e → rtc (edge st0) root x →
  (le_deps e ≠ [] → String.eqb kind "junction" = false) →
  ∀ ds pre st, le_deps e = pre ++ ds →
    collect_inv st0 root base P st → P x → memo st x = Some a0 →
    built st0 st x pre a0 → fuel' > length (uncollected st0 st) →
    ∃ st', mfor ds (collect_dependency (_collect_element fuel') kind x.1 a0) st
           = (Ok tt, st') ∧
      collect_inv st0 root base P st' ∧ built st0 st' x (le_deps e) a0 ∧
      (∀ y b, memo st y = Some b → memo st' y = Some b) ∧
      (∀ b, b < length (metas st) → b ≠ a0 → metas st' !! b = metas st !! b) ∧
      length (metas st) ≤ length (metas st').
Proof.
  intros IH He Hroot Hkind ds. induction ds as [|d ds IHds];
    intros pre st Hdeps Hinv HP Hx Hbuilt Hfuel.
  - exists st. rewrite app_nil_r in Hdeps. rewrite Hdeps. split_and!; done.
  - assert (Hd : d ∈ le_deps e).
    { rewrite Hdeps. apply elem_of_app. right. left. }
    destruct (closed_dep _ _ _ _ Hclosed He Hd) as (y & Hres & Hy).
    destruct (resolve_loader _ _ _ _ Hres) as [Hg Hn].
    assert (Hxy : edge st0 x y) by (exists e, d; done).
    cbn [mfor]. unfold mbind at 1. unfold collect_dependency at 1.
    rewrite Hkind by (intros Hnil; rewrite Hnil in Hd; by apply elem_of_nil in Hd).
    unfold mbind at 1, mlift at 1.
    rewrite (same_graph_get_loader st0 st) by apply Hinv. rewrite Hg.
    unfold mbind at 1. rewrite <- Hn.
    destruct (IH y P st Hinv) as (b & st1 & -> & Hyb & Hinv1 & Hmono1 & Hframe1 & Hlen1);
      [by eapply rtc_r|done|done|].
    assert (Ha0 : a0 < length (metas st)) by (by apply (ci_valid _ _ _ _ _ Hinv x)).
    assert (Hbuilt1 : built st0 st1 x pre a0).
    { eapply built_mono; [done| |done]. by apply Hframe1. }
    destruct (append_dependency_spec P x pre d a0 b st1 y Hinv1 HP (Hmono1 _ _ Hx)
                Hbuilt1 Hres Hyb)
      as (st2 & -> & Hinv2 & Hbuilt2 & Hmemo2 & Hother2 & Hlen2).
    destruct (IHds (pre ++ [d]) st2) as (st3 & -> & Hinv3 & Hbuilt3 & Hmono3 & Hframe3 & Hlen3).
    + by rewrite <- app_assoc.
    + done.
    + done.
    + rewrite Hmemo2. by apply Hmono1.
    + done.
    + assert (length (uncollected st0 st2) ≤ length (uncollected st0 st)); [|lia].
      apply uncollected_mono. intros z c Hz. rewrite Hmemo2. by apply Hmono1.
    + exists st3. split_and!; try done.
      * intros z c Hz. apply Hmono3. rewrite Hmemo2. by apply Hmono1.
      * intros c Hc Hne. rewrite Hframe3 by (try done; lia).
        rewrite Hother2 by done. by apply Hframe1.
      * lia.
Qed.

Lemma collect_spec fuel : ∀ x P st,
  collect_inv st0 root base P st → rtc (edge st0) root x →
  is_Some (elem_at st0 x) → fuel > length (uncollected st0 st) →
  collect_post st0 root base P x st (_collect_element fuel x.1 x.2 st).
Proof.
  induction fuel as [|fuel IH]; intros [l n] P st Hinv Hroot [e He] Hfuel; [lia|].
  pose proof He as He'. rewrite <- (same_graph_elem_at st0 st) in He' by apply Hinv.
  unfold elem_at in He'. simpl in He'.
  destruct (loaders st !! l) as [L|] eqn:HL; [|done].
  cbn [_collect_element fst snd]. unfold mbind at 1, mlift at 1, deref. rewrite HL.
  unfold mbind at 1, mlift at 1, lookup_element. rewrite He'.
  assert (Hmemo : memo st (l, n) = _meta_elements L !! n).
  { unfold memo. simpl. by rewrite HL. }
  destruct (_meta_elements L !! n) as [a|] eqn:Ha.
  { exists a, st. split_and!; done. }
  destruct (Hnodes _ _ Hroot He) as (node & Hnode & Hjunction). rewrite Hnode.
  unfold mbind at 1, new_meta.
  set (m0 := mkMetaElement _ _ _ _ _ _).
  set (a0 := length (metas st)).
  unfold mbind at 1, cache_meta, deref. cbn [loaders set_metas]. rewrite HL.
  set (st2 := set_loader _ _ _).
  assert (HL2 : loaders (set_metas st (metas st ++ [m0])) !! l = Some L) by done.
  assert (Hmemo2 : ∀ y, memo st2 y = if decide (y = (l, n)) then Some a0 else memo st y).
  { intros [l' n']. unfold st2. rewrite (memo_set_loader _ _ L) by done. simpl.
    destruct (decide (l' = l)) as [->|Hne].
    - destruct (decide (n' = n)) as [->|Hne'].
      + rewrite decide_True by done. apply lookup_insert_eq.
      + rewrite decide_False by congruence. rewrite lookup_insert_ne by done.
        unfold memo. simpl. by rewrite HL.
    - rewrite decide_False by congruence. done. }
  assert (Hmetas2 : metas st2 = metas st ++ [m0]) by done.
  assert (Hmono2 : ∀ y b, memo st y = Some b → memo st2 y = Some b).
  { intros y b Hy. rewrite Hmemo2. destruct (decide (y = (l, n))) as [->|]; [|done].
    congruence. }
  destruct Hinv as [Hg Hd Hbase Hv Hreach Hi Hs Hp Hdone].
  set (P' := λ y, P y ∨ y = (l, n)).
  assert (Hinv2 : collect_inv st0 root base P' st2).
  { split.
    - eapply same_graph_trans; [done|]. unfold st2.
      by apply (same_graph_set_meta (set_metas st (metas st ++ [m0]))).
    - done.
    - rewrite Hmetas2, length_app. lia.
    - intros y b. rewrite Hmemo2, Hmetas2, length_app. simpl.
      destruct (decide (y = (l, n))) as [->|Hne].
      + intros [= <-]. split_and!; [unfold a0; lia|eauto].
      + intros Hy. destruct (Hv y b Hy) as (? & ?). split_and!; [lia|done].
    - intros y b. rewrite Hmemo2.
      destruct (decide (y = (l, n))) as [->|Hne]; [done|]. apply Hreach.
    - intros y z b. rewrite !Hmemo2.
      destruct (decide (y = (l, n))) as [->|Hy]; destruct (decide (z = (l, n))) as [->|Hz];
        try done.
      + intros [= <-] Hzb. apply Hv in Hzb as [Hlt _]. unfold a0 in Hlt. lia.
      + intros Hyb [= <-]. apply Hv in Hyb as [Hlt _]. unfold a0 in Hlt. lia.
      + apply Hi.
    - intros b. rewrite Hmetas2, length_app. simpl. intros Hb.
      destruct (decide (b = a0)) as [->|Hne].
      + exists (l, n). rewrite Hmemo2. by rewrite decide_True.
      + destruct (Hs b) as [y Hy]; [unfold a0 in Hne; lia|]. exists y. by apply Hmono2.
    - intros y [HPy| ->].
      + destruct (Hp y HPy) as [b Hb]. exists b. by apply Hmono2.
      + rewrite Hmemo2. rewrite decide_True by done. eauto.
    - intros y b e' Hy HnP He'0.
      assert (Hne : y ≠ (l, n)) by (intros ->; apply HnP; by right).
      rewrite Hmemo2, decide_False in Hy by done.
      eapply built_mono; [exact Hmono2| |eapply Hdone; eauto];
        [|intros HPy; apply HnP; by left].
      rewrite Hmetas2. apply lookup_app_l. by apply (Hv y b Hy). }
  assert (Hbuilt2 : built st0 st2 (l, n) [] a0).
  { exists m0. split_and!; try done. rewrite Hmetas2.
    rewrite lookup_app_r by (unfold a0; lia). unfold a0. by rewrite Nat.sub_diag. }
  assert (Hfuel2 : fuel > length (uncollected st0 st2)).
  { assert (length (uncollected st0 st2) < length (uncollected st0 st)); [|lia].
    unfold uncollected. apply (filter_length_lt _ _ _ (l, n)).
    - intros y Hy. destruct (memo st y) as [b|] eqn:Hb; [|done].
      apply Hmono2 in Hb. congruence.
    - apply elem_of_all_refs. eauto.
    - congruence.
    - rewrite Hmemo2. by rewrite decide_True. }
  assert (Hkind : le_deps e ≠ [] → String.eqb (node_kind node) "junction" = false).
  { intros Hne. destruct (String.eqb (node_kind node) "junction") eqn:E; [|done].
    apply String.eqb_eq in E. by apply Hjunction in E. }
  destruct (collect_loop fuel P' (l, n) e (node_kind node) a0 IH He Hroot Hkind
              (le_deps e) [] st2 eq_refl Hinv2)
    as (st3 & Hloop & Hinv3 & Hbuilt3 & Hmono3 & Hframe3 & Hlen3).
  { by right. }
  { rewrite Hmemo2. by rewrite decide_True. }
  { done. }
  { done. }
  simpl in Hloop. unfold mbind at 1. rewrite Hloop. unfold mret.
  assert (HnP : ¬ P (l, n)).
  { intros HP. apply Hp in HP as [b Hb]. congruence. }
  exists a0, st3. split_and!; try done.
  - apply Hmono3. rewrite Hmemo2. by rewrite decide_True.
  - destruct Hinv3 as [Hg3 Hd3 Hbase3 Hv3 Hreach3 Hi3 Hs3 Hp3 Hdone3]. split; try done.
    + intros y HPy. apply Hp3. by left.
    + intros y b e' Hy HnPy He'0.
      destruct (decide (y = (l, n))) as [->|Hne].
      * assert (b = a0) as ->.
        { assert (memo st3 (l, n) = Some a0); [|congruence].
          apply Hmono3. rewrite Hmemo2. by rewrite decide_True. }
        assert (e' = e) as -> by congruence. done.
      * eapply Hdone3; eauto. intros [?|?]; done.
  - intros y b Hy. by apply Hmono3, Hmono2.
  - intros b Hb. rewrite Hframe3.
    + rewrite Hmetas2. by apply lookup_app_l.
    + rewrite Hmetas2, length_app. lia.
    + unfold a0. lia.
  - rewrite Hmetas2, length_app in Hlen3. simpl in Hlen3. lia.
Qed.

End collect.

Lemma all_collectable_spec st x e :
  all_collectable st = true → elem_at st x = Some e → collectable e.
Proof.
  unfold all_collectable. rewrite forallb_forall. intros H He.
  specialize (H x). rewrite He in H.
  assert (Hx : In x (all_refs st)) by (apply list_elem_of_In, elem_of_all_refs; eauto).
  specialize (H Hx). destruct (le_node e) as [node|] eqn:Hn; [|done].
  exists node. split; [done|]. intros Hk. rewrite Hk in H. simpl in H.
  by apply bool_decide_eq_true in H.
Qed.

Lemma fresh_memo st x : fresh st = true → memo st x = None.
Proof.
  unfold fresh. rewrite andb_true_iff, forallb_forall. intros [_ H].
  unfold memo. destruct (loaders st !! x.1) as [L|] eqn:HL; [|done].
  specialize (H L). rewrite <- list_elem_of_In in H.
  assert (HLin : L ∈ loaders st) by (by eapply list_elem_of_lookup_2).
  apply H, bool_decide_eq_true in HLin. rewrite HLin. apply lookup_empty.
Qed.

Lemma fresh_collected st : fresh st = true → collected st.
Proof.
  intros Hf root. split; try done.
  - intros x a Hx. by rewrite fresh_memo in Hx.
  - intros x a Hx. by rewrite fresh_memo in Hx.
  - intros x y a Hx. by rewrite fresh_memo in Hx.
  - intros a Ha. unfold fresh in Hf. apply andb_true_iff in Hf as [Hm _].
    apply bool_decide_eq_true in Hm. rewrite Hm in Ha. simpl in Ha. lia.
  - intros x a e Hx. by rewrite fresh_memo in Hx.
Qed.

Lemma meta_deps_elem st0 st x keep ds (l : list nat) d :
  Some <$> l = meta_deps st0 st x keep ds → d ∈ ds → keep (dep_type d) = true →
  ∃ b, resolve st0 x.1 d ≫= memo st = Some b ∧ b ∈ l.
Proof.
  intros Hl Hd Hk.
  assert (Hin : (resolve st0 x.1 d ≫= memo st) ∈ meta_deps st0 st x keep ds).
  { unfold meta_deps. apply list_elem_of_fmap. exists d. split; [done|].
    by apply list_elem_of_filter. }
  rewrite <- Hl in Hin. apply list_elem_of_fmap in Hin as (b & Hb & Hbl). eauto.
Qed.

Lemma keep_one t : keep_build t = true ∨ keep_runtime t = true.
Proof. destruct t; vm_compute; auto. Qed.

Lemma same_graph_resolve st st' l d :
  same_graph st st' → resolve st' l d = resolve st l d.
Proof. intros Hg. unfold resolve. by rewrite (same_graph_get_loader st st'). Qed.

Lemma built_same_graph st0 st' st x ds a :
  same_graph st0 st' → built st0 st x ds a → built st' st x ds a.
Proof.
  intros Hg (me & Hme & Hname & Hb & Hr). exists me.
  assert (Heq : ∀ keep, meta_deps st' st x keep ds = meta_deps st0 st x keep ds).
  { intros keep. unfold meta_deps. apply list_fmap_ext. intros i d _.
    by rewrite (same_graph_resolve st0 st'). }
  rewrite !Heq. done.
Qed.

Lemma collect_inv_collected st0 root base st' :
  collect_inv st0 root base (λ _, False) st' → collected st'.
Proof.
  intros [Hg Hd Hbase Hv Hreach Hi Hs Hp Hdone] root'. split; try done.
  - intros x a Hx. destruct (Hv x a Hx) as [? ?]. split; [done|].
    by rewrite (same_graph_elem_at st0 st').
  - intros x a Hx Hle. apply Hv in Hx as [Hlt _]. lia.
  - intros x a e Hx HnP He. rewrite (same_graph_elem_at st0 st') in He by done.
    eapply built_same_graph; [done|]. by eapply Hdone.
Qed.

(** C4. The collection pass called on an element, in a store where every
    dependency is loaded and what was collected before is complete, returns.
    Each element that can be reached then has one [MetaElement]; each
    [MetaElement] belongs to one element, and the ones this call made belong
    to elements that can be reached; the ones made before are as they were.
    The store is again one in which what was collected is complete.  The
    lists of an element that depends on [y] hold that one [MetaElement] of
    [y], whatever the path: with A→{B,C}, B→D, C→D, the lists of B and of
    C hold the same [MetaElement] of D. *)
Theorem collect_element_one_instance st0 self name fuel :
  closed st0 = true →
  collected st0 →
  is_Some (elem_at st0 (self, name)) →
  (∀ x e, rtc (edge st0) (self, name) x → elem_at st0 x = Some e → collectable e) →
  fuel > length (all_refs st0) →
  ∃ a st',
    _collect_element fuel self name st0 = (Ok a, st') ∧
    memo st' (self, name) = Some a ∧
    (∀ x, rtc (edge st0) (self, name) x →
          ∃ b, memo st' x = Some b ∧ b < length (metas st')) ∧
    (∀ b, b < length (metas st') →
          ∃ x, memo st' x = Some b ∧ (∀ y, memo st' y = Some b → y = x) ∧
               (length (metas st0) ≤ b → rtc (edge st0) (self, name) x)) ∧
    (∀ b, b < length (metas st0) → metas st' !! b = metas st0 !! b) ∧
    collected st' ∧
    (∀ x y e d, rtc (edge st0) (self, name) x → elem_at st0 x = Some e →
       d ∈ le_deps e → resolve st0 x.1 d = Some y →
       ∃ bx by_ me, memo st' x = Some bx ∧ memo st' y = Some by_ ∧
         metas st' !! bx = Some me ∧ built st0 st' x (le_deps e) bx ∧
         (dep_type d ≠ RUNTIME → by_ ∈ me_build_dependencies me) ∧
         (dep_type d ≠ BUILD → by_ ∈ me_dependencies me)).
Proof.
  intros Hc Hcol Hroot Hnodes Hfuel.
  destruct (collect_spec st0 (self, name) (length (metas st0)) Hc Hnodes fuel
              (self, name) (λ _, False) st0)
    as (a & st' & Hrun & Ha & Hinv & Hmono & Hframe & Hlen).
  { apply Hcol. }
  { done. }
  { done. }
  { assert (length (uncollected st0 st0) ≤ length (all_refs st0)); [|lia].
    unfold uncollected. apply length_filter. }
  pose proof (collect_inv_collected _ _ _ _ Hinv) as Hcol'.
  destruct Hinv as [Hg Hd Hbase Hv Hreach Hi Hs Hp Hdone].
  assert (Hall : ∀ x, rtc (edge st0) (self, name) x → is_Some (memo st' x)).
  { apply (rtc_ind_r (λ x, is_Some (memo st' x))); [eauto|].
    intros y z Hy Hrest IH.
    destruct IH as [b Hb]. destruct Hrest as (e & d & He & Hdin & Hres).
    destruct (Hdone y b e Hb (λ H, H) He) as (me & _ & _ & Hbuild & Hrun').
    destruct (keep_one (dep_type d)) as [Hk|Hk].
    - destruct (meta_deps_elem _ _ _ _ _ _ _ Hbuild Hdin Hk) as (c & Hc' & _).
      rewrite Hres in Hc'. simpl in Hc'. eauto.
    - destruct (meta_deps_elem _ _ _ _ _ _ _ Hrun' Hdin Hk) as (c & Hc' & _).
      rewrite Hres in Hc'. simpl in Hc'. eauto. }
  exists a, st'. split_and!; try done.
  - intros x Hx. destruct (Hall x Hx) as [b Hb]. exists b. split; [done|].
    by apply (Hv x b Hb).
  - intros b Hb. destruct (Hs b Hb) as [x Hx]. exists x. split_and!; try done.
    + intros y Hy. by eapply Hi.
    + intros Hnew. by eapply Hreach.
  - intros x y e d Hx He Hdin Hres.
    destruct (Hall x Hx) as [bx Hbx].
    assert (Hy : rtc (edge st0) (self, name) y).
    { eapply rtc_r; [done|]. by exists e, d. }
    destruct (Hall y Hy) as [by_ Hby].
    pose proof (Hdone x bx e Hbx (λ H, H) He) as Hbuilt.
    destruct Hbuilt as (me & Hme & Hname & Hbuild & Hrun').
    exists bx, by_, me. split_and!; try done.
    + by exists me.
    + intros Ht.
      destruct (meta_deps_elem _ _ _ _ _ _ _ Hbuild Hdin) as (c & Hc' & Hin).
      { by apply bool_decide_eq_true. }
      rewrite Hres in Hc'. simpl in Hc'. congruence.
    + intros Ht.
      destruct (meta_deps_elem _ _ _ _ _ _ _ Hrun' Hdin) as (c & Hc' & Hin).
      { by apply bool_decide_eq_true. }
      rewrite Hres in Hc'. simpl in Hc'. congruence.
Qed.

Lemma collect_element_one_instance_witness :
  ∃ a st', _collect_element 5 0 "a.bst" store_diamond = (Ok a, st') ∧
           memo st' (0, "a.bst") = Some a ∧
           ∀ x, rtc (edge store_diamond) (0, "a.bst") x →
                ∃ b, memo st' x = Some b ∧ b < length (metas st').
Proof.
  destruct (collect_element_one_instance store_diamond 0 "a.bst" 5)
    as (a & st' & Hrun & Ha & Hall & _).
  - vm_compute. reflexivity.
  - apply fresh_collected. vm_compute. reflexivity.
  - vm_compute. eauto.
  - intros x e _. apply all_collectable_spec. vm_compute. reflexivity.
  - vm_compute. lia.
  - exists a, st'. split_and!; assumption.
Defined.

(** The diamond, run: D is made once, at address 2, and the lists of B (at
    1) and of C (at 3) both hold 2. *)
Example collect_diamond :
  let r := _collect_element 5 0 "a.bst" store_diamond in
  r.1 = Ok 0 ∧
  (me_name <$> metas r.2) = ["a.bst"; "b.bst"; "d.bst"; "c.bst"] ∧
  (me_dependencies <$> metas r.2) = [[1; 3]; [2]; []; [2]] ∧
  (me_build_dependencies <$> metas r.2) = [[1; 3]; [2]; []; [2]].
Proof. vm_compute. done. Qed.

(** ** Junctions in the collection pass *)


(** ** Loaders stay, with their attributes *)

Lemma ext_refl st : ext st st.
Proof. intros a L HL. eauto. Qed.

Lemma ext_trans st1 st2 st3 : ext st1 st2 → ext st2 st3 → ext st1 st3.
Proof.
  intros H12 H23 a L HL. destruct (H12 a L HL) as (L2 & HL2 & Hf2).
  destruct (H23 a L2 HL2) as (L3 & HL3 & Hf3). exists L3. split; [done|congruence].
Qed.

Lemma ext_set_loader st a L L' :
  loaders st !! a = Some L → frame_of L' = frame_of L → ext st (set_loader st a L').
Proof.
  intros HL Hf b Lb Hb. unfold set_loader. simpl.
  destruct (decide (b = a)) as [->|Hne].
  - exists L'. rewrite list_lookup_insert_eq by (by eapply lookup_lt_Some).
    split; [done|congruence].
  - exists Lb. by rewrite list_lookup_insert_ne.
Qed.

Lemma ext_same_loaders st st' : loaders st' = loaders st → ext st st'.
Proof. intros H a L HL. exists L. by rewrite H. Qed.

Lemma stable_ret {A} (a : A) : stable (mret a).
Proof. intros st. apply ext_refl. Qed.

Lemma stable_raise {A} e : stable (@mraise A e).
Proof. intros st. apply ext_refl. Qed.

Lemma stable_lift {A} (r : Store → result A) : stable (mlift r).
Proof. intros st. apply ext_refl. Qed.

Lemma stable_bind {A B} (m : M A) (k : A → M B) :
  stable m → (∀ a, stable (k a)) → stable (mbind m k).
Proof.
  intros Hm Hk st. unfold mbind. specialize (Hm st).
  destruct (m st) as [[a|e] st']; [|done].
  eapply ext_trans; [done|]. apply Hk.
Qed.

Lemma stable_for {A} (xs : list A) (body : A → M unit) :
  (∀ x, stable (body x)) → stable (mfor xs body).
Proof.
  intros Hb. induction xs as [|x xs IH]; simpl; [apply stable_ret|].
  apply stable_bind; [apply Hb|done].
Qed.

Lemma stable_new_meta m : stable (new_meta m).
Proof. intros st. by apply ext_same_loaders. Qed.

Lemma stable_append_dependency a d b : stable (append_dependency a d b).
Proof.
  intros st. unfold append_dependency.
  destruct (metas st !! a); [by apply ext_same_loaders|apply ext_refl].
Qed.

Lemma stable_update_loader (f : Loader → Loader) self :
  (∀ L, frame_of (f L) = frame_of L) →
  stable (λ st, match deref st (Some self) with
                | Ok L => (Ok tt, set_loader st self (f L))
                | Raise e => (Raise e, st)
                end).
Proof.
  intros Hf st. unfold deref.
  destruct (loaders st !! self) as [L|] eqn:HL; [|apply ext_refl].
  by eapply ext_set_loader.
Qed.

Lemma stable_cache_meta self name a : stable (cache_meta self name a).
Proof. by apply (stable_update_loader (λ L, set_meta_elements L _)). Qed.

Lemma stable_store_element self name e : stable (store_element self name e).
Proof. by apply (stable_update_loader (λ L, set_elements L _)). Qed.

Lemma stable_store_loader self name l : stable (store_loader self name l).
Proof. by apply (stable_update_loader (λ L, set_loaders L _)). Qed.

Lemma stable_mkdtemp W prefix dir : stable (mkdtemp W prefix dir).
Proof. intros st. by apply ext_same_loaders. Qed.

Lemma stable_makedirs path : stable (makedirs path).
Proof.
  intros st. unfold makedirs. simpl.
  destruct (bool_decide (path ∈ dirs st)); by apply ext_same_loaders.
Qed.

Lemma stable_init abspath context p filenames parent tempdir :
  stable (__init__ abspath context p filenames parent tempdir).
Proof.
  intros st. unfold __init__.
  destruct (check_targets_relative _ _) as [u|e]; [|apply ext_refl].
  intros b L HL. exists L. split; [|done]. simpl. by apply lookup_app_l_Some.
Qed.

Ltac stable_step :=
  match goal with
  | |- stable (mret _) => apply stable_ret
  | |- stable (mraise _) => apply stable_raise
  | |- stable (mlift _) => apply stable_lift
  | |- stable (new_meta _) => apply stable_new_meta
  | |- stable (cache_meta _ _ _) => apply stable_cache_meta
  | |- stable (append_dependency _ _ _) => apply stable_append_dependency
  | |- stable (store_element _ _ _) => apply stable_store_element
  | |- stable (store_loader _ _ _) => apply stable_store_loader
  | |- stable (mkdtemp _ _ _) => apply stable_mkdtemp
  | |- stable (makedirs _) => apply stable_makedirs
  | |- stable (__init__ _ _ _ _ _ _) => apply stable_init
  | |- stable (mbind _ _) => apply stable_bind; [|intros ?]
  | |- stable (mfor _ _) => apply stable_for; intros ?
  | |- stable (match ?x with _ => _ end) => destruct x
  end.

Lemma stable_collect_element fuel : ∀ self name, stable (_collect_element fuel self name).
Proof.
  induction fuel as [|fuel IH]; intros self name; simpl; [apply stable_raise|].
  repeat stable_step; try done.
  unfold collect_dependency. repeat stable_step; done.
Qed.

Lemma stable_open_junction W fuel self filename :
  stable (open_junction W fuel self filename).
Proof.
  unfold open_junction. repeat stable_step; try done; apply stable_collect_element.
Qed.

Lemma stable_load_file_get_loader W fuel :
  (∀ self filename, stable (_load_file W fuel self filename)) ∧
  (∀ self filename level, stable (_get_loader W fuel self filename level)).
Proof.
  induction fuel as [|fuel [IHl IHg]]; [split; intros; apply stable_raise|].
  split.
  - intros self filename. simpl. repeat stable_step; done.
  - intros self filename level. simpl. repeat stable_step; try done.
    intros st. specialize (IHl self filename st).
    destruct (_load_file W fuel self filename st) as [[el|ex] st1]; simpl in *.
    + eapply ext_trans; [done|]. apply stable_open_junction.
    + destruct ex as [[] msg| | | | |]; try done.
      destruct (level =? 0); [done|].
      eapply ext_trans; [done|].
      apply (stable_bind (store_loader self filename None) (λ _, mret None));
        [apply stable_store_loader|intros; apply stable_ret].
Qed.

Lemma ext_frame st st' a L :
  ext st st' → loaders st !! a = Some L →
  ∃ L', loaders st' !! a = Some L' ∧ project L' = project L ∧
        _parent L' = _parent L ∧ _tempdir L' = _tempdir L ∧ _context L' = _context L.
Proof.
  intros He HL. destruct (He a L HL) as (L' & HL' & Hf). exists L'.
  unfold frame_of in Hf. injection Hf as -> -> _ _ -> ->. done.
Qed.

(** ** Junction resolution *)

Lemma get_loader_cached W fuel self filename level st L (loader : option nat) :
  loaders st !! self = Some L →
  dict_get filename (_loaders L) = Some loader →
  _get_loader W (S fuel) self filename level st
  = match loader with
    | Some l => (Ok (Some l), st)
    | None => (Raise (LoadError CONFLICTING_JUNCTION
                        (conflicting_junction_message filename (project_name (project L)))),
               st)
    end.
Proof.
  intros HL Hd. cbn [_get_loader]. unfold mbind at 1, mlift at 1, deref.
  rewrite HL, Hd. by destruct loader.
Qed.

Lemma store_loader_run st self L filename (loader : option nat) :
  loaders st !! self = Some L →
  store_loader self filename loader st
  = (Ok tt, set_loader st self (set_loaders L (dict_set filename loader (_loaders L)))).
Proof. intros HL. unfold store_loader, deref. by rewrite HL. Qed.

Lemma set_loader_lookup st self L' L :
  loaders st !! self = Some L → loaders (set_loader st self L') !! self = Some L'.
Proof.
  intros HL. unfold set_loader. simpl. apply list_lookup_insert_eq.
  by eapply lookup_lt_Some.
Qed.

(** C5. A loader with a parent that has not resolved a junction name yet
    asks its parent first; when the parent has a loader for that name, that
    loader is the answer, without an error.  The store is then the one the
    parent left, plus the entry in the cache of this loader: the junction
    element of the subproject itself is not opened, and later lookups of the
    name through this loader give the parent's loader again. *)
Theorem get_loader_parent_precedence W fuel self filename level st L parent loader st1 :
  loaders st !! self = Some L →
  dict_get filename (_loaders L) = None →
  _parent L = Some parent →
  _get_loader W fuel parent filename (level + 1) st = (Ok (Some loader), st1) →
  ∃ L1 st2,
    loaders st1 !! self = Some L1 ∧
    st2 = set_loader st1 self
            (set_loaders L1 (dict_set filename (Some loader) (_loaders L1))) ∧
    _get_loader W (S fuel) self filename level st = (Ok (Some loader), st2) ∧
    ∀ fuel' level',
      _get_loader W (S fuel') self filename level' st2 = (Ok (Some loader), st2).
Proof.
  intros HL Hd Hp Hrun.
  assert (Hext : ext st st1).
  { pose proof (proj2 (stable_load_file_get_loader W fuel) parent filename (level + 1) st) as H.
    by rewrite Hrun in H. }
  destruct (Hext self L HL) as (L1 & HL1 & _).
  exists L1, (set_loader st1 self
                (set_loaders L1 (dict_set filename (Some loader) (_loaders L1)))).
  split_and!; try done.
  - cbn [_get_loader]. unfold mbind at 1, mlift at 1, deref. rewrite HL, Hd, Hp.
    unfold mbind at 1. rewrite Hrun. unfold mbind at 1.
    by rewrite (store_loader_run st1 self L1).
  - intros fuel' level'.
    rewrite (get_loader_cached W fuel' self filename level' _ _ (Some loader)
               (set_loader_lookup st1 self _ L1 HL1)); [done|].
    simpl. apply dict_get_set_eq.
Qed.

Lemma get_loader_parent_precedence_witness :
  let st := (_get_loader world_override 20 0 "sub.bst" 0
               (_load_file world_override 20 0 "sub.bst" store_top).2).2 in
  ∃ L1 st2, loaders st2 !! 1 = Some L1 ∧
    _get_loader world_override 20 1 "base.bst" 0 st = (Ok (Some 2), st2) ∧
    (project_name ∘ project <$> loaders st2 !! 2) = Some "base-r1" ∧
    dict_get "base.bst" (_loaders L1) = Some (Some 2).
Proof.
  intros st.
  destruct (get_loader_parent_precedence world_override 19 1 "base.bst" 0 st
              (default (mkLoader example_project example_context "" [] None None ∅ ∅ [])
                 (loaders st !! 1)) 0 2
              (_get_loader world_override 19 0 "base.bst" 1 st).2)
    as (L1 & st2 & HL1 & -> & Hrun & _).
  - vm_compute. reflexivity.
  - vm_compute. reflexivity.
  - vm_compute. reflexivity.
  - vm_compute. reflexivity.
  - eexists _, _. split_and!.
    + eapply set_loader_lookup. exact HL1.
    + exact Hrun.
    + vm_compute. reflexivity.
    + simpl. apply dict_get_set_eq.
Defined.

(** The override scenario through [load]: the subproject's [base.bst] is
    resolved to the loader of the parent's junction, project [base-r1]. *)
Example load_junction_override :
  let r := load world_override 20 0 store_top in
  r.1 = Ok [2] ∧
  (_loaders <$> loaders r.2 !! 1) = Some [("base.bst", Some 2)] ∧
  (_loaders <$> loaders r.2 !! 0) = Some [("sub.bst", Some 1); ("base.bst", Some 2)] ∧
  (project_name ∘ project <$> loaders r.2) = ["top"; "sub"; "base-r1"].
Proof. vm_compute. done. Qed.

(** C6. A junction lookup whose load of the junction element fails with
    [MissingFile], after the parent (when there is one) gave nothing: at
    level 0 the error is raised; at a nested level the call returns [None]
    and caches the name as absent, and from then on a lookup of that name
    through this loader raises [ConflictingJunction] with a message that
    names the project of this loader. *)
Theorem get_loader_missing_file W fuel self filename level st L st0 msg st1 :
  loaders st !! self = Some L →
  dict_get filename (_loaders L) = None →
  match _parent L with
  | Some parent => _get_loader W fuel parent filename (level + 1) st = (Ok None, st0)
  | None => st0 = st
  end →
  _load_file W fuel self filename st0 = (Raise (LoadError MISSING_FILE msg), st1) →
  (level = 0 →
   _get_loader W (S fuel) self filename level st
   = (Raise (LoadError MISSING_FILE msg), st1)) ∧
  (level ≠ 0 →
   ∃ L1 st2,
     loaders st1 !! self = Some L1 ∧
     st2 = set_loader st1 self (set_loaders L1 (dict_set filename None (_loaders L1))) ∧
     _get_loader W (S fuel) self filename level st = (Ok None, st2) ∧
     ∀ fuel' level',
       _get_loader W (S fuel') self filename level' st2
       = (Raise (LoadError CONFLICTING_JUNCTION
                   (conflicting_junction_message filename (project_name (project L)))),
          st2)).
Proof.
  intros HL Hd Hp Hload.
  assert (Hrun : _get_loader W (S fuel) self filename level st
                 = if level =? 0 then (Raise (LoadError MISSING_FILE msg), st1)
                   else (_ ←m store_loader self filename None; mret None) st1).
  { cbn [_get_loader]. unfold mbind at 1, mlift at 1, deref. rewrite HL, Hd.
    destruct (_parent L) as [parent|].
    - unfold mbind at 1. rewrite Hp, Hload. done.
    - subst st0. unfold mbind at 1, mret at 1. rewrite Hload. done. }
  split.
  - intros ->. by rewrite Hrun.
  - intros Hlevel. apply Nat.eqb_neq in Hlevel. rewrite Hlevel in Hrun.
    assert (Hext : ext st st1).
    { eapply ext_trans.
      - destruct (_parent L) as [parent|].
        + pose proof (proj2 (stable_load_file_get_loader W fuel) parent filename
                        (level + 1) st) as H.
          rewrite Hp in H. exact H.
        + subst st0. apply ext_refl.
      - pose proof (proj1 (stable_load_file_get_loader W fuel) self filename st0) as H.
        by rewrite Hload in H. }
    destruct (ext_frame _ _ _ _ Hext HL) as (L1 & HL1 & Hproj & _).
    exists L1, (set_loader st1 self (set_loaders L1 (dict_set filename None (_loaders L1)))).
    split_and!; try done.
    + rewrite Hrun. unfold mbind. by rewrite (store_loader_run st1 self L1).
    + intros fuel' level'.
      rewrite (get_loader_cached W fuel' self filename level' _ _ None
                 (set_loader_lookup st1 self _ L1 HL1)).
      * simpl. by rewrite Hproj.
      * simpl. apply dict_get_set_eq.
Qed.

Lemma get_loader_missing_file_witness :
  _get_loader world_conflict 6 0 "base.bst" 0 store_top
  = (Raise (LoadError MISSING_FILE "Could not find file at base.bst"), store_top)
  ∧ ∃ st2, _get_loader world_conflict 6 0 "base.bst" 1 store_top = (Ok None, st2) ∧
      _get_loader world_conflict 6 0 "base.bst" 0 st2
      = (Raise (LoadError CONFLICTING_JUNCTION
                  "Conflicting junction base.bst in subprojects, define junction in top"),
         st2).
Proof.
  split.
  - eapply (get_loader_missing_file world_conflict 5 0 "base.bst" 0 store_top);
      [vm_compute; reflexivity..|reflexivity].
  - destruct (proj2 (get_loader_missing_file world_conflict 5 0 "base.bst" 1 store_top
                       (mkLoader example_project example_context "/top/elements"
                          ["app.bst"] None None ∅ ∅ [])
                       store_top "Could not find file at base.bst" store_top
                       eq_refl eq_refl eq_refl eq_refl))
      as (L1 & st2 & _ & _ & Hrun & Hlater); [lia|].
    exists st2. split; [exact Hrun|]. exact (Hlater 5 0).
Defined.

(** The conflict scenario through [load]: [s1] and [s2] both define
    [base.bst] and the top-level project does not. *)
Example load_junction_conflict :
  let r := load world_conflict 20 0 store_top in
  r.1 = Raise (LoadError CONFLICTING_JUNCTION
                 "Conflicting junction base.bst in subprojects, define junction in top")
  ∧ (_loaders <$> loaders r.2 !! 0)
    = Some [("s1.bst", Some 1); ("base.bst", None); ("s2.bst", Some 3)].
Proof. vm_compute. done. Qed.



(** ** [cleanup] *)

Lemma prefix_trans s1 : ∀ s2 s3,
  String.prefix s1 s2 = true → String.prefix s2 s3 = true → String.prefix s1 s3 = true.
Proof.
  induction s1 as [|a s1 IH]; intros s2 s3 H12 H23; [by destruct s3|].
  destruct s2 as [|b s2]; [discriminate|]. destruct s3 as [|c s3]; [discriminate|].
  simpl in *.
  destruct (ascii_dec a b) as [->|]; [|done].
  destruct (ascii_dec b c) as [->|]; [|done]. by eapply IH.
Qed.

Lemma prefix_append s t : String.prefix s (s +:+ t) = true.
Proof.
  induction s as [|a s IH]; [by destruct t|]. simpl.
  by destruct (ascii_dec a a).
Qed.

Lemma in_tree_prefix root d p :
  String.prefix root d = true → in_tree d p = true → String.prefix root p = true.
Proof.
  intros Hd. unfold in_tree. rewrite orb_true_iff. intros [Heq|Hp].
  - apply String.eqb_eq in Heq. by subst.
  - eapply prefix_trans; [done|]. eapply prefix_trans; [|done]. apply prefix_append.
Qed.

Lemma removable_same st st' d : loaders st' = loaders st → removable st d → removable st' d.
Proof. intros H (a & L & HL & ?). exists a, L. by rewrite H. Qed.

Lemma cleanup_rel_refl st : cleanup_rel st st.
Proof.
  split_and!; try done; [|by left].
  exists []. split; [by rewrite app_nil_r|]. intros d Hd. by apply elem_of_nil in Hd.
Qed.

Lemma cleanup_rel_trans st1 st2 st3 :
  cleanup_rel st1 st2 → cleanup_rel st2 st3 → cleanup_rel st1 st3.
Proof.
  intros (Hl & Hm & (n1 & Hr1 & Hn1) & Hs1 & Hd1) (Hl' & Hm' & (n2 & Hr2 & Hn2) & Hs2 & Hd2).
  split_and!.
  - congruence.
  - congruence.
  - exists (n1 ++ n2). split; [by rewrite Hr2, Hr1, app_assoc|].
    intros d Hd. apply elem_of_app in Hd as [Hd|Hd]; [by apply Hn1|].
    eapply removable_same; [|by apply Hn2]. done.
  - auto.
  - intros p Hp. destruct (Hd1 p Hp) as [Hp2|Hrm]; [|by right].
    destruct (Hd2 p Hp2) as [Hp3|(d & Hrm & Hin)]; [by left|].
    right. exists d. split; [|done]. eapply removable_same; [|done]. done.
Qed.

Lemma cleanup_rel_for {A} (xs : list A) (body : A → M unit) st :
  (∀ x s, cleanup_rel s (body x s).2) → cleanup_rel st (mfor xs body st).2.
Proof.
  intros Hb. revert st. induction xs as [|x xs IH]; intros st; simpl.
  - apply cleanup_rel_refl.
  - unfold mbind. specialize (Hb x st).
    destruct (body x st) as [[u|e] st1]; [|done].
    eapply cleanup_rel_trans; [done|]. apply IH.
Qed.

Lemma cleanup_rel_rmtree st d :
  removable st d → cleanup_rel st (rmtree d st).2.
Proof.
  intros Hrm. unfold rmtree. simpl. split_and!; try done.
  - exists [d]. split; [done|]. intros d' Hd'. apply list_elem_of_singleton in Hd'. by subst.
  - intros p Hp. by apply list_elem_of_filter in Hp as [_ Hp].
  - intros p Hp. destruct (in_tree d p) eqn:Hin.
    + right. eauto.
    + left. by apply list_elem_of_filter.
Qed.

Lemma cleanup_rel_cleanup fuel : ∀ self st, cleanup_rel st (cleanup fuel self st).2.
Proof.
  induction fuel as [|fuel IH]; intros self st; [apply cleanup_rel_refl|].
  cbn [cleanup]. unfold mbind at 1, mlift at 1, deref.
  destruct (loaders st !! self) as [L|] eqn:HL; [|apply cleanup_rel_refl].
  destruct (bool_decide (is_Some (_parent L)) && negb (truthy_str (_tempdir L))) eqn:Hdone;
    [apply cleanup_rel_refl|].
  unfold mbind at 1.
  pose proof (cleanup_rel_for (dict_values (_loaders L))
                (λ loader, match loader with
                           | Some l => cleanup fuel l
                           | None => mret tt
                           end) st) as Hloop.
  destruct (mfor _ _ st) as [[u|e] st1]; simpl in *.
  2: { apply Hloop. intros [l|] s; [apply IH|apply cleanup_rel_refl]. }
  assert (Hrel : cleanup_rel st st1).
  { apply Hloop. intros [l|] s; [apply IH|apply cleanup_rel_refl]. }
  destruct (bool_decide (is_Some (_parent L))) eqn:Hparent; simpl; [|done].
  apply bool_decide_eq_true in Hparent. simpl in Hdone.
  apply negb_false_iff in Hdone.
  destruct (_tempdir L) as [tempdir|] eqn:Htemp; [|done]. simpl.
  destruct (String.prefix (builddir (_context L) +:+ "/") tempdir) eqn:Hprefix; [|done].
  unfold mbind, mlift. destruct (path_exists st1 tempdir); [|done].
  eapply cleanup_rel_trans; [done|]. apply cleanup_rel_rmtree.
  exists self, L. destruct Hrel as (-> & _). done.
Qed.


(** [cleanup] after the load of the override example: the directory of
    [base-r1], a child of [sub] too, goes first, then the one of [sub]; the
    top-level loader removes nothing of its own. *)
Example cleanup_after_load :
  let st := (load world_override 20 0 store_top).2 in
  dirs st = ["/build"; "/build/sub-1"; "/build/base-2"] ∧
  (cleanup 5 0 st).1 = Ok tt ∧
  removed (cleanup 5 0 st).2 = ["/build/base-2"; "/build/sub-1"] ∧
  dirs (cleanup 5 0 st).2 = ["/build"].
Proof. vm_compute. done. Qed.


Lemma lookup_ref_read_leaves_trees_witness :
  lookup_ref example_refs "top" "a.bst" 0 false
  = (Ok (Some (mkNodeRef TOPLEVEL_NODE "top" "a.bst" 0)), example_refs)
  ∧ lookup_ref example_refs "top" "b.bst" 0 false = (Ok None, example_refs)
  ∧ ∃ n self', lookup_ref example_refs "top" "b.bst" 1 true = (Ok (Some n), self')
               ∧ lookup_ref self' "top" "b.bst" 1 true = (Ok (Some n), self').
Proof.
  split_and!.
  - exact (proj1 (lookup_ref_read_leaves_trees example_refs "top" "a.bst" 0)).
  - exact (proj1 (lookup_ref_read_leaves_trees example_refs "top" "b.bst" 0)).
  - destruct (proj2 (proj2 (lookup_ref_read_leaves_trees example_refs "top" "b.bst" 1))
                (Some (mkNodeRef TOPLEVEL_NODE "top" "b.bst" 1))
                (lookup_ref example_refs "top" "b.bst" 1 true).2)
      as (n & Hn & Hagain); [vm_compute; reflexivity|].
    exists n, (lookup_ref example_refs "top" "b.bst" 1 true).2. split; [|exact Hagain].
    rewrite <- Hn. vm_compute. reflexivity.
Defined.

(** A write for a new triple pads the element list up to the index, in the
    one tree there is. *)
Example lookup_ref_write_creates :
  let r := lookup_ref example_refs "top" "b.bst" 1 true in
  r.1 = Ok (Some (mkNodeRef TOPLEVEL_NODE "top" "b.bst" 1)) ∧
  node_at (toplevel_node r.2) "top" "b.bst" 0 = Some empty_node ∧
  node_at (toplevel_node r.2) "top" "b.bst" 1 = Some empty_node ∧
  node_at (toplevel_node r.2) "top" "a.bst" 0 = Some (mkRefNode [("ref", "0a1b2c")] None).
Proof. vm_compute. done. Qed.

(** ** Only the cycle check raises [CircularDependency] *)

Lemma rsafe_ok {A} (a : A) : rsafe (Ok a).
Proof. intros e H. discriminate. Qed.

Lemma rsafe_raise {A} e : not_circular e → rsafe (@Raise A e).
Proof. intros He e' [= <-]. done. Qed.

Lemma rsafe_bind {A B} (r : result A) (k : A → result B) :
  rsafe r → (∀ a, rsafe (k a)) → rsafe (rbind r k).
Proof.
  intros Hr Hk e. destruct r as [a|e']; simpl.
  - apply Hk.
  - intros [= <-]. by apply Hr.
Qed.

Lemma rsafe_fold {A S} (body : S → A → result S) xs acc :
  (∀ s x, rsafe (body s x)) → rsafe (rfold body xs acc).
Proof.
  intros Hb. revert acc. induction xs as [|x xs IH]; intros acc; simpl.
  - apply rsafe_ok.
  - apply rsafe_bind; [apply Hb|done].
Qed.

Lemma msafe_ret {A} (a : A) : msafe (mret a).
Proof. intros st e st' H. discriminate. Qed.

Lemma msafe_raise {A} e : not_circular e → msafe (@mraise A e).
Proof. intros He st e' st' [= <- _]. done. Qed.

Lemma msafe_lift {A} (r : Store → result A) : (∀ st, rsafe (r st)) → msafe (mlift r).
Proof. intros Hr st e st' [= H _]. by eapply Hr. Qed.

Lemma msafe_bind {A B} (m : M A) (k : A → M B) :
  msafe m → (∀ a, msafe (k a)) → msafe (mbind m k).
Proof.
  intros Hm Hk st e st'. unfold mbind. destruct (m st) as [[a|e'] st1] eqn:Hr.
  - apply Hk.
  - intros [= <- <-]. by eapply Hm.
Qed.

Lemma msafe_for {A} (xs : list A) (body : A → M unit) :
  (∀ x, msafe (body x)) → msafe (mfor xs body).
Proof.
  intros Hb. induction xs as [|x xs IH]; simpl; [apply msafe_ret|].
  apply msafe_bind; [apply Hb|done].
Qed.

Lemma msafe_fold {A S} (body : S → A → M S) xs acc :
  (∀ s x, msafe (body s x)) → msafe (mfold body xs acc).
Proof.
  intros Hb. revert acc. induction xs as [|x xs IH]; intros acc; simpl.
  - apply msafe_ret.
  - apply msafe_bind; [apply Hb|done].
Qed.

Lemma msafe_map {A B} (f : A → M B) xs : (∀ x, msafe (f x)) → msafe (mmap f xs).
Proof.
  intros Hf. induction xs as [|x xs IH]; simpl; [apply msafe_ret|].
  apply msafe_bind; [apply Hf|]. intros y.
  apply msafe_bind; [done|]. intros ys. apply msafe_ret.
Qed.

Ltac rsafe_step :=
  match goal with
  | |- rsafe (Ok _) => apply rsafe_ok
  | |- rsafe (Raise _) => apply rsafe_raise; intros ?; discriminate
  | |- rsafe (rbind _ _) => apply rsafe_bind; [|intros ?]
  | |- rsafe (rfold _ _ _) => apply rsafe_fold; intros ? ?
  | |- rsafe (match ?x with _ => _ end) => destruct x
  end.

Lemma rsafe_deref st l : rsafe (deref st l).
Proof. unfold deref. repeat rsafe_step. Qed.

Lemma rsafe_lookup_element L name : rsafe (lookup_element L name).
Proof. unfold lookup_element. repeat rsafe_step. Qed.

Lemma rsafe_get_loader_for_dep st self dep : rsafe (_get_loader_for_dep st self dep).
Proof. unfold _get_loader_for_dep. repeat rsafe_step. apply rsafe_deref. Qed.

Lemma rsafe_get_element_for_dep st self dep : rsafe (get_element_for_dep st self dep).
Proof.
  unfold get_element_for_dep. repeat rsafe_step.
  - apply rsafe_get_loader_for_dep.
  - apply rsafe_deref.
  - apply rsafe_lookup_element.
Qed.

Lemma rsafe_dependency_set fuel : ∀ st l e, rsafe (dependency_set fuel st l e).
Proof.
  induction fuel as [|fuel IH]; intros st l e; simpl; repeat rsafe_step.
  - apply rsafe_get_loader_for_dep.
  - apply rsafe_deref.
  - apply rsafe_lookup_element.
  - apply IH.
Qed.

Lemma rsafe_dependency_lt fuel st self a b : rsafe (dependency_lt fuel st self a b).
Proof.
  unfold dependency_lt, dependency_cmp, depends.
  repeat first [apply rsafe_get_loader_for_dep | apply rsafe_get_element_for_dep
               | apply rsafe_dependency_set | rsafe_step].
Qed.

Section sort_safe.
Context {A : Type} (lt : A → A → result bool).
Hypothesis Hlt : ∀ a b, rsafe (lt a b).

Lemma rsafe_run_descending l : ∀ prev, rsafe (run_descending lt prev l).
Proof.
  induction l as [|x l IH]; intros prev; simpl;
    repeat first [apply Hlt | apply IH | rsafe_step].
Qed.

Lemma rsafe_run_ascending l : ∀ prev, rsafe (run_ascending lt prev l).
Proof.
  induction l as [|x l IH]; intros prev; simpl;
    repeat first [apply Hlt | apply IH | rsafe_step].
Qed.

Lemma rsafe_bisect steps : ∀ sorted pivot l r, rsafe (bisect lt steps sorted pivot l r).
Proof.
  induction steps as [|steps IH]; intros sorted pivot l r; simpl;
    repeat first [apply Hlt | apply IH | rsafe_step].
Qed.

Lemma rsafe_list_sort l : rsafe (list_sort lt l).
Proof.
  unfold list_sort, count_run, binary_insert.
  repeat first [apply rsafe_run_descending | apply rsafe_run_ascending
               | apply rsafe_bisect | apply Hlt | rsafe_step].
Qed.
End sort_safe.

Lemma msafe_new_meta m : msafe (new_meta m).
Proof. intros st e st' H. discriminate. Qed.

Lemma msafe_cache_meta self name a : msafe (cache_meta self name a).
Proof.
  intros st e st'. unfold cache_meta.
  destruct (deref st (Some self)) as [L|e'] eqn:Hd; [done|].
  intros [= <- _]. by eapply rsafe_deref.
Qed.

Lemma msafe_append_dependency a d b : msafe (append_dependency a d b).
Proof.
  intros st e st'. unfold append_dependency.
  destruct (metas st !! a); [done|]. intros [= <- _] msg. discriminate.
Qed.

Lemma msafe_sort_deps fuel self name : msafe (sort_deps fuel self name).
Proof.
  intros st e st'. unfold sort_deps.
  match goal with |- context [match ?r with Ok _ => _ | Raise _ => _ end] =>
    assert (Hr : rsafe r); [|destruct r as [s|e']; [done|]] end.
  - repeat first [apply rsafe_deref | apply rsafe_lookup_element
                 | apply rsafe_list_sort; intros; apply rsafe_dependency_lt
                 | rsafe_step].
  - intros [= <- _]. by apply Hr.
Qed.

Ltac msafe_step :=
  match goal with
  | |- msafe (mret _) => apply msafe_ret
  | |- msafe (mraise _) => apply msafe_raise; intros ?; discriminate
  | |- msafe (mlift (λ st, deref st _)) => apply msafe_lift; intros ?; apply rsafe_deref
  | |- msafe (mlift (λ _, lookup_element _ _)) =>
      apply msafe_lift; intros ?; apply rsafe_lookup_element
  | |- msafe (mlift (λ st, _get_loader_for_dep st _ _)) =>
      apply msafe_lift; intros ?; apply rsafe_get_loader_for_dep
  | |- msafe (new_meta _) => apply msafe_new_meta
  | |- msafe (cache_meta _ _ _) => apply msafe_cache_meta
  | |- msafe (append_dependency _ _ _) => apply msafe_append_dependency
  | |- msafe (sort_deps _ _ _) => apply msafe_sort_deps
  | |- msafe (mbind _ _) => apply msafe_bind; [|intros ?]
  | |- msafe (mfor _ _) => apply msafe_for; intros ?
  | |- msafe (mfold _ _ _) => apply msafe_fold; intros ? ?
  | |- msafe (mmap _ _) => apply msafe_map; intros ?
  | |- msafe (match ?x with _ => _ end) => destruct x
  end.

Lemma msafe_sort_dependencies fuel :
  ∀ self name visited, msafe (_sort_dependencies fuel self name visited).
Proof.
  induction fuel as [|fuel IH]; intros self name visited; cbn [_sort_dependencies];
    repeat first [apply IH | msafe_step].
Qed.

Lemma msafe_collect_element fuel : ∀ self name, msafe (_collect_element fuel self name).
Proof.
  induction fuel as [|fuel IH]; intros self name; cbn [_collect_element];
    repeat first [apply IH | progress unfold collect_dependency | msafe_step].
Qed.

(** ** [load] and cycles *)

Lemma msafe_load_sort_collect fuel self targets :
  msafe (load_sort_collect fuel self targets).
Proof.
  unfold load_sort_collect.
  repeat first [apply msafe_sort_dependencies | apply msafe_collect_element | msafe_step].
Qed.



(** A→B→C→A, through [load]. *)
Example load_cyclic :
  (load world_cyclic 5 0 (store_targets ["a.bst"])).1
  = Raise (LoadError CIRCULAR_DEPENDENCY "Circular dependency detected for element: a.bst").
Proof. vm_compute. reflexivity. Qed.

(** A cycle across two subprojects, through [load]: the elements are told
    apart by their full names, and the message has the local name. *)
Example load_cycle_across_projects :
  let r := load world_cycle_across 20 0 store_top in
  r.1 = Raise (LoadError CIRCULAR_DEPENDENCY "Circular dependency detected for element: x.bst")
  ∧ (le_full_name <$> elem_at r.2 (1, "x.bst")) = Some "s1.bst:x.bst"
  ∧ (le_full_name <$> elem_at r.2 (2, "y.bst")) = Some "s2.bst:y.bst"
  ∧ closed r.2 = true ∧ unique_full_names r.2 = true.
Proof. vm_compute. done. Qed.

(** ** When [cleanup] does not return *)

(** Two loaders with a parent that each have the other first in [_loaders]:
    [cleanup] on either goes from one to the other and uses up any recursion
    budget, before any removal. *)
Lemma cleanup_mutual st a b La Lb ka kb ra rb :
  loaders st !! a = Some La → loaders st !! b = Some Lb →
  is_Some (_parent La) → truthy_str (_tempdir La) = true →
  is_Some (_parent Lb) → truthy_str (_tempdir Lb) = true →
  _loaders La = (ka, Some b) :: ra → _loaders Lb = (kb, Some a) :: rb →
  ∀ fuel, cleanup fuel a st = (Raise RecursionLimit, st) ∧
          cleanup fuel b st = (Raise RecursionLimit, st).
Proof.
  intros Ha Hb Hpa Hta Hpb Htb Hla Hlb fuel.
  induction fuel as [|fuel [IHa IHb]]; [done|]. split.
  - cbn [cleanup]. unfold mbind at 1, mlift at 1, deref. rewrite Ha, Hta, Hla.
    rewrite andb_false_r. unfold mbind at 1. cbn [dict_values fmap list_fmap snd mfor].
    unfold mbind at 1. by rewrite IHb.
  - cbn [cleanup]. unfold mbind at 1, mlift at 1, deref. rewrite Hb, Htb, Hlb.
    rewrite andb_false_r. unfold mbind at 1. cbn [dict_values fmap list_fmap snd mfor].
    unfold mbind at 1. by rewrite IHa.
Qed.

Lemma cleanup_first_child st c Lc kc a rc fuel :
  loaders st !! c = Some Lc →
  bool_decide (is_Some (_parent Lc)) && negb (truthy_str (_tempdir Lc)) = false →
  _loaders Lc = (kc, Some a) :: rc →
  cleanup fuel a st = (Raise RecursionLimit, st) →
  cleanup (S fuel) c st = (Raise RecursionLimit, st).
Proof.
  intros Hc Hdone Hl Hrun.
  cbn [cleanup]. unfold mbind at 1, mlift at 1, deref. rewrite Hc, Hdone, Hl.
  unfold mbind at 1. cbn [dict_values fmap list_fmap snd mfor].
  unfold mbind at 1. by rewrite Hrun.
Qed.

(** The load of two subprojects that name each other returns, and [cleanup]
    after it does not, whatever the budget: nothing is removed. *)
Example cleanup_after_mutual_load (fuel : nat) :
  let r := load world_mutual 20 0 store_top in
  r.1 = Ok [2] ∧
  cleanup (S fuel) 0 r.2 = (Raise RecursionLimit, r.2).
Proof.
  intros r. split; [vm_compute; reflexivity|].
  eapply (cleanup_first_child r.2 0 _ "s1.bst" 1 [("s2.bst", Some 2)]).
  - vm_compute. reflexivity.
  - vm_compute. reflexivity.
  - vm_compute. reflexivity.
  - eapply (cleanup_mutual r.2 1 2 _ _ "s2.bst" "s1.bst" [] []).
    + vm_compute. reflexivity.
    + vm_compute. reflexivity.
    + vm_compute. eauto.
    + vm_compute. reflexivity.
    + vm_compute. eauto.
    + vm_compute. reflexivity.
    + vm_compute. reflexivity.
    + vm_compute. reflexivity.
Qed.

(** * Further proofs *)

(** ** Calls that keep a relation *)

Section keeps.
Variable R : Store → Store → Prop.
Hypothesis R_refl : ∀ st, R st st.
Hypothesis R_trans : ∀ st1 st2 st3, R st1 st2 → R st2 st3 → R st1 st3.

Lemma keeps_ret {A} (a : A) : keeps R (mret a).
Proof. intros st. apply R_refl. Qed.

Lemma keeps_raise {A} e : keeps R (@mraise A e).
Proof. intros st. apply R_refl. Qed.

Lemma keeps_lift {A} (r : Store → result A) : keeps R (mlift r).
Proof. intros st. apply R_refl. Qed.

Lemma keeps_bind {A B} (m : M A) (k : A → M B) :
  keeps R m → (∀ a, keeps R (k a)) → keeps R (mbind m k).
Proof.
  intros Hm Hk st. unfold mbind. specialize (Hm st).
  destruct (m st) as [[a|e] st']; [|done].
  eapply R_trans; [done|]. apply Hk.
Qed.

Lemma keeps_for {A} (xs : list A) (body : A → M unit) :
  (∀ x, keeps R (body x)) → keeps R (mfor xs body).
Proof.
  intros Hb. induction xs as [|x xs IH]; simpl; [apply keeps_ret|].
  apply keeps_bind; [apply Hb|done].
Qed.

Lemma keeps_fold {A S} (body : S → A → M S) xs acc :
  (∀ s x, keeps R (body s x)) → keeps R (mfold body xs acc).
Proof.
  intros Hb. revert acc. induction xs as [|x xs IH]; intros acc; simpl.
  - apply keeps_ret.
  - apply keeps_bind; [apply Hb|done].
Qed.

Lemma keeps_map {A B} (f : A → M B) xs : (∀ x, keeps R (f x)) → keeps R (mmap f xs).
Proof.
  intros Hf. induction xs as [|x xs IH]; simpl; [apply keeps_ret|].
  apply keeps_bind; [apply Hf|]. intros y.
  apply keeps_bind; [done|]. intros ys. apply keeps_ret.
Qed.
End keeps.

Ltac keeps_step Hrefl Htrans :=
  match goal with
  | |- keeps _ (mret _) => apply (keeps_ret _ Hrefl)
  | |- keeps _ (mraise _) => apply (keeps_raise _ Hrefl)
  | |- keeps _ (mlift _) => apply (keeps_lift _ Hrefl)
  | |- keeps _ (mbind _ _) => apply (keeps_bind _ Htrans); [|intros ?]
  | |- keeps _ (mfor _ _) => apply (keeps_for _ Hrefl Htrans); intros ?
  | |- keeps _ (mfold _ _ _) => apply (keeps_fold _ Hrefl Htrans); intros ? ?
  | |- keeps _ (mmap _ _) => apply (keeps_map _ Hrefl Htrans); intros ?
  | |- keeps _ (match ?x with _ => _ end) => destruct x
  end.

(** ** The sort only reorders *)

Section sort_perm.
Context {A : Type} (lt : A → A → result bool).

Lemma binary_insert_perm sorted pivot l :
  binary_insert lt sorted pivot = Ok l → l ≡ₚ sorted ++ [pivot].
Proof.
  unfold binary_insert. destruct (bisect lt _ _ _ _ _) as [i|e]; [|done].
  simpl. intros [= <-].
  rewrite <- (take_drop i sorted) at 3. rewrite <- app_assoc.
  apply Permutation_app_head. apply Permutation_cons_append.
Qed.

Lemma insert_all_perm rest : ∀ run l,
  rfold (binary_insert lt) rest run = Ok l → l ≡ₚ run ++ rest.
Proof.
  induction rest as [|x rest IH]; intros run l; simpl.
  - intros [= <-]. by rewrite app_nil_r.
  - destruct (binary_insert lt run x) as [run'|e] eqn:Hi; [|done]. simpl.
    intros Hl. apply IH in Hl. apply binary_insert_perm in Hi.
    rewrite Hl, Hi. by rewrite <- app_assoc.
Qed.

Lemma list_sort_perm l l' : list_sort lt l = Ok l' → l' ≡ₚ l.
Proof.
  unfold list_sort. destruct (length l <? 2); [by intros [= <-]|].
  destruct (count_run lt l) as [[n descending]|e]; [|done]. simpl.
  intros Hl. apply insert_all_perm in Hl. rewrite Hl.
  transitivity (take n l ++ drop n l); [|by rewrite take_drop].
  apply Permutation_app_tail.
  destruct descending; [apply reverse_Permutation|done].
Qed.
End sort_perm.

Lemma same_but_order_refl e : same_but_order e e.
Proof. done. Qed.

Lemma same_but_order_trans e1 e2 e3 :
  same_but_order e1 e2 → same_but_order e2 e3 → same_but_order e1 e3.
Proof.
  intros (? & ? & ? & H12) (? & ? & ? & H23). split_and!; try congruence.
  by rewrite H23.
Qed.

Lemma reordered_refl st : reordered st st.
Proof.
  split_and!; try done. intros a L HL. exists L. split_and!; try done.
  intros k. destruct (_elements L !! k); constructor. apply same_but_order_refl.
Qed.

Lemma reordered_trans st1 st2 st3 :
  reordered st1 st2 → reordered st2 st3 → reordered st1 st3.
Proof.
  intros (Hm & Hd & Hr & Hlen & H12) (Hm' & Hd' & Hr' & Hlen' & H23).
  split_and!; try congruence. intros a L HL.
  destruct (H12 a L HL) as (L2 & HL2 & Hf2 & Hme2 & Hl2 & He2).
  destruct (H23 a L2 HL2) as (L3 & HL3 & Hf3 & Hme3 & Hl3 & He3).
  exists L3. split_and!; try congruence. intros k.
  specialize (He2 k). specialize (He3 k).
  destruct He2 as [e e2 H2|]; inversion He3 as [e2' e3 H3|]; subst; constructor.
  by eapply same_but_order_trans.
Qed.

Lemma reordered_sort_deps fuel self name : keeps reordered (sort_deps fuel self name).
Proof.
  intros st. unfold sort_deps, deref.
  destruct (loaders st !! self) as [L|] eqn:HL; simpl; [|apply reordered_refl].
  unfold lookup_element.
  destruct (_elements L !! name) as [e|] eqn:He; simpl; [|apply reordered_refl].
  destruct (list_sort _ (le_deps e)) as [sorted|ex] eqn:Hs; simpl; [|apply reordered_refl].
  apply list_sort_perm in Hs.
  split_and!; try done.
  - unfold set_loader. simpl. by rewrite length_insert.
  - intros a La Ha. unfold set_loader. simpl.
    destruct (decide (a = self)) as [->|Hne].
    + rewrite list_lookup_insert_eq by (by eapply lookup_lt_Some).
      rewrite HL in Ha. injection Ha as <-.
      eexists. split_and!; try done. intros k. simpl.
      destruct (decide (k = name)) as [->|Hk].
      * rewrite lookup_insert_eq, He. constructor. done.
      * rewrite lookup_insert_ne by done.
        destruct (_elements L !! k); constructor. apply same_but_order_refl.
    + rewrite list_lookup_insert_ne by done. exists La. split_and!; try done.
      intros k. destruct (_elements La !! k); constructor. apply same_but_order_refl.
Qed.

Lemma reordered_sort_dependencies fuel :
  ∀ self name visited, keeps reordered (_sort_dependencies fuel self name visited).
Proof.
  induction fuel as [|fuel IH]; intros self name visited; cbn [_sort_dependencies];
    repeat first [apply IH | apply reordered_sort_deps
                 | keeps_step reordered_refl reordered_trans].
Qed.

Lemma reordered_elem_at st st' x e :
  reordered st st' → elem_at st x = Some e →
  ∃ e', elem_at st' x = Some e' ∧ same_but_order e e'.
Proof.
  intros (_ & _ & _ & _ & H) He. unfold elem_at in *.
  destruct (loaders st !! x.1) as [L|] eqn:HL; [|done].
  destruct (H _ _ HL) as (L' & -> & _ & _ & _ & Hel).
  specialize (Hel x.2). rewrite He in Hel. inversion Hel. eauto.
Qed.

Lemma reordered_elem_at_inv st st' x e' :
  reordered st st' → elem_at st' x = Some e' →
  ∃ e, elem_at st x = Some e ∧ same_but_order e e'.
Proof.
  intros (_ & _ & _ & Hlen & H) He. unfold elem_at in *.
  destruct (loaders st' !! x.1) as [L'|] eqn:HL'; [|done].
  destruct (loaders st !! x.1) as [L|] eqn:HL.
  - destruct (H _ _ HL) as (L2 & HL2 & _ & _ & _ & Hel).
    assert (L2 = L') as -> by congruence.
    specialize (Hel x.2). rewrite He in Hel. inversion Hel. eauto.
  - apply lookup_lt_Some in HL'. apply lookup_ge_None in HL. lia.
Qed.

Lemma reordered_resolve st st' l d :
  reordered st st' → resolve st' l d = resolve st l d.
Proof.
  intros (_ & _ & _ & Hlen & H). unfold resolve, _get_loader_for_dep.
  destruct (truthy_str (dep_junction d)); [|done]. unfold deref.
  destruct (loaders st !! l) as [L|] eqn:HL.
  - destruct (H _ _ HL) as (L' & -> & _ & _ & Hl & _). simpl. by rewrite Hl.
  - destruct (loaders st' !! l) as [L'|] eqn:HL'; [|done].
    apply lookup_lt_Some in HL'. apply lookup_ge_None in HL. lia.
Qed.

Lemma reordered_edge st st' x y : reordered st st' → edge st' x y ↔ edge st x y.
Proof.
  intros Hr. split.
  - intros (e' & d & He' & Hd & Hres).
    destruct (reordered_elem_at_inv _ _ _ _ Hr He') as (e & He & _ & _ & _ & Hp).
    exists e, d. split_and!; [done| |by rewrite <- (reordered_resolve st st')].
    by rewrite <- Hp.
  - intros (e & d & He & Hd & Hres).
    destruct (reordered_elem_at _ _ _ _ Hr He) as (e' & He' & _ & _ & _ & Hp).
    exists e', d. split_and!; [done| |by rewrite (reordered_resolve st st')].
    by rewrite Hp.
Qed.

(** X1. Whatever [_sort_dependencies] does, it only reorders: every loader
    and every element is still there with the same name, full name and
    document, each dependency list is a permutation of what it was, and the
    dependency graph is the one it was. *)
Theorem sort_dependencies_only_reorders fuel self name visited st :
  reordered st (_sort_dependencies fuel self name visited st).2 ∧
  (∀ x y, edge (_sort_dependencies fuel self name visited st).2 x y ↔ edge st x y) ∧
  (∀ r, has_cycle (_sort_dependencies fuel self name visited st).2 r ↔ has_cycle st r).
Proof.
  pose proof (reordered_sort_dependencies fuel self name visited st) as Hr.
  assert (He : ∀ x y, edge (_sort_dependencies fuel self name visited st).2 x y
                      ↔ edge st x y) by (intros; by apply reordered_edge).
  split_and!; try done.
  assert (Hrtc : ∀ x y, rtc (edge (_sort_dependencies fuel self name visited st).2) x y
                        ↔ rtc (edge st) x y).
  { intros x y. split; induction 1; try apply rtc_refl; eapply rtc_l; eauto;
      by apply He. }
  assert (Htc : ∀ x y, tc (edge (_sort_dependencies fuel self name visited st).2) x y
                       ↔ tc (edge st) x y).
  { intros x y. split; induction 1.
    - apply tc_once. by apply He.
    - eapply tc_l; [|done]. by apply He.
    - apply tc_once. by apply He.
    - eapply tc_l; [|done]. by apply He. }
  intros r. unfold has_cycle. split; intros (x & Hx & Hxx); exists x.
  - split; [by apply Hrtc|by apply Htc].
  - split; [by apply Hrtc|by apply Htc].
Qed.

(** ** [cleanup] twice *)

Lemma cleanup_children_again fuel
    (IH : ∀ a st st1, cleanup fuel a st = (Ok tt, st1) →
          ∀ st2, loaders st2 = loaders st1 → (∀ p, p ∈ dirs st2 → p ∈ dirs st1) →
                 cleanup fuel a st2 = (Ok tt, st2)) :
  ∀ children s s', mfor children (cleanup_child fuel) s = (Ok tt, s') →
    ∀ st2, loaders st2 = loaders s' → (∀ p, p ∈ dirs st2 → p ∈ dirs s') →
           mfor children (cleanup_child fuel) st2 = (Ok tt, st2).
Proof.
  induction children as [|c children IHc]; intros s s' Hrun st2 Hl Hd; [done|].
  cbn [mfor] in *. unfold mbind in *.
  destruct (cleanup_child fuel c s) as [[[]|e] s1] eqn:Hc; [|done].
  assert (Hrest : cleanup_rel s1 s').
  { pose proof (cleanup_rel_for children (cleanup_child fuel) s1) as H.
    rewrite Hrun in H. apply H. intros [l|] s0; [apply cleanup_rel_cleanup|].
    apply cleanup_rel_refl. }
  destruct Hrest as (Hl1 & _ & _ & Hsub & _).
  assert (Hc2 : cleanup_child fuel c st2 = (Ok tt, st2)).
  { destruct c as [l|]; [|done]. simpl in *. eapply IH; [done|congruence|auto]. }
  rewrite Hc2. by eapply IHc.
Qed.

Lemma cleanup_again fuel : ∀ a st st1,
  cleanup fuel a st = (Ok tt, st1) →
  ∀ st2, loaders st2 = loaders st1 → (∀ p, p ∈ dirs st2 → p ∈ dirs st1) →
         cleanup fuel a st2 = (Ok tt, st2).
Proof.
  induction fuel as [|fuel IH]; intros a st st1 Hrun st2 Hl Hd; [done|].
  pose proof (cleanup_rel_cleanup (S fuel) a st) as Hrel. rewrite Hrun in Hrel.
  destruct Hrel as (Hl1 & _). simpl in Hl1.
  cbn [cleanup] in *. unfold mbind at 1, mlift at 1, deref in Hrun.
  unfold mbind at 1, mlift at 1, deref. rewrite Hl, Hl1.
  destruct (loaders st !! a) as [L|] eqn:HL; [|done].
  destruct (bool_decide (is_Some (_parent L)) && negb (truthy_str (_tempdir L))) eqn:Hdone;
    [done|].
  unfold mbind at 1 in Hrun. unfold mbind at 1.
  change (λ loader : option nat, match loader with
                                 | Some l => cleanup fuel l
                                 | None => mret tt
                                 end) with (cleanup_child fuel) in *.
  destruct (mfor (dict_values (_loaders L)) (cleanup_child fuel) st) as [[[]|e] s'] eqn:Hloop;
    [|done].
  assert (Hown : cleanup_rel s' st1 ∧
                 (is_Some (_parent L) →
                  String.prefix (builddir (_context L) +:+ "/") (default "" (_tempdir L)) = true →
                  default "" (_tempdir L) ∉ dirs st1)).
  { destruct (bool_decide (is_Some (_parent L))) eqn:Hp; simpl in Hrun.
    - destruct (String.prefix _ _) eqn:Hpre.
      + unfold mbind, mlift, path_exists in Hrun.
        destruct (bool_decide (default "" (_tempdir L) ∈ dirs s')) eqn:Hex.
        * injection Hrun as <-. split.
          -- split_and!; try done.
             ++ exists [default "" (_tempdir L)]. split; [done|].
                intros d Hd'. apply list_elem_of_singleton in Hd' as ->.
                assert (Hloop' : cleanup_rel st s').
                { pose proof (cleanup_rel_for (dict_values (_loaders L))
                                (cleanup_child fuel) st) as H.
                  rewrite Hloop in H. apply H. intros [l|] s0;
                    [apply cleanup_rel_cleanup|apply cleanup_rel_refl]. }
                destruct Hloop' as (Hls & _). exists a, L. rewrite Hls.
                apply bool_decide_eq_true in Hp. split_and!; try done.
                apply negb_false_iff in Hdone. simpl in Hdone.
                destruct (_tempdir L); done.
             ++ intros p Hp'. simpl in Hp'. by apply list_elem_of_filter in Hp' as [_ ?].
             ++ intros p Hp'. simpl. destruct (in_tree (default "" (_tempdir L)) p) eqn:Hin.
                ** right. exists (default "" (_tempdir L)). split; [|done].
                   assert (Hloop' : cleanup_rel st s').
                   { pose proof (cleanup_rel_for (dict_values (_loaders L))
                                   (cleanup_child fuel) st) as H.
                     rewrite Hloop in H. apply H. intros [l|] s0;
                       [apply cleanup_rel_cleanup|apply cleanup_rel_refl]. }
                   destruct Hloop' as (Hls & _). exists a, L. rewrite Hls.
                   apply bool_decide_eq_true in Hp. split_and!; try done.
                   apply negb_false_iff in Hdone. simpl in Hdone.
                   destruct (_tempdir L); done.
                ** left. by apply list_elem_of_filter.
          -- intros _ _ Hin. simpl in Hin. apply list_elem_of_filter in Hin as [Hf _].
             unfold in_tree in Hf. by rewrite String.eqb_refl in Hf.
        * injection Hrun as <-. split; [apply cleanup_rel_refl|].
          intros _ _. by apply bool_decide_eq_false in Hex.
      + injection Hrun as <-. split; [apply cleanup_rel_refl|]. intros _. done.
    - injection Hrun as <-. split; [apply cleanup_rel_refl|].
      intros Hsome. by apply bool_decide_eq_false in Hp. }
  destruct Hown as [(Hl2 & _ & _ & Hsub & _) Hgone].
  rewrite (cleanup_children_again fuel IH _ _ _ Hloop st2); [|congruence|auto].
  destruct (bool_decide (is_Some (_parent L))) eqn:Hp; simpl; [|done].
  destruct (String.prefix _ _) eqn:Hpre; [|done].
  unfold mbind, mlift, path_exists.
  rewrite bool_decide_eq_false_2; [done|].
  intros Hin. apply Hgone; auto. by apply bool_decide_eq_true in Hp.
Qed.

(** X2. [cleanup] is idempotent: once a call has returned, a second call on
    the store it left returns too and removes nothing more. *)
Theorem cleanup_idempotent fuel self st st' :
  cleanup fuel self st = (Ok tt, st') →
  cleanup fuel self st' = (Ok tt, st').
Proof. intros Hrun. by eapply cleanup_again. Qed.

Lemma cleanup_idempotent_witness :
  let st := (load world_override 20 0 store_top).2 in
  cleanup 5 0 (cleanup 5 0 st).2 = (Ok tt, (cleanup 5 0 st).2).
Proof.
  intros st. apply (cleanup_idempotent 5 0 st). vm_compute. reflexivity.
Defined.

(** ** The comparison of two dependencies *)

Lemma string_ltb_asym s t : String.ltb s t = true → String.ltb t s = false.
Proof.
  unfold String.ltb. rewrite (String.compare_antisym s t).
  by destruct (String.compare t s).
Qed.

Lemma string_ltb_total s t :
  String.ltb s t = false → String.ltb t s = false → s = t.
Proof.
  unfold String.ltb. rewrite (String.compare_antisym s t).
  destruct (String.compare t s) eqn:Hc; try done.
  intros _ _. symmetry. by apply String.compare_eq_iff.
Qed.

Lemma cmp_name_junction_opp dep_a dep_b :
  cmp_name_junction dep_b dep_a = (- cmp_name_junction dep_a dep_b)%Z.
Proof.
  unfold cmp_name_junction.
  destruct (String.ltb (dep_name dep_b) (dep_name dep_a)) eqn:Hba.
  { by rewrite (string_ltb_asym _ _ Hba). }
  destruct (String.ltb (dep_name dep_a) (dep_name dep_b)) eqn:Hab; [done|].
  rewrite (andb_comm (truthy_str (dep_junction dep_b))).
  destruct (truthy_str (dep_junction dep_a)), (truthy_str (dep_junction dep_b)); simpl;
    try done.
  destruct (String.ltb (default "" (dep_junction dep_b)) (default "" (dep_junction dep_a)))
    eqn:Hj.
  { by rewrite (string_ltb_asym _ _ Hj). }
  by destruct (String.ltb (default "" (dep_junction dep_a)) (default "" (dep_junction dep_b))).
Qed.

Lemma cmp_name_junction_range dep_a dep_b :
  cmp_name_junction dep_a dep_b ∈ [(-1)%Z; 0%Z; 1%Z].
Proof.
  unfold cmp_name_junction.
  repeat match goal with |- context [if ?b then _ else _] => destruct b end;
    repeat constructor.
Qed.

Lemma cmp_name_junction_zero dep_a dep_b :
  cmp_name_junction dep_a dep_b = 0%Z →
  dep_name dep_a = dep_name dep_b ∧ junction_key dep_a = junction_key dep_b.
Proof.
  unfold cmp_name_junction, junction_key.
  destruct (String.ltb (dep_name dep_b) (dep_name dep_a)) eqn:Hba; [done|].
  destruct (String.ltb (dep_name dep_a) (dep_name dep_b)) eqn:Hab; [done|].
  intros H. split; [by apply string_ltb_total|]. revert H.
  destruct (dep_junction dep_a) as [ja|], (dep_junction dep_b) as [jb|]; simpl;
    try done.
  - destruct (negb (String.eqb ja "")), (negb (String.eqb jb "")); simpl; try done.
    destruct (String.ltb jb ja) eqn:H1; [done|].
    destruct (String.ltb ja jb) eqn:H2; [done|].
    intros _. f_equal. by apply string_ltb_total.
  - by destruct (negb (String.eqb ja "")).
  - by destruct (negb (String.eqb jb "")).
Qed.

(** The comparison of [dep_a] with [dep_b], with the two elements and the
    two answers of [depends] that it asks for first. *)
Lemma dependency_cmp_cases fuel st self dep_a dep_b c :
  dependency_cmp fuel st self dep_a dep_b = Ok c →
  ∃ loader_a element_a loader_b element_b a_on_b,
    _get_loader_for_dep st self dep_a = Ok loader_a ∧
    get_element_for_dep st self dep_a = Ok element_a ∧
    _get_loader_for_dep st self dep_b = Ok loader_b ∧
    get_element_for_dep st self dep_b = Ok element_b ∧
    depends fuel st (default 0 loader_a) element_a element_b = Ok a_on_b ∧
    if a_on_b then c = 1%Z
    else ∃ b_on_a,
      depends fuel st (default 0 loader_b) element_b element_a = Ok b_on_a ∧
      if b_on_a then c = (-1)%Z
      else if decide (dep_type dep_a ≠ dep_type dep_b) then
        if decide (dep_type dep_a = RUNTIME) then c = 1%Z
        else if decide (dep_type dep_b = RUNTIME) then c = (-1)%Z
        else c = cmp_name_junction dep_a dep_b
      else c = cmp_name_junction dep_a dep_b.
Proof.
  unfold dependency_cmp.
  destruct (_get_loader_for_dep st self dep_a) as [loader_a|] eqn:Hla; [|done].
  destruct (get_element_for_dep st self dep_a) as [element_a|] eqn:Hea; [|done].
  destruct (_get_loader_for_dep st self dep_b) as [loader_b|] eqn:Hlb; [|done].
  destruct (get_element_for_dep st self dep_b) as [element_b|] eqn:Heb; [|done].
  cbn [rbind].
  destruct (depends fuel st (default 0 loader_a) element_a element_b) as [a_on_b|] eqn:Hab;
    [|done].
  cbn [rbind]. intros H. exists loader_a, element_a, loader_b, element_b, a_on_b.
  split_and!; try done. destruct a_on_b; [congruence|].
  destruct (depends fuel st (default 0 loader_b) element_b element_a) as [b_on_a|] eqn:Hba;
    [|done].
  cbn [rbind] in H. exists b_on_a. split; [done|]. destruct b_on_a; [congruence|].
  repeat case_decide; congruence.
Qed.

(** X3. [dependency_cmp] answers -1, 0 or 1, and asked the other way round
    it gives the opposite answer, unless each of the two elements depends
    on the other, when both answers are 1.  It answers 0 only for two
    dependencies of the same name and the same junction, of the same type or
    both needed for the build. *)
Theorem dependency_cmp_antisymmetric fuel st self dep_a dep_b c c' :
  dependency_cmp fuel st self dep_a dep_b = Ok c →
  dependency_cmp fuel st self dep_b dep_a = Ok c' →
  c ∈ [(-1)%Z; 0%Z; 1%Z] ∧
  (c' = (- c)%Z ∨
   c = 1%Z ∧ c' = 1%Z ∧
   ∃ loader_a element_a loader_b element_b,
     _get_loader_for_dep st self dep_a = Ok loader_a ∧
     get_element_for_dep st self dep_a = Ok element_a ∧
     _get_loader_for_dep st self dep_b = Ok loader_b ∧
     get_element_for_dep st self dep_b = Ok element_b ∧
     depends fuel st (default 0 loader_a) element_a element_b = Ok true ∧
     depends fuel st (default 0 loader_b) element_b element_a = Ok true) ∧
  (c = 0%Z →
   dep_name dep_a = dep_name dep_b ∧ junction_key dep_a = junction_key dep_b ∧
   (dep_type dep_a = dep_type dep_b ∨
    dep_type dep_a ≠ RUNTIME ∧ dep_type dep_b ≠ RUNTIME)).
Proof.
  intros Hab Hba.
  apply dependency_cmp_cases in Hab
    as (la & ea & lb & eb & a_on_b & Hla & Hea & Hlb & Heb & Hd1 & Hc).
  apply dependency_cmp_cases in Hba
    as (lb' & eb' & la' & ea' & b_on_a & Hlb' & Heb' & Hla' & Hea' & Hd2 & Hc').
  assert (lb' = lb) as -> by congruence. assert (eb' = eb) as -> by congruence.
  assert (la' = la) as -> by congruence. assert (ea' = ea) as -> by congruence.
  pose proof (cmp_name_junction_range dep_a dep_b) as Hrange.
  pose proof (cmp_name_junction_opp dep_a dep_b) as Hopp.
  pose proof (cmp_name_junction_zero dep_a dep_b) as Hzero.
  destruct a_on_b.
  - subst c. split; [repeat constructor|]. split; [|done].
    destruct b_on_a.
    + right. subst c'. split_and!; try done. by exists la, ea, lb, eb.
    + left. destruct Hc' as (x & Hx & Hc'). rewrite Hd1 in Hx.
      injection Hx as <-. done.
  - destruct Hc as (x & Hx & Hc). rewrite Hd2 in Hx. injection Hx as <-.
    destruct b_on_a.
    + subst c c'. split; [repeat constructor|]. split; [by left|done].
    + destruct Hc' as (x & Hx & Hc'). rewrite Hd1 in Hx. injection Hx as <-.
      repeat case_decide; subst; try congruence.
      * split; [repeat constructor|]. split; [by left|done].
      * split; [repeat constructor|]. split; [by left|done].
      * split; [done|]. split; [by left|]. intros Hc0.
        destruct (Hzero Hc0) as [? ?]. split_and!; try done. by right.
      * split; [done|]. split; [by left|]. intros Hc0.
        destruct (Hzero Hc0) as [? ?]. split_and!; try done. left. 
        by destruct (decide (dep_type dep_a = dep_type dep_b)).
Qed.

Lemma dependency_cmp_antisymmetric_witness :
  (1%Z ∈ [(-1)%Z; 0%Z; 1%Z]) ∧
  ((-1)%Z = (- 1)%Z ∨
   1%Z = 1%Z ∧ (-1)%Z = 1%Z ∧
   ∃ loader_a element_a loader_b element_b,
     _get_loader_for_dep store_sort 0 (plain_dep "a.bst") = Ok loader_a ∧
     get_element_for_dep store_sort 0 (plain_dep "a.bst") = Ok element_a ∧
     _get_loader_for_dep store_sort 0 (plain_dep "c.bst") = Ok loader_b ∧
     get_element_for_dep store_sort 0 (plain_dep "c.bst") = Ok element_b ∧
     depends 6 store_sort (default 0 loader_a) element_a element_b = Ok true ∧
     depends 6 store_sort (default 0 loader_b) element_b element_a = Ok true) ∧
  (1%Z = 0%Z →
   dep_name (plain_dep "a.bst") = dep_name (plain_dep "c.bst") ∧
   junction_key (plain_dep "a.bst") = junction_key (plain_dep "c.bst") ∧
   (dep_type (plain_dep "a.bst") = dep_type (plain_dep "c.bst") ∨
    dep_type (plain_dep "a.bst") ≠ RUNTIME ∧ dep_type (plain_dep "c.bst") ≠ RUNTIME)).
Proof.
  apply (dependency_cmp_antisymmetric 6 store_sort 0 (plain_dep "a.bst") (plain_dep "c.bst"));
    vm_compute; reflexivity.
Defined.

(** ** [list.sort] with a consistent comparison *)

Section sort_sorted.
Context {A : Type} (lt : A → A → result bool) (ltb : A → A → bool).
Hypothesis Hsw : strict_weak ltb.

Local Abbreviation le := (not_after ltb).
Local Abbreviation pure_on := (pure_on lt ltb).

Lemma sw_irrefl x : ltb x x = false.
Proof. destruct (ltb x x) eqn:H; [|done]. by rewrite (sw_asym _ Hsw x x H) in H. Qed.

Lemma le_trans x y z : le x y → le y z → le x z.
Proof. unfold not_after. intros Hxy Hyz. by apply (sw_negtrans _ Hsw z y x). Qed.

Lemma lt_le_trans x y z : ltb x y = true → le y z → ltb x z = true.
Proof.
  unfold not_after. intros Hxy Hyz. destruct (ltb x z) eqn:Hxz; [done|].
  by rewrite (sw_negtrans _ Hsw x z y Hxz Hyz) in Hxy.
Qed.

Lemma sw_trans x y z : ltb x y = true → ltb y z = true → ltb x z = true.
Proof.
  intros Hxy Hyz. eapply lt_le_trans; [done|]. by apply (sw_asym _ Hsw).
Qed.

Lemma run_ascending_spec rest : ∀ prev,
  pure_on (prev :: rest) →
  ∃ n, run_ascending lt prev rest = Ok n ∧ n ≤ length rest ∧
       StronglySorted le (prev :: take n rest).
Proof.
  induction rest as [|x rest IH]; intros prev Hp; simpl.
  { exists 0. split_and!; [done|lia|]. repeat constructor. }
  rewrite (Hp x prev) by (repeat constructor). simpl.
  destruct (ltb x prev) eqn:Hlt.
  { exists 0. split_and!; [done|lia|]. repeat constructor. }
  destruct (IH x) as (n & -> & Hn & Hs).
  { intros a b Ha Hb. apply Hp; by right. }
  exists (S n). simpl. split_and!; [done|lia|].
  apply StronglySorted_cons in Hs as Hs'. destruct Hs' as [Hall _].
  constructor; [done|]. constructor; [done|].
  eapply Forall_impl; [done|]. intros y Hy. by eapply le_trans.
Qed.

Lemma run_descending_spec rest : ∀ prev,
  pure_on (prev :: rest) →
  ∃ n, run_descending lt prev rest = Ok n ∧ n ≤ length rest ∧
       StronglySorted (λ a b, ltb b a = true) (prev :: take n rest).
Proof.
  induction rest as [|x rest IH]; intros prev Hp; simpl.
  { exists 0. split_and!; [done|lia|]. repeat constructor. }
  rewrite (Hp x prev) by (repeat constructor). simpl.
  destruct (ltb x prev) eqn:Hlt.
  2:{ exists 0. split_and!; [done|lia|]. repeat constructor. }
  destruct (IH x) as (n & -> & Hn & Hs).
  { intros a b Ha Hb. apply Hp; by right. }
  exists (S n). simpl. split_and!; [done|lia|].
  apply StronglySorted_cons in Hs as Hs'. destruct Hs' as [Hall _].
  constructor; [done|]. constructor; [done|].
  eapply Forall_impl; [done|]. intros y Hy. simpl in Hy. by eapply sw_trans.
Qed.

Lemma descending_reverse l :
  StronglySorted (λ a b, ltb b a = true) l → StronglySorted le (reverse l).
Proof.
  induction 1 as [|x l Hs IH Hall]; [constructor|].
  rewrite reverse_cons. apply StronglySorted_app. split_and!; [|done|repeat constructor].
  intros a b Ha Hb. apply list_elem_of_singleton in Hb as ->.
  rewrite elem_of_reverse in Ha. rewrite Forall_forall in Hall.
  unfold not_after. apply (sw_asym _ Hsw). by apply Hall.
Qed.

Lemma count_run_spec l :
  pure_on l →
  ∃ n descending, count_run lt l = Ok (n, descending) ∧ n ≤ length l ∧
    StronglySorted le (if descending : bool then reverse (take n l) else take n l).
Proof.
  intros Hp. destruct l as [|x0 [|x1 rest]]; simpl.
  { exists 0, false. split_and!; [done|lia|constructor]. }
  { exists 1, false. split_and!; [done|lia|repeat constructor]. }
  rewrite (Hp x1 x0) by (repeat constructor). simpl.
  destruct (ltb x1 x0) eqn:Hlt.
  - destruct (run_descending_spec rest x1) as (n & -> & Hn & Hs).
    { intros a b Ha Hb. apply Hp; by right. }
    exists (S (S n)), true. simpl. split_and!; [done|lia|].
    apply descending_reverse. constructor; [done|].
    apply StronglySorted_cons in Hs as [Hall _]. constructor; [done|].
    eapply Forall_impl; [done|]. intros y Hy. simpl in Hy. by eapply sw_trans.
  - destruct (run_ascending_spec rest x1) as (n & -> & Hn & Hs).
    { intros a b Ha Hb. apply Hp; by right. }
    exists (S (S n)), false. simpl. split_and!; [done|lia|].
    constructor; [done|].
    apply StronglySorted_cons in Hs as [Hall _]. constructor; [done|].
    eapply Forall_impl; [done|]. intros y Hy. by eapply le_trans.
Qed.

Lemma sorted_lookup (l : list A) i j x y :
  StronglySorted le l → i ≤ j → l !! i = Some x → l !! j = Some y → le x y.
Proof.
  intros Hs. revert i j. induction Hs as [|a l Hs IH Hall]; intros i j Hij Hi Hj; [done|].
  destruct i as [|i], j as [|j]; simpl in *.
  - assert (x = y) as -> by congruence. apply sw_irrefl.
  - injection Hi as ->. rewrite Forall_forall in Hall. apply Hall.
    by eapply list_elem_of_lookup_2.
  - lia.
  - apply (IH i j); [lia|done|done].
Qed.

Lemma bisect_spec sorted pivot :
  StronglySorted le sorted →
  (∀ x, x ∈ sorted → lt pivot x = Ok (ltb pivot x)) →
  ∀ steps l r,
    l ≤ r → r ≤ length sorted → r - l ≤ steps →
    (∀ i x, i < l → sorted !! i = Some x → ltb pivot x = false) →
    (∀ i x, r ≤ i → sorted !! i = Some x → ltb pivot x = true) →
    ∃ k, bisect lt steps sorted pivot l r = Ok k ∧ k ≤ length sorted ∧
         (∀ i x, i < k → sorted !! i = Some x → ltb pivot x = false) ∧
         (∀ i x, k ≤ i → sorted !! i = Some x → ltb pivot x = true).
Proof.
  intros Hs Hp. induction steps as [|steps IH]; intros l r Hlr Hr Hsteps Hlo Hhi.
  { exists l. assert (r = l) as -> by lia. split_and!; try done. }
  cbn [bisect]. set (p := l + (r - l) / 2).
  assert (Hpl : l ≤ p) by (subst p; lia).
  assert (Hpr : l < r → p < r).
  { intros Hlt. subst p. pose proof (Nat.div_lt (r - l) 2). lia. }
  destruct (sorted !! p) as [x|] eqn:Hx.
  2:{ exists l. apply lookup_ge_None in Hx.
      assert (l = r) as -> by (destruct (decide (l < r)) as [Hlt|]; [specialize (Hpr Hlt)|]; lia).
      split_and!; try done. }
  rewrite (Hp x) by (by eapply list_elem_of_lookup_2). simpl.
  apply lookup_lt_Some in Hx as Hplen.
  destruct (ltb pivot x) eqn:Hb.
  - assert (Hhi' : ∀ i y, p ≤ i → sorted !! i = Some y → ltb pivot y = true).
    { intros i y Hi Hy. eapply lt_le_trans; [done|]. by eapply (sorted_lookup sorted p i). }
    destruct (l <? p) eqn:Hlp.
    + apply Nat.ltb_lt in Hlp. apply IH; try done; try lia.
      subst p. pose proof (Nat.div_lt (r - l) 2).
      assert (r - l ≠ 0) by (intros H0; rewrite H0 in Hlp; simpl in Hlp; lia). lia.
    + apply Nat.ltb_ge in Hlp. exists l. assert (l = p) as Hlp' by lia.
      split_and!; [done|lia|apply Hlo|]. intros i y Hi. apply Hhi'. lia.
  - assert (Hlo' : ∀ i y, i < S p → sorted !! i = Some y → ltb pivot y = false).
    { intros i y Hi Hy. apply (le_trans y x pivot); [|done].
      eapply (sorted_lookup sorted i p); [done|lia|done|done]. }
    destruct (S p <? r) eqn:Hpr'.
    + apply Nat.ltb_lt in Hpr'. apply IH; try done; lia.
    + apply Nat.ltb_ge in Hpr'. exists (S p). split_and!; [done|lia|apply Hlo'|].
      intros i y Hi. apply Hhi. lia.
Qed.

Lemma binary_insert_sorted sorted pivot :
  StronglySorted le sorted →
  (∀ x, x ∈ sorted → lt pivot x = Ok (ltb pivot x)) →
  ∃ l, binary_insert lt sorted pivot = Ok l ∧ StronglySorted le l.
Proof.
  intros Hs Hp. unfold binary_insert.
  destruct (bisect_spec sorted pivot Hs Hp (length sorted) 0 (length sorted))
    as (k & -> & Hk & Hlo & Hhi); try lia.
  { intros i x Hi Hx. apply lookup_lt_Some in Hx. lia. }
  simpl. eexists. split; [done|].
  rewrite <- (take_drop k sorted) in Hs. apply StronglySorted_app in Hs as (Hcross & Hs1 & Hs2).
  apply StronglySorted_app. split_and!; [|done|].
  - intros a b Ha Hb. apply elem_of_cons in Hb as [->|Hb]; [|by apply Hcross].
    apply list_elem_of_lookup in Ha as [i Hi].
    apply lookup_take_Some in Hi as [Hi Hik]. by eapply Hlo.
  - constructor; [done|]. apply Forall_forall. intros b Hb.
    apply list_elem_of_lookup in Hb as [i Hi]. rewrite lookup_drop in Hi.
    unfold not_after. apply (sw_asym _ Hsw). eapply Hhi; [|done]. lia.
Qed.

Lemma insert_all_sorted rest : ∀ run,
  StronglySorted le run → pure_on (run ++ rest) →
  ∃ l, rfold (binary_insert lt) rest run = Ok l ∧ StronglySorted le l.
Proof.
  induction rest as [|x rest IH]; intros run Hs Hp; simpl; [by exists run|].
  destruct (binary_insert_sorted run x Hs) as (l & Hl & Hsl).
  { intros y Hy. apply Hp; apply elem_of_app; [right; by left|by left]. }
  rewrite Hl. simpl. apply IH; [done|].
  apply binary_insert_perm in Hl.
  assert (Hsub : ∀ a, a ∈ l ++ rest → a ∈ run ++ x :: rest).
  { intros a. rewrite !elem_of_app, elem_of_cons, Hl, elem_of_app, list_elem_of_singleton.
    tauto. }
  intros a b Ha Hb. apply Hp; by apply Hsub.
Qed.

(** With a comparison that is a strict weak order and does not raise on
    the items, the sort returns the items in order. *)
Lemma list_sort_sorted l :
  pure_on l →
  ∃ l', list_sort lt l = Ok l' ∧ l' ≡ₚ l ∧ StronglySorted le l'.
Proof.
  intros Hp.
  assert (∃ l', list_sort lt l = Ok l' ∧ StronglySorted le l') as (l' & Hl & Hs).
  { unfold list_sort. destruct (length l <? 2) eqn:Hlen.
    - exists l. split; [done|]. destruct l as [|x [|y l]]; [| |done]; repeat constructor.
    - destruct (count_run_spec l Hp) as (n & descending & -> & Hn & Hs). simpl.
      apply insert_all_sorted; [done|].
      assert (Hsub : ∀ a, a ∈ (if descending then reverse (take n l) else take n l)
                            ++ drop n l → a ∈ l).
      { intros a Ha. rewrite <- (take_drop n l). revert Ha. rewrite !elem_of_app.
        destruct descending; [rewrite elem_of_reverse|]; tauto. }
      intros a b Ha Hb. apply Hp; by apply Hsub. }
  exists l'. split_and!; try done. by eapply list_sort_perm.
Qed.
End sort_sorted.

(** ** The order of independent dependencies *)

Lemma ascii_compare_lt_trans a b c :
  Ascii.compare a b = Lt → Ascii.compare b c = Lt → Ascii.compare a c = Lt.
Proof.
  unfold Ascii.compare. rewrite !N.compare_lt_iff. apply N.lt_trans.
Qed.

Lemma string_compare_lt_trans s1 : ∀ s2 s3,
  String.compare s1 s2 = Lt → String.compare s2 s3 = Lt → String.compare s1 s3 = Lt.
Proof.
  induction s1 as [|a s1 IH]; intros [|b s2] [|c s3]; simpl; try done.
  destruct (Ascii.compare a b) eqn:Hab; try done.
  - apply Ascii.compare_eq_iff in Hab as ->.
    destruct (Ascii.compare b c); try done. apply IH.
  - destruct (Ascii.compare b c) eqn:Hbc; try done.
    + apply Ascii.compare_eq_iff in Hbc as ->. by rewrite Hab.
    + by rewrite (ascii_compare_lt_trans a b c).
Qed.

Lemma string_ltb_strict_weak : strict_weak String.ltb.
Proof.
  split; [apply string_ltb_asym|].
  intros x y z Hxy Hyz. destruct (String.ltb x z) eqn:Hxz; [|done].
  unfold String.ltb in *.
  destruct (String.compare x z) eqn:Cxz; try done.
  destruct (String.compare x y) eqn:Cxy; try done.
  - apply String.compare_eq_iff in Cxy as ->. by rewrite Cxz in Hyz.
  - rewrite String.compare_antisym in Cxy.
    destruct (String.compare y x) eqn:Cyx; try done.
    by rewrite (string_compare_lt_trans y x z) in Hyz.
Qed.

Lemma strict_weak_on {A B} (f : A → B) (ltb : B → B → bool) :
  strict_weak ltb → strict_weak (λ a b, ltb (f a) (f b)).
Proof. intros [Ha Hn]. split; eauto. Qed.

Lemma lexb_strict_weak {A} (lt1 lt2 : A → A → bool) :
  strict_weak lt1 → strict_weak lt2 → strict_weak (lexb lt1 lt2).
Proof.
  intros [Ha1 Hn1] [Ha2 Hn2]. split; unfold lexb.
  - intros x y. destruct (lt1 x y) eqn:H1; simpl.
    + intros _. by rewrite (Ha1 x y H1).
    + destruct (lt1 y x) eqn:H1'; simpl; [done|].
      intros H2. by rewrite (Ha2 x y H2).
  - intros x y z Hxy Hyz.
    apply orb_false_iff in Hxy as [Hxy1 Hxy2], Hyz as [Hyz1 Hyz2].
    rewrite (Hn1 x y z Hxy1 Hyz1). simpl.
    destruct (lt1 z x) eqn:Hzx; [done|]. simpl.
    destruct (lt1 y x) eqn:Hyx.
    { by rewrite (Hn1 y z x Hyz1 Hzx) in Hyx. }
    destruct (lt1 z y) eqn:Hzy.
    { by rewrite (Hn1 z x y Hzx Hxy1) in Hzy. }
    simpl in *. by apply (Hn2 x y z).
Qed.

Lemma junction_before_strict_weak : strict_weak junction_before.
Proof.
  destruct string_ltb_strict_weak as [Ha Hn]. split; unfold junction_before.
  - intros x y. destruct (junction_key x), (junction_key y); try done. apply Ha.
  - intros x y z.
    destruct (junction_key x), (junction_key y), (junction_key z); try done. apply Hn.
Qed.

Lemma dep_before_strict_weak : strict_weak dep_before.
Proof.
  unfold dep_before. apply lexb_strict_weak.
  - split.
    + intros x y. by destruct (runtime_only x), (runtime_only y).
    + intros x y z. by destruct (runtime_only x), (runtime_only y), (runtime_only z).
  - apply lexb_strict_weak; [|apply junction_before_strict_weak].
    apply (strict_weak_on dep_name), string_ltb_strict_weak.
Qed.

Lemma cmp_name_junction_before dep_a dep_b :
  (cmp_name_junction dep_a dep_b <? 0)%Z
  = lexb (λ a b, String.ltb (dep_name a) (dep_name b)) junction_before dep_a dep_b.
Proof.
  unfold cmp_name_junction, lexb, junction_before, junction_key.
  destruct (String.ltb (dep_name dep_b) (dep_name dep_a)) eqn:Hba.
  { by rewrite (string_ltb_asym _ _ Hba). }
  destruct (String.ltb (dep_name dep_a) (dep_name dep_b)) eqn:Hab; [done|]. simpl.
  destruct (truthy_str (dep_junction dep_a)) eqn:Ha,
           (truthy_str (dep_junction dep_b)) eqn:Hb; simpl; try done.
  - destruct (dep_junction dep_a) as [ja|], (dep_junction dep_b) as [jb|]; try done. simpl.
    destruct (String.ltb jb ja) eqn:Hj; [by rewrite (string_ltb_asym _ _ Hj)|].
    by destruct (String.ltb ja jb).
  - by destruct (dep_junction dep_a).
Qed.

Lemma dependency_lt_independent fuel st self dep_a dep_b :
  independent fuel st self dep_a dep_b = true →
  independent fuel st self dep_b dep_a = true →
  dependency_lt fuel st self dep_a dep_b = Ok (dep_before dep_a dep_b).
Proof.
  unfold independent, dependency_lt, dependency_cmp.
  destruct (_get_loader_for_dep st self dep_a) as [la|]; [|done].
  destruct (get_element_for_dep st self dep_a) as [ea|]; [|done].
  destruct (get_element_for_dep st self dep_b) as [eb|]; [|done].
  cbn [rbind].
  destruct (depends fuel st (default 0 la) ea eb) as [[]|]; try done. intros _.
  destruct (_get_loader_for_dep st self dep_b) as [lb|]; [|done]. cbn [rbind].
  destruct (depends fuel st (default 0 lb) eb ea) as [[]|]; try done. intros _.
  cbn [rbind]. f_equal.
  unfold dep_before at 1. unfold lexb at 1. rewrite <- cmp_name_junction_before.
  unfold runtime_only.
  destruct (dep_type dep_a), (dep_type dep_b); simpl; try done;
    repeat case_decide; try done.
Qed.

(** X18. When no two of the direct dependencies of an element depend on
    each other, and they are all loaded, the sort of [_sort_dependencies]
    returns and puts them in order: those needed for the build before those
    needed at run time only, then by name, then a dependency through a
    junction before one of the same name without, and two through junctions
    by the name of the junction.  Nothing else changes. *)
Theorem sort_deps_independent_ordered fuel st self name L element :
  loaders st !! self = Some L →
  _elements L !! name = Some element →
  forallb (λ dep_a, forallb (independent fuel st self dep_a) (le_deps element))
    (le_deps element) = true →
  ∃ sorted,
    sort_deps fuel self name st
    = (Ok tt, set_loader st self
                (set_elements L (<[name := set_deps element sorted]> (_elements L)))) ∧
    sorted ≡ₚ le_deps element ∧
    StronglySorted (not_after dep_before) sorted.
Proof.
  intros HL He Hind.
  destruct (list_sort_sorted (dependency_lt fuel st self) dep_before
              dep_before_strict_weak (le_deps element)) as (sorted & Hs & Hperm & Hsorted).
  { intros a b Ha Hb. rewrite forallb_forall in Hind.
    apply dependency_lt_independent.
    - specialize (Hind a (proj1 (list_elem_of_In _ _) Ha)).
      rewrite forallb_forall in Hind. apply Hind. by apply list_elem_of_In.
    - specialize (Hind b (proj1 (list_elem_of_In _ _) Hb)).
      rewrite forallb_forall in Hind. apply Hind. by apply list_elem_of_In. }
  exists sorted. split_and!; try done.
  unfold sort_deps, deref. rewrite HL. cbn [rbind]. unfold lookup_element. rewrite He.
  cbn [rbind]. by rewrite Hs.
Qed.

Lemma sort_deps_independent_ordered_witness :
  ∃ sorted,
    sort_deps 6 0 "a.bst" store_diamond
    = (Ok tt, set_loader store_diamond 0
                (set_elements
                   (top_loader ["a.bst"]
                      [top_element "stack" "a.bst" [plain_dep "b.bst"; plain_dep "c.bst"];
                       top_element "autotools" "b.bst" [plain_dep "d.bst"];
                       top_element "autotools" "c.bst" [plain_dep "d.bst"];
                       top_element "autotools" "d.bst" []])
                   (<["a.bst" := set_deps
                        (top_element "stack" "a.bst" [plain_dep "b.bst"; plain_dep "c.bst"])
                        sorted]>
                      (_elements
                         (top_loader ["a.bst"]
                            [top_element "stack" "a.bst"
                               [plain_dep "b.bst"; plain_dep "c.bst"];
                             top_element "autotools" "b.bst" [plain_dep "d.bst"];
                             top_element "autotools" "c.bst" [plain_dep "d.bst"];
                             top_element "autotools" "d.bst" []]))))) ∧
    sorted ≡ₚ [plain_dep "b.bst"; plain_dep "c.bst"] ∧
    StronglySorted (not_after dep_before) sorted.
Proof.
  apply (sort_deps_independent_ordered 6 store_diamond 0 "a.bst").
  - reflexivity.
  - vm_compute. reflexivity.
  - vm_compute. reflexivity.
Defined.

(** ** The first pass and the collection only add *)

Lemma meta_extends_refl m : meta_extends m m.
Proof. by split_and!. Qed.

Lemma meta_extends_trans m1 m2 m3 :
  meta_extends m1 m2 → meta_extends m2 m3 → meta_extends m1 m3.
Proof.
  intros (? & ? & ? & ? & ? & ?) (? & ? & ? & ? & ? & ?).
  split_and!; try congruence; by etrans.
Qed.

Lemma grows_refl st : grows st st.
Proof.
  split_and!; try done.
  - intros a m Hm. exists m. split; [done|apply meta_extends_refl].
  - intros a L HL. exists L. by split_and!.
Qed.

Lemma grows_trans st1 st2 st3 : grows st1 st2 → grows st2 st3 → grows st1 st3.
Proof.
  intros (Hr & Hd & Hm & Hl) (Hr' & Hd' & Hm' & Hl'). split_and!.
  - congruence.
  - auto.
  - intros a m Ha. destruct (Hm a m Ha) as (m2 & Ha2 & He2).
    destruct (Hm' a m2 Ha2) as (m3 & Ha3 & He3). exists m3. split; [done|].
    by eapply meta_extends_trans.
  - intros a L Ha. destruct (Hl a L Ha) as (L2 & Ha2 & Hf2 & He2 & Hc2 & Hk2).
    destruct (Hl' a L2 Ha2) as (L3 & Ha3 & Hf3 & He3 & Hc3 & Hk3).
    exists L3. split_and!; try done; try congruence; try (by etrans). auto.
Qed.

(** A change of one loader that keeps what it had. *)
Lemma grows_set_loader st a L L' :
  loaders st !! a = Some L → frame_of L' = frame_of L →
  _elements L ⊆ _elements L' → _meta_elements L ⊆ _meta_elements L' →
  (∀ k, is_Some (dict_get k (_loaders L)) → is_Some (dict_get k (_loaders L'))) →
  grows st (set_loader st a L').
Proof.
  intros HL Hf He Hc Hk. split_and!; try done.
  - intros b m Hm. exists m. split; [done|apply meta_extends_refl].
  - intros b Lb Hb. unfold set_loader. simpl.
    destruct (decide (b = a)) as [->|Hne].
    + exists L'. rewrite list_lookup_insert_eq by (by eapply lookup_lt_Some).
      assert (Lb = L) as -> by congruence. by split_and!.
    + exists Lb. rewrite list_lookup_insert_ne by done. by split_and!.
Qed.

Lemma dict_set_keeps_keys {V} k k' (v : V) d :
  is_Some (dict_get k' d) → is_Some (dict_get k' (dict_set k v d)).
Proof.
  induction d as [|[k0 v0] d IH]; simpl; [by intros []|].
  destruct (String.eqb k k0) eqn:Hk; simpl.
  - by destruct (String.eqb k' k0).
  - destruct (String.eqb k' k0); [done|]. apply IH.
Qed.

Lemma grows_store_loader self filename loader : keeps grows (store_loader self filename loader).
Proof.
  intros st. unfold store_loader, deref.
  destruct (loaders st !! self) as [L|] eqn:HL; [|apply grows_refl]. simpl.
  eapply grows_set_loader; try done. intros k. apply dict_set_keeps_keys.
Qed.

Lemma grows_new_meta m : keeps grows (new_meta m).
Proof.
  intros st. unfold new_meta. simpl. split_and!; try done.
  - intros a m0 Ha. exists m0. simpl. split; [|apply meta_extends_refl].
    by apply lookup_app_l_Some.
  - intros a L HL. exists L. by split_and!.
Qed.

Lemma grows_append_dependency a d b : keeps grows (append_dependency a d b).
Proof.
  intros st. unfold append_dependency.
  destruct (metas st !! a) as [m|] eqn:Hm; [|apply grows_refl]. simpl.
  split_and!; try done.
  - intros c m0 Hc. simpl. destruct (decide (c = a)) as [->|Hne].
    + rewrite list_lookup_insert_eq by (by eapply lookup_lt_Some).
      assert (m0 = m) as -> by congruence. eexists. split; [done|].
      unfold add_dependency. split_and!; simpl; try done.
      * case_decide; [by apply prefix_app_r|done].
      * case_decide; [by apply prefix_app_r|done].
    + rewrite list_lookup_insert_ne by done. exists m0.
      split; [done|apply meta_extends_refl].
  - intros c L HL. exists L. by split_and!.
Qed.

Lemma grows_makedirs path : keeps grows (makedirs path).
Proof.
  intros st. unfold makedirs. simpl. case_bool_decide; [apply grows_refl|].
  split_and!; try done.
  - intros p Hp. simpl. apply elem_of_app. by left.
  - intros a m Ha. exists m. split; [done|apply meta_extends_refl].
  - intros a L HL. exists L. by split_and!.
Qed.

Lemma grows_mkdtemp W prefix dir : keeps grows (mkdtemp W prefix dir).
Proof.
  intros st. unfold mkdtemp. simpl. split_and!; try done.
  - intros p Hp. simpl. apply elem_of_app. by left.
  - intros a m Ha. exists m. split; [done|apply meta_extends_refl].
  - intros a L HL. exists L. by split_and!.
Qed.

Lemma grows_init abspath context p filenames parent tempdir :
  keeps grows (__init__ abspath context p filenames parent tempdir).
Proof.
  intros st. unfold __init__.
  destruct (check_targets_relative _ _) as [u|e]; [|apply grows_refl].
  simpl. split_and!; try done.
  - intros a m Ha. exists m. split; [done|apply meta_extends_refl].
  - intros a L HL. exists L. simpl. split_and!; try done. by apply lookup_app_l_Some.
Qed.

Ltac grows_step :=
  match goal with
  | |- keeps grows (new_meta _) => apply grows_new_meta
  | |- keeps grows (append_dependency _ _ _) => apply grows_append_dependency
  | |- keeps grows (store_loader _ _ _) => apply grows_store_loader
  | |- keeps grows (mkdtemp _ _ _) => apply grows_mkdtemp
  | |- keeps grows (makedirs _) => apply grows_makedirs
  | |- keeps grows (__init__ _ _ _ _ _ _) => apply grows_init
  | |- _ => keeps_step grows_refl grows_trans
  end.

Lemma grows_collect_element fuel :
  ∀ self name, keeps grows (_collect_element fuel self name).
Proof.
  induction fuel as [|fuel IH]; intros self name st; [apply grows_refl|].
  cbn [_collect_element]. unfold mbind at 1, mlift at 1, deref.
  destruct (loaders st !! self) as [L|] eqn:HL; [|apply grows_refl].
  unfold mbind at 1, mlift at 1.
  destruct (lookup_element L name) as [element|]; [|apply grows_refl].
  destruct (_meta_elements L !! name) as [cached|] eqn:Hc; [apply grows_refl|].
  destruct (le_node element) as [node|]; [|apply grows_refl].
  unfold mbind at 1, new_meta at 1. unfold mbind at 1, cache_meta at 1, deref.
  cbn [loaders set_metas]. rewrite HL.
  eapply grows_trans; [|apply (keeps_bind _ grows_trans)].
  - eapply grows_trans; [eapply (grows_new_meta _ st)|].
    eapply (grows_set_loader _ _ L); try done.
    simpl. by apply insert_subseteq.
  - apply (keeps_for _ grows_refl grows_trans). intros dep.
    unfold collect_dependency. repeat first [apply IH | grows_step].
  - intros _. apply (keeps_ret _ grows_refl).
Qed.

Lemma grows_open_junction W fuel self filename :
  keeps grows (open_junction W fuel self filename).
Proof.
  unfold open_junction. repeat first [apply grows_collect_element | grows_step].
Qed.

Lemma grows_load_file_get_loader W fuel :
  (∀ self filename, keeps grows (_load_file W fuel self filename)) ∧
  (∀ self filename level, keeps grows (_get_loader W fuel self filename level)).
Proof.
  induction fuel as [|fuel [IHl IHg]]; [split; intros; intros st; apply grows_refl|].
  split.
  - intros self filename st. cbn [_load_file]. unfold mbind at 1, mlift at 1, deref.
    destruct (loaders st !! self) as [L|] eqn:HL; [|apply grows_refl].
    destruct (_elements L !! filename) as [cached|] eqn:Hc; [apply grows_refl|].
    unfold mbind at 1, mlift at 1.
    destruct (yaml_load W (_basedir L) filename) as [node|]; [|apply grows_refl].
    unfold mbind at 1, store_element at 1, deref. rewrite HL.
    eapply grows_trans; [|apply (keeps_bind _ grows_trans)].
    + eapply (grows_set_loader _ _ L); try done. simpl. by apply insert_subseteq.
    + apply (keeps_for _ grows_refl grows_trans). intros dep.
      repeat first [apply IHl | apply IHg | grows_step].
    + intros _. apply (keeps_ret _ grows_refl).
  - intros self filename level. cbn [_get_loader].
    repeat first [apply IHg | grows_step].
    intros st. specialize (IHl self filename st).
    destruct (_load_file W fuel self filename st) as [[el|ex] st1]; simpl in *.
    + eapply grows_trans; [done|]. apply grows_open_junction.
    + destruct ex as [[] msg| | | | |]; try done.
      destruct (level =? 0); [done|].
      eapply grows_trans; [done|].
      apply (keeps_bind _ grows_trans (store_loader self filename None) (λ _, mret None));
        [apply grows_store_loader|intros; apply (keeps_ret _ grows_refl)].
Qed.


(** X9. Once [_load_file] has returned an element, asking for the same
    file again gives that element and changes nothing, whatever was loaded
    on the way. *)
Theorem load_file_again W fuel self filename st element st' :
  _load_file W fuel self filename st = (Ok element, st') →
  ∀ fuel', _load_file W (S fuel') self filename st' = (Ok element, st').
Proof.
  destruct fuel as [|fuel]; [done|]. intros Hrun fuel'.
  assert (∃ L', loaders st' !! self = Some L' ∧ _elements L' !! filename = Some element)
    as (L' & HL' & He').
  { revert Hrun. cbn [_load_file]. unfold mbind at 1, mlift at 1, deref.
    destruct (loaders st !! self) as [L|] eqn:HL; [|done].
    destruct (_elements L !! filename) as [cached|] eqn:Hc.
    { intros [= <- <-]. eauto. }
    unfold mbind at 1, mlift at 1.
    destruct (yaml_load W (_basedir L) filename) as [node|]; [|done].
    unfold mbind at 1, store_element at 1, deref. rewrite HL.
    set (st1 := set_loader st self _). unfold mbind at 1.
    match goal with |- context [mfor ?xs ?body st1] =>
      destruct (mfor xs body st1) as [[[]|e] st2] eqn:Hfor; [|done];
      assert (Hg : grows st1 st2)
    end.
    { match type of Hfor with ?m st1 = _ =>
        assert (Hk : keeps grows m); [|specialize (Hk st1); by rewrite Hfor in Hk] end.
      apply (keeps_for _ grows_refl grows_trans). intros dep.
      pose proof (grows_load_file_get_loader W fuel) as [IHl IHg].
      repeat first [apply IHl | apply IHg | grows_step]. }
    intros [= <- <-].
    destruct Hg as (_ & _ & _ & Hl).
    destruct (Hl self (set_elements L (<[filename:=new_load_element node filename L]>
                                           (_elements L)))) as (L' & HL' & _ & He & _).
    { subst st1. by eapply set_loader_lookup. }
    exists L'. split; [done|]. eapply lookup_weaken; [|done]. simpl.
    apply lookup_insert_eq. }
  cbn [_load_file]. unfold mbind at 1, mlift at 1, deref. rewrite HL', He'. done.
Qed.

Lemma load_file_again_witness :
  let first := _load_file world_acyclic 10 0 "a.bst" (store_targets ["a.bst"]) in
  _load_file world_acyclic 3 0 "a.bst" first.2
  = (Ok (new_load_element
           (element_node [plain_dep "b.bst"; plain_dep "c.bst"]) "a.bst"
           (mkLoader example_project example_context "/top/elements" ["a.bst"]
              None None ∅ ∅ [])),
     first.2).
Proof.
  intros first.
  apply (load_file_again world_acyclic 10 0 "a.bst" (store_targets ["a.bst"])).
  vm_compute. reflexivity.
Defined.

(** ** The loaders of subprojects *)

Lemma same_frames_refl st : same_frames st st.
Proof. done. Qed.

Lemma same_frames_trans st1 st2 st3 :
  same_frames st1 st2 → same_frames st2 st3 → same_frames st1 st3.
Proof. unfold same_frames. congruence. Qed.

Lemma same_frames_length st st' :
  same_frames st st' → length (loaders st') = length (loaders st).
Proof. intros H. by rewrite <- (length_fmap frame_of), H, length_fmap. Qed.

Lemma same_frames_lookup st st' a L :
  same_frames st st' → loaders st !! a = Some L →
  ∃ L', loaders st' !! a = Some L' ∧ frame_of L' = frame_of L.
Proof.
  intros H HL. assert (Hf : (frame_of <$> loaders st') !! a = Some (frame_of L)).
  { rewrite H, list_lookup_fmap, HL. done. }
  rewrite list_lookup_fmap in Hf. destruct (loaders st' !! a) as [L'|]; [|done].
  exists L'. split; [done|]. simpl in Hf. congruence.
Qed.

Lemma same_frames_ext st st' : same_frames st st' → ext st st'.
Proof. intros H a L HL. by eapply same_frames_lookup. Qed.

Lemma same_frames_same_loaders st st' : loaders st' = loaders st → same_frames st st'.
Proof. unfold same_frames. by intros ->. Qed.

Lemma same_frames_set_loader st a L L' :
  loaders st !! a = Some L → frame_of L' = frame_of L → same_frames st (set_loader st a L').
Proof.
  intros HL Hf. unfold same_frames, set_loader. simpl.
  rewrite list_fmap_insert, Hf. apply list_insert_id.
  by rewrite list_lookup_fmap, HL.
Qed.

Lemma same_frames_update_loader (f : Loader → Loader) self :
  (∀ L, frame_of (f L) = frame_of L) →
  keeps same_frames (λ st, match deref st (Some self) with
                           | Ok L => (Ok tt, set_loader st self (f L))
                           | Raise e => (Raise e, st)
                           end).
Proof.
  intros Hf st. unfold deref.
  destruct (loaders st !! self) as [L|] eqn:HL; [|done].
  by eapply same_frames_set_loader.
Qed.

Lemma same_frames_append_dependency a d b : keeps same_frames (append_dependency a d b).
Proof. intros st. unfold append_dependency. by destruct (metas st !! a). Qed.

Lemma same_frames_sort_deps fuel self name : keeps same_frames (sort_deps fuel self name).
Proof.
  intros st. unfold sort_deps, deref.
  destruct (loaders st !! self) as [L|] eqn:HL; [|done]. simpl.
  destruct (lookup_element L name) as [e|]; [|done]. simpl.
  destruct (list_sort _ _) as [sorted|]; [|done]. simpl.
  by eapply same_frames_set_loader.
Qed.

Ltac frames_step :=
  match goal with
  | |- keeps same_frames (new_meta _) => by intros ?
  | |- keeps same_frames (cache_meta _ _ _) =>
      by apply (same_frames_update_loader (λ L, set_meta_elements L _))
  | |- keeps same_frames (install_dummy _) =>
      by apply (same_frames_update_loader (λ L, set_elements L _))
  | |- keeps same_frames (append_dependency _ _ _) => apply same_frames_append_dependency
  | |- keeps same_frames (sort_deps _ _ _) => apply same_frames_sort_deps
  | |- _ => keeps_step same_frames_refl same_frames_trans
  end.

Lemma same_frames_collect_element fuel :
  ∀ self name, keeps same_frames (_collect_element fuel self name).
Proof.
  induction fuel as [|fuel IH]; intros self name; cbn [_collect_element];
    [by intros ?|].
  repeat first [apply IH | frames_step]. unfold collect_dependency.
  repeat first [apply IH | frames_step].
Qed.

Lemma same_frames_sort_dependencies fuel :
  ∀ self name visited, keeps same_frames (_sort_dependencies fuel self name visited).
Proof.
  induction fuel as [|fuel IH]; intros self name visited; cbn [_sort_dependencies];
    repeat first [apply IH | frames_step].
Qed.

(** *** Paths *)

Lemma prefix_isabs x : String.prefix "/" x = isabs x.
Proof.
  destruct x as [|c x]; [done|]. simpl. destruct (ascii_dec "/" c) as [<-|Hne].
  - by destruct x.
  - destruct c as [[] [] [] [] [] [] [] []]; done.
Qed.

Lemma prefix_app_cancel b s t : String.prefix (b +:+ s) (b +:+ t) = String.prefix s t.
Proof.
  induction b as [|c b IH]; [done|]. simpl. by destruct (ascii_dec c c).
Qed.

Lemma append_assoc (a b c : string) : (a +:+ b) +:+ c = a +:+ b +:+ c.
Proof.
  induction a as [|x a IH]; [done|].
  change (String x ((a +:+ b) +:+ c) = String x (a +:+ b +:+ c)). by f_equal.
Qed.

Lemma isabs_mkdtemp_name n s : isabs n = false → isabs ((n +:+ "-") +:+ s) = false.
Proof. destruct n as [|c n]; [done|]. done. Qed.

(** The temporary directory [os.path.join(builddir, name)] passes the test
    of [cleanup] when, and only when, [builddir] is not empty and does not
    end with a separator. *)
Lemma path_join_under_builddir b x :
  isabs x = false →
  String.prefix (b +:+ "/") (path_join b x) = true ↔ b ≠ "" ∧ trailing_slash b = false.
Proof.
  intros Hx. unfold path_join. rewrite Hx. fold (trailing_slash b).
  destruct (String.eqb b "") eqn:Hb.
  - apply String.eqb_eq in Hb as ->. simpl. rewrite prefix_isabs, Hx. split; [done|].
    by intros [? _].
  - apply String.eqb_neq in Hb. destruct (trailing_slash b).
    + rewrite prefix_app_cancel, prefix_isabs, Hx. split; [done|]. by intros [_ ?].
    + rewrite <- append_assoc, prefix_append. done.
Qed.

Lemma path_join_not_empty b x : x ≠ "" → path_join b x ≠ "".
Proof.
  intros Hx. unfold path_join. destruct (isabs x); [done|].
  destruct (String.eqb b "") eqn:Hb; [done|]. apply String.eqb_neq in Hb.
  destruct (String.prefix _ _); by destruct b.
Qed.

Lemma subproject_tempdir_under_builddir_gen W L :
  subproject_loader W L →
  (∀ me, isabs (normal_name W me) = false) →
  truthy_str (_tempdir L) = true ∧
  (under_builddir L = true ↔
   builddir (_context L) ≠ "" ∧ trailing_slash (builddir (_context L)) = false).
Proof.
  intros (_ & me & existing & Ht) Hn. unfold under_builddir. rewrite Ht. simpl. split.
  - apply negb_true_iff, String.eqb_neq, path_join_not_empty.
    destruct (normal_name W me); done.
  - apply path_join_under_builddir, isabs_mkdtemp_name, Hn.
Qed.

(** What the end of [_get_loader] does: either it raises, and the loaders
    are the ones there were; or it returns a new loader, made after all
    those there are, and entered under the name of the junction. *)
Lemma open_junction_cases W fuel self filename st r st' :
  open_junction W fuel self filename st = (r, st') →
  (∃ e, r = Raise e ∧ same_frames st st') ∨
  (∃ L L1 st1 me existing p,
     let basedir := path_join (builddir (_context L))
                      ((normal_name W me +:+ "-") +:+ mkdtemp_suffix W existing) in
     loaders st !! self = Some L ∧ same_frames st st1 ∧ grows st st1 ∧
     loaders st1 !! self = Some L1 ∧ basedir ∈ dirs st1 ∧
     r = Ok (Some (length (loaders st1))) ∧
     st' = set_loader
             (mkStore (loaders st1 ++ [junction_loader W L self filename basedir p])
                (metas st1) (dirs st1) (removed st1))
             self
             (set_loaders L1
                (dict_set filename (Some (length (loaders st1))) (_loaders L1)))).
Proof.
  unfold open_junction. unfold mbind at 1, mlift at 1, deref.
  destruct (loaders st !! self) as [L|] eqn:HL; [|intros [= <- <-]; left; by eexists].
  unfold mbind at 1.
  pose proof (same_frames_collect_element fuel self filename st) as Hfa.
  pose proof (grows_collect_element fuel self filename st) as Hga.
  destruct (_collect_element fuel self filename st) as [[m|e] sta]; simpl in Hfa, Hga;
    [|intros [= <- <-]; left; by eexists].
  unfold mbind at 1, mlift at 1.
  destruct (metas sta !! m) as [me|]; [|intros [= <- <-]; left; by eexists].
  destruct (negb (String.eqb (me_kind me) "junction"));
    [intros [= <- <-]; left; by eexists|].
  unfold mbind at 1, mlift at 1.
  destruct (preflight W me) as [[]|]; [|intros [= <- <-]; left; by eexists].
  unfold mbind at 1, mlift at 1.
  destruct (fetch_sources _ _ _) as [[]|]; [|intros [= <- <-]; left; by eexists].
  unfold mbind at 1.
  pose proof (grows_makedirs (builddir (_context L)) sta) as Hgb.
  assert (Hfb : same_frames sta (makedirs (builddir (_context L)) sta).2).
  { unfold makedirs. simpl. by case_bool_decide. }
  destruct (makedirs (builddir (_context L)) sta) as [[[]|] stb] eqn:Hmk;
    [|unfold makedirs in Hmk; done].
  simpl in Hgb, Hfb. unfold mbind at 1, mkdtemp at 1.
  set (basedir := path_join (builddir (_context L)) _).
  set (stc := mkStore (loaders stb) (metas stb) (dirs stb ++ [basedir]) (removed stb)).
  assert (Hfc : same_frames st stc).
  { eapply same_frames_trans; [done|]. eapply same_frames_trans; [done|]. done. }
  assert (Hgc : grows st stc).
  { eapply grows_trans; [done|]. eapply grows_trans; [done|].
    apply (grows_mkdtemp W (normal_name W me +:+ "-") (builddir (_context L)) stb). }
  destruct (load_project W _ me) as [p|e].
  - destruct (same_frames_lookup _ _ _ _ Hfc HL) as (L1 & HL1 & _).
    unfold mbind at 1, __init__. cbn [check_targets_relative].
    unfold mbind at 1, store_loader, deref. cbn [loaders].
    rewrite (lookup_app_l_Some _ _ _ _ HL1). intros [= <- <-]. right.
    exists L, L1, stc, me, (dirs stb), p. split_and!; try done.
    subst stc. simpl. apply elem_of_app. right. by apply list_elem_of_singleton.
  - destruct e as [[] msg| | | | |]; intros [= <- <-]; left; by eexists.
Qed.

Lemma adds_subprojects_refl W st : adds_subprojects W st st.
Proof. split; [apply ext_refl|]. intros a L' H1 H2. congruence. Qed.

Lemma adds_subprojects_trans W st1 st2 st3 :
  adds_subprojects W st1 st2 → adds_subprojects W st2 st3 → adds_subprojects W st1 st3.
Proof.
  intros [He12 Hn12] [He23 Hn23]. split; [by eapply ext_trans|].
  intros a L3 H3 H1. destruct (loaders st2 !! a) as [L2|] eqn:H2.
  - destruct (Hn12 a L2 H2 H1) as ((Ht & me & ex & Htmp) & parent & Lp & Hp & Hlt & HLp & Hc).
    destruct (He23 a L2 H2) as (L3' & H3' & Hf). assert (L3' = L3) as -> by congruence.
    destruct (He23 parent Lp HLp) as (Lp3 & HLp3 & Hfp).
    unfold frame_of in Hf, Hfp.
    injection Hf as Hf1 Hf2 Hf3 Hf4 Hf5 Hf6. injection Hfp as Hg1 Hg2 Hg3 Hg4 Hg5 Hg6.
    split.
    + split; [congruence|]. exists me, ex. congruence.
    + exists parent, Lp3. split_and!; try done; congruence.
  - by apply Hn23.
Qed.

Lemma adds_of_same_frames W st st' : same_frames st st' → adds_subprojects W st st'.
Proof.
  intros H. split; [by apply same_frames_ext|]. intros a L' H' Hnone.
  apply lookup_lt_Some in H'. apply lookup_ge_None in Hnone.
  apply same_frames_length in H. lia.
Qed.

Lemma adds_open_junction W fuel self filename :
  keeps (adds_subprojects W) (open_junction W fuel self filename).
Proof.
  intros st. destruct (open_junction W fuel self filename st) as [r st'] eqn:Hrun.
  apply open_junction_cases in Hrun
    as [(e & -> & Hf)|(L & L1 & st1 & me & ex & p & HL & Hf & _ & HL1 & _ & -> & ->)].
  { by apply adds_of_same_frames. }
  cbn [snd]. eapply adds_subprojects_trans; [by apply adds_of_same_frames|].
  set (new := junction_loader W L self filename _ p).
  set (st2 := mkStore (loaders st1 ++ [new]) (metas st1) (dirs st1) (removed st1)).
  eapply (adds_subprojects_trans _ _ st2).
  - split.
    + intros a La Ha. exists La. split; [|done]. subst st2. simpl.
      by apply lookup_app_l_Some.
    + intros a L' Ha Hnone. subst st2. simpl in Ha.
      apply lookup_ge_None in Hnone. rewrite lookup_app_r in Ha by done.
      apply list_lookup_singleton_Some in Ha as [Ha <-].
      assert (a = length (loaders st1)) as -> by lia.
      split.
      * split; [done|]. by exists me, ex.
      * destruct (same_frames_lookup _ _ _ _ Hf HL) as (L1' & HL1' & Hf1).
        assert (L1' = L1) as -> by congruence.
        exists self, L1. split_and!; try done.
        -- by eapply lookup_lt_Some.
        -- by apply lookup_app_l_Some.
        -- unfold frame_of in Hf1. simpl. congruence.
  - apply adds_of_same_frames. eapply (same_frames_set_loader _ _ L1); [|done].
    subst st2. simpl. by apply lookup_app_l_Some.
Qed.

Lemma adds_store_element W self name e :
  keeps (adds_subprojects W) (store_element self name e).
Proof.
  intros st. apply adds_of_same_frames.
  by apply (same_frames_update_loader (λ L, set_elements L _)).
Qed.

Lemma adds_store_loader W self name l :
  keeps (adds_subprojects W) (store_loader self name l).
Proof.
  intros st. apply adds_of_same_frames.
  by apply (same_frames_update_loader (λ L, set_loaders L _)).
Qed.

Ltac adds_step W :=
  match goal with
  | |- keeps _ (store_element _ _ _) => apply adds_store_element
  | |- keeps _ (store_loader _ _ _) => apply adds_store_loader
  | |- _ => keeps_step (adds_subprojects_refl W) (adds_subprojects_trans W)
  end.

Lemma adds_load_file_get_loader W fuel :
  (∀ self filename, keeps (adds_subprojects W) (_load_file W fuel self filename)) ∧
  (∀ self filename level, keeps (adds_subprojects W) (_get_loader W fuel self filename level)).
Proof.
  induction fuel as [|fuel [IHl IHg]];
    [split; intros; intros st; apply adds_subprojects_refl|].
  split.
  - intros self filename. cbn [_load_file].
    repeat first [apply IHl | apply IHg | adds_step W].
  - intros self filename level. cbn [_get_loader].
    repeat first [apply IHg | adds_step W].
    intros st. specialize (IHl self filename st).
    destruct (_load_file W fuel self filename st) as [[el|ex] st1]; simpl in *.
    + eapply adds_subprojects_trans; [done|]. apply adds_open_junction.
    + destruct ex as [[] msg| | | | |]; try done.
      destruct (level =? 0); [done|].
      eapply adds_subprojects_trans; [done|].
      apply (keeps_bind _ (adds_subprojects_trans W)
               (store_loader self filename None) (λ _, mret None));
        [apply adds_store_loader|intros; apply (keeps_ret _ (adds_subprojects_refl W))].
Qed.

Lemma same_frames_load_passes fuel self targets :
  keeps same_frames (_ ←m load_check_circular fuel self; load_sort_collect fuel self targets).
Proof.
  unfold load_check_circular, load_sort_collect.
  repeat first [apply same_frames_sort_dependencies | apply same_frames_collect_element
               | frames_step].
Qed.

Lemma load_adds_subproject_loaders_gen W fuel self st :
  adds_subprojects W st (load W fuel self st).2.
Proof.
  revert st. change (keeps (adds_subprojects W) (load W fuel self)). unfold load.
  adds_step W; [adds_step W|]. adds_step W.
  - unfold load_files. adds_step W. adds_step W; [|adds_step W].
    apply (proj1 (adds_load_file_get_loader W fuel)).
  - intros st. apply adds_of_same_frames. apply same_frames_load_passes.
Qed.

(** X10. Whatever [load] returns or raises, the loaders there were are
    still there with the attributes the constructor gave them, and every
    loader that was added is the loader of a subproject: it has no targets,
    its temporary directory was made by [mkdtemp] in the build directory of
    its context, and its parent is a loader that was made before it and has
    the same context. *)
Theorem load_adds_subproject_loaders W fuel self st :
  adds_subprojects W st (load W fuel self st).2.
Proof. apply load_adds_subproject_loaders_gen. Qed.

Lemma adds_context W st st' c :
  adds_subprojects W st st' →
  (∀ a L, loaders st !! a = Some L → _context L = c) →
  ∀ a L', loaders st' !! a = Some L' → _context L' = c.
Proof.
  intros [Hext Hnew] Hc a. induction (lt_wf a) as [a _ IH]. intros L' HL'.
  destruct (loaders st !! a) as [L|] eqn:HL.
  - destruct (Hext a L HL) as (L'' & HL'' & Hf). assert (L'' = L') as -> by congruence.
    rewrite <- (Hc a L HL). unfold frame_of in Hf. congruence.
  - destruct (Hnew a L' HL' HL) as (_ & parent & Lp & _ & Hlt & HLp & <-).
    by eapply IH.
Qed.

Lemma load_tempdirs_under_builddir_gen W fuel st0 L0 :
  loaders st0 = [L0] →
  (∀ me, isabs (normal_name W me) = false) →
  ∀ a L, loaders (load W fuel 0 st0).2 !! a = Some L → 0 < a →
    _context L = _context L0 ∧ is_Some (_parent L) ∧ truthy_str (_tempdir L) = true ∧
    (under_builddir L = true ↔
     builddir (_context L0) ≠ "" ∧ trailing_slash (builddir (_context L0)) = false).
Proof.
  intros Hst0 Hn a L HL Ha.
  pose proof (load_adds_subproject_loaders_gen W fuel 0 st0) as Hadds.
  assert (Hc : _context L = _context L0).
  { eapply (adds_context W st0); [done| |done].
    intros b Lb Hb. rewrite Hst0 in Hb. destruct b; simpl in Hb; [congruence|done]. }
  destruct Hadds as [_ Hnew]. destruct (Hnew a L HL) as (Hsub & parent & Lp & Hp & _).
  { rewrite Hst0. destruct a; [lia|done]. }
  destruct (subproject_tempdir_under_builddir_gen W L Hsub Hn) as [Ht Hu].
  rewrite <- Hc. split_and!; try done.
Qed.

(** X11. After a [load] on a store with the top-level loader only,
    whatever it returned or raised, every other loader has the context of
    the top-level loader and a parent, and a temporary directory that
    [cleanup] does not take for already removed; that directory passes the
    test of [cleanup] when and only when the build directory of the context
    is not empty and does not end with a separator. *)
Theorem load_tempdirs_under_builddir W fuel st0 L0 :
  loaders st0 = [L0] →
  (∀ me, isabs (normal_name W me) = false) →
  ∀ a L, loaders (load W fuel 0 st0).2 !! a = Some L → 0 < a →
    _context L = _context L0 ∧ is_Some (_parent L) ∧ truthy_str (_tempdir L) = true ∧
    (under_builddir L = true ↔
     builddir (_context L0) ≠ "" ∧ trailing_slash (builddir (_context L0)) = false).
Proof. apply load_tempdirs_under_builddir_gen. Qed.

Lemma load_tempdirs_under_builddir_witness :
  let st := (load world_sub 20 0 (store_builddir "/build")).2 in
  let L := default (mkLoader example_project example_context "" [] None None ∅ ∅ [])
             (loaders st !! 1) in
  _context L = mkContext "/build" true ∧ is_Some (_parent L) ∧
  truthy_str (_tempdir L) = true ∧
  (under_builddir L = true ↔ "/build" ≠ "" ∧ trailing_slash "/build" = false).
Proof.
  intros st L.
  apply (load_tempdirs_under_builddir world_sub 20 (store_builddir "/build")
           (mkLoader example_project (mkContext "/build" true) "/top/elements" ["app.bst"]
              None None ∅ ∅ []) eq_refl (λ _, eq_refl) 1 L).
  - vm_compute. reflexivity.
  - lia.
Defined.

(** X12. When the build directory of the context ends with a separator, or
    is empty, [cleanup] after a [load] removes nothing at all: no [rmtree]
    is called, and every directory stays, the temporary directories that
    [load] made for the subprojects among them. *)
Theorem cleanup_after_load_keeps_tempdirs W fuel st0 L0 fuel' self :
  loaders st0 = [L0] → _parent L0 = None →
  (∀ me, isabs (normal_name W me) = false) →
  builddir (_context L0) = "" ∨ trailing_slash (builddir (_context L0)) = true →
  removed (cleanup fuel' self (load W fuel 0 st0).2).2 = removed (load W fuel 0 st0).2 ∧
  ∀ p, p ∈ dirs (load W fuel 0 st0).2 → p ∈ dirs (cleanup fuel' self (load W fuel 0 st0).2).2.
Proof.
  intros Hst0 Hp0 Hn Hb. set (st := (load W fuel 0 st0).2).
  assert (Hnone : ∀ d, ¬ removable st d).
  { intros d (a & L & HL & Hp & Ht & Hpre). destruct a as [|a].
    - pose proof (load_adds_subproject_loaders_gen W fuel 0 st0) as [Hext _].
      destruct (Hext 0 L0) as (L' & HL' & Hf); [by rewrite Hst0|].
      fold st in HL'. assert (L' = L) as -> by congruence.
      unfold frame_of in Hf. assert (_parent L = None) by congruence.
      rewrite H in Hp. by destruct Hp.
    - destruct (load_tempdirs_under_builddir_gen W fuel st0 L0 Hst0 Hn (S a) L HL)
        as (Hc & _ & _ & Hu); [lia|].
      assert (Hg : under_builddir L = true).
      { unfold under_builddir. by rewrite Ht. }
      apply Hu in Hg as [Hne Hts]. destruct Hb as [Hb|Hb]; congruence. }
  pose proof (cleanup_rel_cleanup fuel' self st) as (_ & _ & (new & Hr & Hnew) & _ & Hd).
  split.
  - destruct new as [|d new]; [by rewrite Hr, app_nil_r|].
    destruct (Hnone d). apply Hnew. by left.
  - intros p Hp. destruct (Hd p Hp) as [?|(d & Hrem & _)]; [done|]. by destruct (Hnone d).
Qed.

Lemma cleanup_after_load_keeps_tempdirs_witness :
  let st := (load world_sub 20 0 (store_builddir "/build/")).2 in
  removed (cleanup 5 0 st).2 = removed st ∧
  ∀ p, p ∈ dirs st → p ∈ dirs (cleanup 5 0 st).2.
Proof.
  apply (cleanup_after_load_keeps_tempdirs world_sub 20 (store_builddir "/build/")
           (mkLoader example_project (mkContext "/build/" true) "/top/elements" ["app.bst"]
              None None ∅ ∅ []) 5 0).
  - reflexivity.
  - reflexivity.
  - intros me. reflexivity.
  - right. reflexivity.
Defined.

(** The subproject of the example is loaded, and its temporary directory is
    there after [cleanup], when the build directory is [/build/]; with
    [/build] it is removed. *)
Example cleanup_after_load_trailing_slash :
  let st := (load world_sub 20 0 (store_builddir "/build/")).2 in
  let st' := (load world_sub 20 0 (store_builddir "/build")).2 in
  (load world_sub 20 0 (store_builddir "/build/")).1 = Ok [1] ∧
  (_tempdir <$> loaders st) = [None; Some "/build/sub-1"] ∧
  cleanup 5 0 st = (Ok tt, st) ∧
  dirs st = ["/build/"; "/build/sub-1"] ∧
  removed (cleanup 5 0 st').2 = ["/build/sub-1"] ∧
  dirs (cleanup 5 0 st').2 = ["/build"].
Proof. vm_compute. done. Qed.

(** X13. When [_get_loader] returns, what it returns is entered under the
    name of the junction in the loader it was called on: a loader, or
    [None], which only a call from a subproject (a level above 0) can get.
    Every later call for that name on that loader then gives the same
    loader without changing anything, or raises [ConflictingJunction] if it
    was [None]. *)
Theorem get_loader_result_cached W fuel self filename level st r st' :
  _get_loader W fuel self filename level st = (Ok r, st') →
  (level = 0 → is_Some r) ∧
  ∃ L', loaders st' !! self = Some L' ∧ dict_get filename (_loaders L') = Some r ∧
        ∀ fuel' level',
          _get_loader W (S fuel') self filename level' st'
          = match r with
            | Some l => (Ok (Some l), st')
            | None => (Raise (LoadError CONFLICTING_JUNCTION
                                (conflicting_junction_message filename
                                   (project_name (project L')))), st')
            end.
Proof.
  intros Hrun.
  assert ((level = 0 → is_Some r) ∧
          ∃ L', loaders st' !! self = Some L' ∧ dict_get filename (_loaders L') = Some r)
    as (Hlevel & L' & HL' & Hd).
  { destruct fuel as [|fuel]; [done|]. revert Hrun. cbn [_get_loader].
    unfold mbind at 1, mlift at 1, deref.
    destruct (loaders st !! self) as [L|] eqn:HL; [|done].
    destruct (dict_get filename (_loaders L)) as [[loader|]|] eqn:Hd; [| done |].
    { intros [= <- <-]. split; [done|]. by exists L. }
    unfold mbind at 1.
    assert (Hpar : ext st (match _parent L with
                           | Some parent => _get_loader W fuel parent filename (level + 1)
                           | None => mret None
                           end st).2).
    { destruct (_parent L); [|apply ext_refl].
      apply (proj2 (stable_load_file_get_loader W fuel)). }
    destruct (match _parent L with
              | Some parent => _get_loader W fuel parent filename (level + 1)
              | None => mret None
              end st) as [[from_parent|e] st1]; [|done].
    simpl in Hpar. destruct (Hpar self L HL) as (L1 & HL1 & _).
    destruct from_parent as [loader|].
    - unfold mbind at 1. rewrite (store_loader_run st1 self L1) by done.
      intros [= <- <-]. split; [done|]. eexists. split.
      + by eapply set_loader_lookup.
      + simpl. apply dict_get_set_eq.
    - pose proof (proj1 (stable_load_file_get_loader W fuel) self filename st1) as Hlf.
      destruct (_load_file W fuel self filename st1) as [[el|ex] st2]; simpl in Hlf.
      + intros Hopen. apply open_junction_cases in Hopen
          as [(e & [=] & _)|(L2 & L3 & st3 & me & ex & p & _ & _ & _ & HL3 & _ & Hr & ->)].
        injection Hr as ->. split; [done|]. eexists. split.
        * eapply (set_loader_lookup _ _ _ L3). simpl. by apply lookup_app_l_Some.
        * simpl. apply dict_get_set_eq.
      + destruct ex as [[] msg| | | | |]; try done.
        destruct (level =? 0) eqn:Hlv; [done|]. apply Nat.eqb_neq in Hlv.
        destruct (Hlf self L1 HL1) as (L2 & HL2 & _).
        unfold mbind at 1. rewrite (store_loader_run st2 self L2) by done.
        intros [= <- <-]. split; [done|]. eexists. split.
        * by eapply set_loader_lookup.
        * simpl. apply dict_get_set_eq. }
  split; [done|]. exists L'. split_and!; try done.
  intros fuel' level'. by rewrite (get_loader_cached W fuel' self filename level' st' L' r).
Qed.

Lemma get_loader_result_cached_witness :
  let st := (_load_file world_override 20 0 "sub.bst" store_top).2 in
  let st' := (_get_loader world_override 20 0 "sub.bst" 0 st).2 in
  (0 = 0 → is_Some (Some 1)) ∧
  ∃ L', loaders st' !! 0 = Some L' ∧ dict_get "sub.bst" (_loaders L') = Some (Some 1) ∧
        ∀ fuel' level',
          _get_loader world_override (S fuel') 0 "sub.bst" level' st' = (Ok (Some 1), st').
Proof.
  intros st st'.
  apply (get_loader_result_cached world_override 20 0 "sub.bst" 0 st (Some 1) st').
  vm_compute. reflexivity.
Defined.

(** ** What [load] returns *)

Lemma mbind_ok {A B} (m : M A) (k : A → M B) st b st' :
  mbind m k st = (Ok b, st') → ∃ a st1, m st = (Ok a, st1) ∧ k a st1 = (Ok b, st').
Proof.
  unfold mbind. destruct (m st) as [[a|e] st1]; [|done]. intros H. by exists a, st1.
Qed.

Lemma collect_element_cached fuel self name st a st' :
  _collect_element fuel self name st = (Ok a, st') →
  ∃ L', loaders st' !! self = Some L' ∧ _meta_elements L' !! name = Some a.
Proof.
  destruct fuel as [|fuel]; [done|]. cbn [_collect_element].
  unfold mbind at 1, mlift at 1, deref.
  destruct (loaders st !! self) as [L|] eqn:HL; [|done].
  unfold mbind at 1, mlift at 1.
  destruct (lookup_element L name) as [element|]; [|done].
  destruct (_meta_elements L !! name) as [cached|] eqn:Hc.
  { intros [= <- <-]. eauto. }
  destruct (le_node element) as [node|]; [|done].
  unfold mbind at 1, new_meta at 1. unfold mbind at 1, cache_meta at 1, deref.
  cbn [loaders set_metas]. rewrite HL.
  set (st1 := set_loader _ self _). unfold mbind at 1.
  match goal with |- context [mfor ?xs ?body st1] =>
    destruct (mfor xs body st1) as [[[]|e] st2] eqn:Hfor; [|done];
    assert (Hg : grows st1 st2)
  end.
  { match type of Hfor with ?m st1 = _ =>
      assert (Hk : keeps grows m); [|specialize (Hk st1); by rewrite Hfor in Hk] end.
    apply (keeps_for _ grows_refl grows_trans). intros dep.
    unfold collect_dependency. repeat first [apply grows_collect_element | grows_step]. }
  intros [= <- <-]. destruct Hg as (_ & _ & _ & Hl).
  destruct (Hl self (set_meta_elements L (<[name:=length (metas st)]> (_meta_elements L))))
    as (L' & HL' & _ & _ & Hm & _).
  { subst st1. eapply (set_loader_lookup _ _ _ L). done. }
  exists L'. split; [done|]. eapply lookup_weaken; [|done]. simpl. apply lookup_insert_eq.
Qed.

Lemma mmap_collect_cached fuel self : ∀ targets st ms st',
  mmap (_collect_element fuel self) targets st = (Ok ms, st') →
  targets = [] ∧ ms = [] ∨
  ∃ L', loaders st' !! self = Some L' ∧
        Forall2 (λ target m, _meta_elements L' !! target = Some m) targets ms.
Proof.
  induction targets as [|t targets IH]; intros st ms st' Hrun.
  { left. simpl in Hrun. by injection Hrun as <- <-. }
  right. cbn [mmap] in Hrun.
  apply mbind_ok in Hrun as (a & st1 & Ha & Hrun).
  apply mbind_ok in Hrun as (ms' & st2 & Hms & Hrun). injection Hrun as <- <-.
  apply collect_element_cached in Ha as (L1 & HL1 & Hc1).
  assert (Hg : grows st1 st2).
  { pose proof (keeps_map _ grows_refl grows_trans (_collect_element fuel self) targets
                  (grows_collect_element fuel self) st1) as H. by rewrite Hms in H. }
  destruct Hg as (_ & _ & _ & Hl). destruct (Hl self L1 HL1) as (L2 & HL2 & _ & _ & Hm & _).
  exists L2. split; [done|]. constructor; [by eapply lookup_weaken|].
  destruct (IH _ _ _ Hms) as [[-> ->]|(L2' & HL2' & Hall)]; [done|].
  assert (L2' = L2) as -> by congruence. done.
Qed.

(** X14. When [load] returns, it returns one [MetaElement] for each target,
    in the order of the targets, and each is the one that the loader has
    cached under the name of the target. *)
Theorem load_returns_cached_metas W fuel self st ms st' :
  load W fuel self st = (Ok ms, st') →
  ∃ L L', loaders st !! self = Some L ∧ loaders st' !! self = Some L' ∧
          _targets L' = _targets L ∧
          Forall2 (λ target m, _meta_elements L' !! target = Some m) (_targets L) ms.
Proof.
  intros Hrun. pose proof (load_adds_subproject_loaders_gen W fuel self st) as [Hext _].
  rewrite Hrun in Hext. simpl in Hext.
  unfold load in Hrun. apply mbind_ok in Hrun as (L & st0 & HL & Hrun).
  unfold mlift, deref in HL. destruct (loaders st !! self) as [L0|] eqn:HL0; [|done].
  injection HL as -> <-. destruct (Hext self L HL0) as (L' & HL' & Hf).
  exists L, L'. split_and!; try done.
  { unfold frame_of in Hf. congruence. }
  apply mbind_ok in Hrun as ([] & st1 & _ & Hrun).
  apply mbind_ok in Hrun as ([] & st2 & _ & Hrun).
  unfold load_sort_collect in Hrun. apply mbind_ok in Hrun as ([] & st3 & _ & Hrun).
  apply mmap_collect_cached in Hrun as [[-> ->]|(L'' & HL'' & Hall)]; [done|].
  assert (L'' = L') as -> by congruence. done.
Qed.

Lemma load_returns_cached_metas_witness :
  let r := load world_acyclic 20 0 (store_targets ["a.bst"]) in
  ∃ L L', loaders (store_targets ["a.bst"]) !! 0 = Some L ∧ loaders r.2 !! 0 = Some L' ∧
          _targets L' = _targets L ∧
          Forall2 (λ target m, _meta_elements L' !! target = Some m) (_targets L) [0].
Proof.
  intros r.
  apply (load_returns_cached_metas world_acyclic 20 0 (store_targets ["a.bst"]) [0] r.2).
  vm_compute. reflexivity.
Defined.

(** ** A load that fails half way *)

(** X15. [_load_file] enters the new element before it loads the
    dependencies.  When it then raises, from the load of a dependency or
    because a dependency is a junction, the element stays: asking for the
    same file again does not try again, it returns that element as a loaded
    one and changes nothing. *)
Theorem load_file_after_failure W fuel self filename st L node e st' :
  loaders st !! self = Some L →
  _elements L !! filename = None →
  yaml_load W (_basedir L) filename = Ok node →
  _load_file W (S fuel) self filename st = (Raise e, st') →
  ∀ fuel', _load_file W (S fuel') self filename st'
           = (Ok (new_load_element node filename L), st').
Proof.
  intros HL Hnone Hnode Hrun fuel'.
  assert (∃ L', loaders st' !! self = Some L' ∧
                _elements L' !! filename = Some (new_load_element node filename L))
    as (L' & HL' & He').
  { revert Hrun. cbn [_load_file]. unfold mbind at 1, mlift at 1, deref.
    rewrite HL, Hnone. unfold mbind at 1, mlift at 1. rewrite Hnode.
    unfold mbind at 1, store_element at 1, deref. rewrite HL.
    set (st1 := set_loader st self _). unfold mbind at 1.
    match goal with |- context [mfor ?xs ?body st1] =>
      assert (Hg : grows st1 (mfor xs body st1).2);
      [|destruct (mfor xs body st1) as [[[]|e'] st2] eqn:Hfor; [done|]]
    end.
    { apply (keeps_for _ grows_refl grows_trans). intros dep.
      pose proof (grows_load_file_get_loader W fuel) as [IHl IHg].
      repeat first [apply IHl | apply IHg | grows_step]. }
    intros [= <- <-]. simpl in Hg. destruct Hg as (_ & _ & _ & Hl).
    destruct (Hl self (set_elements L (<[filename:=new_load_element node filename L]>
                                           (_elements L)))) as (L' & HL' & _ & He & _).
    { subst st1. by eapply set_loader_lookup. }
    exists L'. split; [done|]. eapply lookup_weaken; [|done]. simpl.
    apply lookup_insert_eq. }
  cbn [_load_file]. unfold mbind at 1, mlift at 1, deref. rewrite HL', He'. done.
Qed.

Lemma load_file_after_failure_witness :
  let st := store_targets ["app.bst"; "z.bst"] in
  let st' := (_load_file world_stale 5 0 "j.bst" st).2 in
  _load_file world_stale 3 0 "j.bst" st'
  = (Ok (new_load_element (element_node [plain_dep "missing.bst"]) "j.bst"
           (mkLoader example_project example_context "/top/elements"
              ["app.bst"; "z.bst"] None None ∅ ∅ [])),
     st').
Proof.
  intros st st'.
  apply (load_file_after_failure world_stale 4 0 "j.bst" st
           (mkLoader example_project example_context "/top/elements"
              ["app.bst"; "z.bst"] None None ∅ ∅ [])
           (element_node [plain_dep "missing.bst"])
           (LoadError MISSING_FILE "Could not find file at missing.bst") st').
  - reflexivity.
  - reflexivity.
  - vm_compute. reflexivity.
  - vm_compute. reflexivity.
Defined.

(** The missing file is met while the subproject asks the top-level
    project for the junction [j.bst]; [_get_loader] takes the error for "no
    such junction here" and goes on.  The first pass returns with [j.bst]
    entered and its dependency not loaded, and [load] ends in the cycle
    check with a [KeyError] for the dependency. *)
Example load_stale_element :
  let st := store_targets ["app.bst"; "z.bst"] in
  let first := load_files world_stale 30 0 ["app.bst"; "z.bst"] st in
  first.1 = Ok tt ∧ closed first.2 = false ∧
  is_Some (elem_at first.2 (0, "j.bst")) ∧ elem_at first.2 (0, "missing.bst") = None ∧
  (load world_stale 30 0 st).1 = Raise (KeyError "missing.bst").
Proof. vm_compute. split_and!; try done. by eexists. Qed.

(** ** The first pass in a project without junctions *)

Section single_project.
Variable W : World.
Hypothesis Hplain : plain_world W.

Lemma single_project_elem_at st L k :
  loaders st = [L] → elem_at st (0, k) = _elements L !! k.
Proof. intros HL. unfold elem_at. simpl. by rewrite HL. Qed.

Lemma same_metas_trans st1 st2 st3 :
  same_metas st1 st2 → same_metas st2 st3 → same_metas st1 st3.
Proof. intros [H1 H2] [H3 H4]. split; congruence. Qed.

Lemma load_file_single fuel : ∀ filename st (P : string → Prop) e st',
  single_project st → loaded_or P st →
  _load_file W fuel 0 filename st = (Ok e, st') →
  single_project st' ∧ loaded_or P st' ∧ is_Some (elem_at st' (0, filename)) ∧
  (∀ x e0, elem_at st x = Some e0 → elem_at st' x = Some e0) ∧ same_metas st st'.
Proof.
  induction fuel as [|fuel IH]; intros filename st P e st' Hsp Hlo Hrun; [done|].
  destruct Hsp as (L & HL & Hj & Hel).
  cbn [_load_file] in Hrun. unfold mbind at 1, mlift at 1, deref in Hrun.
  rewrite HL in Hrun. cbn [lookup list_lookup] in Hrun.
  destruct (_elements L !! filename) as [cached|] eqn:Hc.
  { injection Hrun as <- <-. split_and!; try done.
    - by exists L.
    - rewrite (single_project_elem_at st L) by done. eauto. }
  unfold mbind at 1, mlift at 1 in Hrun.
  destruct (yaml_load W (_basedir L) filename) as [node|] eqn:Hnode; [|done].
  unfold mbind at 1, store_element at 1, deref in Hrun. rewrite HL in Hrun.
  cbn [lookup list_lookup] in Hrun.
  set (element := new_load_element node filename L) in *.
  set (L1 := set_elements L (<[filename:=element]> (_elements L))) in *.
  set (st1 := set_loader st 0 L1) in *.
  assert (HL1 : loaders st1 = [L1]). { subst st1. unfold set_loader. simpl. by rewrite HL. }
  assert (Hdeps : forallb plain (le_deps element) = true).
  { subst element. simpl. by eapply Hplain. }
  assert (Hfull : le_full_name element = filename).
  { subst element. unfold new_load_element. simpl. by rewrite Hj. }
  assert (Hsp1 : single_project st1).
  { exists L1. split_and!; try done. intros k e0. subst L1. simpl.
    destruct (decide (k = filename)) as [->|Hne].
    - rewrite lookup_insert_eq. intros [= <-]. done.
    - rewrite lookup_insert_ne by done. apply Hel. }
  assert (Hp01 : ∀ x e0, elem_at st x = Some e0 → elem_at st1 x = Some e0).
  { intros [a k] e0. unfold elem_at. cbn [fst snd]. rewrite HL, HL1.
    destruct a as [|a]; cbn [lookup list_lookup]; [|done]. intros He0.
    subst L1. cbn [_elements set_elements]. rewrite lookup_insert_ne; [done|]. congruence. }
  assert (Hm01 : same_metas st st1).
  { split; [done|]. by rewrite HL, HL1. }
  set (P' := λ k, P k ∨ k = filename).
  assert (Hlo1 : loaded_or P' st1).
  { intros k e0. rewrite (single_project_elem_at st1 L1) by done. subst L1. simpl.
    destruct (decide (k = filename)) as [->|Hne].
    - intros _. left. by right.
    - rewrite lookup_insert_ne by done. intros He0.
      destruct (Hlo k e0) as [HP|Hd].
      + by rewrite (single_project_elem_at st L).
      + left. by left.
      + right. intros d Hd'. destruct (Hd d Hd') as [e1 He1]. exists e1. by apply Hp01. }
  unfold mbind at 1 in Hrun.
  match type of Hrun with context [mfor _ ?b st1] => set (body := b) in * end.
  assert (Hloop : ∀ deps s s',
    forallb plain deps = true → single_project s → loaded_or P' s →
    mfor deps body s = (Ok tt, s') →
    single_project s' ∧ loaded_or P' s' ∧
    (∀ d, d ∈ deps → is_Some (elem_at s' (0, dep_name d))) ∧
    (∀ x e0, elem_at s x = Some e0 → elem_at s' x = Some e0) ∧ same_metas s s').
  { induction deps as [|d deps IHd]; intros s s' Hpl Hs Hls Hfor.
    { simpl in Hfor. injection Hfor as <-. split_and!; try done.
      intros d Hd. by apply elem_of_nil in Hd. }
    simpl in Hpl. apply andb_true_iff in Hpl as [Hd Hpl].
    cbn [mfor] in Hfor. unfold mbind at 1 in Hfor.
    destruct (body d s) as [[[]|ex] s1] eqn:Hbody; [|done].
    assert (single_project s1 ∧ loaded_or P' s1 ∧ is_Some (elem_at s1 (0, dep_name d)) ∧
            (∀ x e0, elem_at s x = Some e0 → elem_at s1 x = Some e0) ∧ same_metas s s1)
      as (Hs1 & Hls1 & Hd1 & Hp1 & Hm1).
    { subst body. cbv beta in Hbody. unfold plain in Hd. apply negb_true_iff in Hd.
      rewrite Hd in Hbody. unfold mbind at 1, mret at 1 in Hbody.
      unfold mbind at 1 in Hbody.
      destruct (_load_file W fuel 0 (dep_name d) s) as [[de|ex] s2] eqn:Hsub; [|done].
      destruct (IH _ _ _ _ _ Hs Hls Hsub) as (? & ? & ? & ? & ?).
      destruct (le_node de) as [dn|]; [|done].
      destruct (String.eqb (node_kind dn) "junction"); [done|].
      injection Hbody as <-. done. }
    destruct (IHd s1 s' Hpl Hs1 Hls1 Hfor) as (Hs' & Hls' & Hds' & Hp' & Hm').
    split_and!; try done.
    - intros d' Hd'. apply elem_of_cons in Hd' as [->|Hd']; [|by apply Hds'].
      destruct Hd1 as [e1 He1]. exists e1. by apply Hp'.
    - intros x e0 He0. by apply Hp', Hp1.
    - by eapply same_metas_trans. }
  destruct (mfor (le_deps element) body st1) as [[[]|ex] st2] eqn:Hfor; [|done].
  injection Hrun as <- <-.
  destruct (Hloop _ _ _ Hdeps Hsp1 Hlo1 Hfor) as (Hsp2 & Hlo2 & Hds & Hp12 & Hm12).
  assert (He2 : elem_at st2 (0, filename) = Some element).
  { apply Hp12. rewrite (single_project_elem_at st1 L1) by done. subst L1. simpl.
    apply lookup_insert_eq. }
  split_and!; [done| |by eexists| |].
  - intros k e0 He0. destruct (Hlo2 k e0 He0) as [[HP| ->]|Hd]; [by left| |by right].
    right. assert (e0 = element) as -> by congruence. done.
  - intros x e0 He0. by apply Hp12, Hp01.
  - by eapply same_metas_trans.
Qed.

Lemma load_files_single fuel : ∀ targets st st',
  single_project st → loaded_or (λ _, False) st →
  load_files W fuel 0 targets st = (Ok tt, st') →
  single_project st' ∧ loaded_or (λ _, False) st' ∧
  (∀ t, t ∈ targets → is_Some (elem_at st' (0, t))) ∧ same_metas st st'.
Proof.
  unfold load_files.
  induction targets as [|t targets IHt]; intros st st' Hsp Hlo Hrun.
  { simpl in Hrun. injection Hrun as <-. split_and!; try done.
    intros t Ht. by apply elem_of_nil in Ht. }
  cbn [mfor] in Hrun. unfold mbind at 1 in Hrun. unfold mbind at 1 in Hrun.
  destruct (_load_file W fuel 0 t st) as [[e|ex] st1] eqn:Hload; [|done].
  destruct (load_file_single _ _ _ _ _ _ Hsp Hlo Hload) as (Hsp1 & Hlo1 & Ht1 & Hp1 & Hm1).
  unfold mret at 1 in Hrun.
  destruct (IHt st1 st' Hsp1 Hlo1 Hrun) as (Hsp' & Hlo' & Hts & Hm').
  split_and!; try done; [|by eapply same_metas_trans].
  intros t' Ht'. apply elem_of_cons in Ht' as [->|Ht']; [|by apply Hts].
  assert (Hgrow : grows st1 st').
  { pose proof (keeps_for _ grows_refl grows_trans targets
      (λ target, _ ←m _load_file W fuel 0 target; mret tt)) as Hk.
    specialize (Hk (λ target, keeps_bind _ grows_trans _ _
      (proj1 (grows_load_file_get_loader W fuel) 0 target)
      (λ _, keeps_ret _ grows_refl tt)) st1).
    by rewrite Hrun in Hk. }
  destruct Ht1 as [e1 He1]. exists e1. unfold elem_at in *. simpl in *.
  destruct (loaders st1 !! 0) as [L1|] eqn:HL1; [|done].
  destruct Hgrow as (_ & _ & _ & Hl). destruct (Hl 0 L1 HL1) as (L' & -> & _ & Hsub & _).
  by eapply lookup_weaken.
Qed.

Lemma single_project_closed st :
  single_project st → loaded_or (λ _, False) st →
  closed st = true ∧ unique_full_names st = true.
Proof.
  intros (L & HL & Hj & Hel) Hlo. split.
  - unfold closed. apply forallb_forall. intros [a k] Hx.
    apply list_elem_of_In, elem_of_all_refs in Hx as [e He]. rewrite He.
    assert (a = 0) as ->.
    { unfold elem_at in He. simpl in He. rewrite HL in He. by destruct a as [|[|a]]. }
    apply forallb_forall. intros d Hd. apply list_elem_of_In in Hd.
    destruct (Hlo k e He) as [[]|Hdeps].
    rewrite (single_project_elem_at st L) in He by done.
    destruct (Hel k e He) as [_ Hpl]. rewrite forallb_forall in Hpl.
    specialize (Hpl d (proj1 (list_elem_of_In _ _) Hd)).
    unfold plain in Hpl. apply negb_true_iff in Hpl.
    unfold dep_loaded, resolve, _get_loader_for_dep. rewrite Hpl. simpl.
    apply bool_decide_eq_true. by apply Hdeps.
  - unfold unique_full_names. apply bool_decide_eq_true.
    unfold all_refs. rewrite HL. simpl. rewrite app_nil_r. unfold loader_refs.
    rewrite <- list_fmap_compose.
    rewrite (list_fmap_ext _ fst (map_to_list (_elements L))).
    { apply NoDup_fst_map_to_list. }
    intros i [k e] Hi. simpl. apply list_elem_of_lookup_2, elem_of_map_to_list in Hi.
    unfold key. rewrite (single_project_elem_at st L) by done. rewrite Hi. simpl.
    by destruct (Hel k e Hi).
Qed.
End single_project.

(** X19. In a project whose element files name no junction, the first pass
    of [load], from a loader that has nothing loaded yet, leaves what the
    cycle check relies on when it returns: every target is loaded, every
    dependency of every loaded element is loaded, and no two elements have
    the same full name. *)
Theorem first_pass_single_project W fuel L0 metas0 dirs0 removed0 st' :
  plain_world W →
  _elements L0 = ∅ → project_junction (project L0) = None →
  load_files W fuel 0 (_targets L0) (mkStore [L0] metas0 dirs0 removed0) = (Ok tt, st') →
  closed st' = true ∧ unique_full_names st' = true ∧
  ∀ t, t ∈ _targets L0 → is_Some (elem_at st' (0, t)).
Proof.
  intros Hplain Hempty Hj Hrun.
  destruct (load_files_single W Hplain fuel (_targets L0)
              (mkStore [L0] metas0 dirs0 removed0) st') as (Hsp & Hlo & Hts & _); [| |done|].
  - exists L0. split_and!; try done. intros k e. by rewrite Hempty, lookup_empty.
  - intros k e. rewrite (single_project_elem_at _ L0) by done.
    by rewrite Hempty, lookup_empty.
  - destruct (single_project_closed st' Hsp Hlo). done.
Qed.

Lemma example_world_plain files projects :
  forallb (λ f : string * string * Node, forallb plain (node_depends f.2)) files = true →
  plain_world (example_world files projects).
Proof.
  intros Hall basedir filename node. unfold example_world, example_files. simpl.
  destruct (list_find _ files) as [[i f]|] eqn:Hfind; [|done]. intros [= <-].
  apply list_find_Some in Hfind as (Hi & _ & _).
  rewrite forallb_forall in Hall. apply Hall.
  apply list_elem_of_In. by eapply list_elem_of_lookup_2.
Qed.

Lemma first_pass_single_project_witness :
  let st' := (load_files world_acyclic 10 0 ["a.bst"] (store_targets ["a.bst"])).2 in
  closed st' = true ∧ unique_full_names st' = true ∧
  ∀ t, t ∈ ["a.bst"] → is_Some (elem_at st' (0, t)).
Proof.
  intros st'.
  apply (first_pass_single_project world_acyclic 10
           (mkLoader example_project example_context "/top/elements" ["a.bst"]
              None None ∅ ∅ []) [] [] [] st').
  - apply example_world_plain. vm_compute. reflexivity.
  - reflexivity.
  - reflexivity.
  - vm_compute. reflexivity.
Defined.

(** ** The constructor, for relative targets *)

Lemma check_targets_relative_ok basedir filenames :
  check_targets_relative basedir filenames = Ok tt ↔
  Forall (λ f, isabs f = false) filenames.
Proof.
  induction filenames as [|f rest IH]; simpl; [by split|].
  destruct (isabs f) eqn:Hf.
  - split; [done|]. intros H. apply Forall_cons in H as [? _]. congruence.
  - rewrite IH. split; [by constructor|]. by intros [_ ?]%Forall_cons.
Qed.

(** X16. The constructor returns when, and only when, every target is a
    relative path.  When it raises, the message names the first target that
    is absolute, whatever comes after it. *)
Theorem init_returns_iff_relative abspath context p filenames parent tempdir st :
  ((__init__ abspath context p filenames parent tempdir st).1
   = Ok (length (loaders st)) ↔
   Forall (λ f, isabs f = false) filenames) ∧
  ∀ before f after,
    filenames = before ++ f :: after →
    Forall (λ f, isabs f = false) before → isabs f = true →
    __init__ abspath context p filenames parent tempdir st
    = (Raise (LoadError INVALID_DATA
                ("Target '" +:+ f +:+ "' was not specified as a relative "
                 +:+ "path to the base project directory: " +:+ init_basedir abspath p)),
       st).
Proof.
  split.
  - unfold __init__. rewrite <- (check_targets_relative_ok (init_basedir abspath p)).
    destruct (check_targets_relative _ _) as [[]|e]; simpl; split; done.
  - intros before f after -> Hbefore Hf. unfold __init__.
    assert (check_targets_relative (init_basedir abspath p) (before ++ f :: after)
            = Raise (LoadError INVALID_DATA
                ("Target '" +:+ f +:+ "' was not specified as a relative "
                 +:+ "path to the base project directory: " +:+ init_basedir abspath p)))
      as ->; [|done].
    induction Hbefore as [|g before Hg _ IH]; simpl; [by rewrite Hf|]. by rewrite Hg.
Qed.

Lemma init_returns_iff_relative_witness :
  __init__ (λ s, "/cwd/" +:+ s) example_context example_project
    ["a.bst"; "/etc/b.bst"; "/c.bst"] None None empty_store
  = (Raise (LoadError INVALID_DATA
              ("Target '" +:+ "/etc/b.bst" +:+ "' was not specified as a relative "
               +:+ "path to the base project directory: "
               +:+ init_basedir (λ s, "/cwd/" +:+ s) example_project)),
     empty_store).
Proof.
  apply (proj2 (init_returns_iff_relative (λ s, "/cwd/" +:+ s) example_context
                  example_project ["a.bst"; "/etc/b.bst"; "/c.bst"] None None empty_store)
           ["a.bst"] "/etc/b.bst" ["/c.bst"]).
  - reflexivity.
  - repeat constructor.
  - reflexivity.
Defined.

(** ** The message depth *)

Lemma run_nested calls : ∀ stack open n,
  context.nested calls open = Some n → open ≤ length stack →
  ∃ inner, context.run calls stack = context.Returns (inner ++ drop open stack) ∧
           length inner = n.
Proof.
  induction calls as [|[silent|] calls IH]; intros stack open n Hn Hlen; simpl in *.
  - injection Hn as <-. exists (take open stack). rewrite take_drop.
    split; [done|]. rewrite length_take. lia.
  - destruct (IH (silent :: stack) (S open) n Hn) as (inner & Hrun & Hl); [simpl; lia|].
    exists inner. unfold context._push_message_depth. by rewrite Hrun.
  - destruct open as [|open]; [done|]. destruct stack as [|s stack]; [simpl in Hlen; lia|].
    simpl. destruct (IH stack open n Hn) as (inner & Hrun & Hl); [simpl in Hlen; lia|].
    exists inner. by rewrite Hrun.
Qed.

(** X17. Calls of [_push_message_depth] and [_pop_message_depth] that are
    nested as the enter and the exit of activities never fail the [assert]
    of [_pop_message_depth] and leave the depth as it was, and with it the
    answer of [_silent_messages]; a message sent after [_push_message_depth]
    and such calls is tagged with one more than the depth there was, and
    messages are silent there if the activity asked for it or they were
    silent before.  A message that has a depth keeps it. *)
Theorem message_depth_nested calls stack silent_nested :
  context.nested calls 0 = Some 0 →
  context.run calls stack = context.Returns stack ∧
  context.run (context.push silent_nested :: calls) stack
  = context.Returns (silent_nested :: stack) ∧
  context._silent_messages (silent_nested :: stack)
  = silent_nested || context._silent_messages stack ∧
  (∀ H (h : H) message tagged,
     context._message (Some h) (silent_nested :: stack) message
     = context.Returns (h, tagged) →
     context.depth tagged
     = Some (default (S (length stack)) (context.depth message)) ∧
     context._message (Some h) stack tagged = context.Returns (h, tagged)).
Proof.
  intros Hn. split_and!.
  - destruct (run_nested calls stack 0 0 Hn) as (inner & -> & Hl); [lia|].
    destruct inner; [|done]. by rewrite drop_0.
  - simpl. unfold context._push_message_depth.
    destruct (run_nested calls (silent_nested :: stack) 0 0 Hn) as (inner & -> & Hl); [lia|].
    destruct inner; [|done]. by rewrite drop_0.
  - by destruct silent_nested.
  - intros H h message tagged. unfold context._message.
    destruct (context.depth message) as [d|] eqn:Hd.
    + intros [= <-]. by rewrite Hd.
    + intros [= <-]. done.
Qed.

Lemma message_depth_nested_witness :
  let calls := [context.push false; context.push true; context.pop; context.pop] in
  context.run calls [false] = context.Returns [false] ∧
  context.run (context.push true :: calls) [false] = context.Returns [true; false] ∧
  context._silent_messages [true; false] = true || context._silent_messages [false] ∧
  (∀ H (h : H) message tagged,
     context._message (Some h) [true; false] message = context.Returns (h, tagged) →
     context.depth tagged = Some (default 2 (context.depth message)) ∧
     context._message (Some h) [false] tagged = context.Returns (h, tagged)).
Proof.
  intros calls. apply (message_depth_nested calls [false] true). reflexivity.
Defined.

(** ** [_lookup] with [ensure] *)

Lemma py_index_pad_none (old : list RefNode) i :
  py_index (old ++ replicate (Z.to_nat (i + 1 - Z.of_nat (length old))) empty_node) i = None
  ↔ (i < - Z.of_nat (length old))%Z.
Proof.
  unfold py_index. rewrite length_app, length_replicate.
  destruct (0 <=? i)%Z eqn:Hsign.
  - apply Z.leb_le in Hsign.
    destruct (i <? _)%Z eqn:Hlt; [split; [done|lia]|].
    apply Z.ltb_ge in Hlt. lia.
  - apply Z.leb_gt in Hsign.
    replace (Z.to_nat (i + 1 - Z.of_nat (length old))) with 0 by lia.
    rewrite Nat.add_0_r.
    destruct (- Z.of_nat (length old) <=? i)%Z eqn:Hle.
    + apply Z.leb_le in Hle. split; [done|lia].
    + apply Z.leb_gt in Hle. done.
Qed.

Lemma py_index_pad_some (old : list RefNode) i pos :
  py_index old i = Some pos →
  Z.to_nat (i + 1 - Z.of_nat (length old)) = 0.
Proof.
  unfold py_index. destruct (0 <=? i)%Z eqn:Hsign.
  - destruct (i <? Z.of_nat (length old))%Z eqn:Hlt; [|done].
    apply Z.ltb_lt in Hlt. lia.
  - apply Z.leb_gt in Hsign. lia.
Qed.

Lemma lookup_source_pads projects project project_node element element_list i :
  projects !! project = Some project_node →
  project_node !! element = Some element_list →
  let new := element_list
             ++ replicate (Z.to_nat (i + 1 - Z.of_nat (length element_list))) empty_node in
  let r := lookup_source projects project project_node element element_list i true in
  refs_of r.2 project element = Some new ∧
  (∀ project' element', (project', element') ≠ (project, element) →
     refs_of r.2 project' element' = refs_of (Some projects) project' element') ∧
  r.1 = match py_index new i with
        | Some pos => Ok (Some pos)
        | None => Raise IndexError
        end.
Proof.
  intros Hp He new r. subst r. unfold lookup_source.
  destruct (py_index element_list i) as [pos|] eqn:Hi.
  - subst new. rewrite (py_index_pad_some _ _ _ Hi). simpl. rewrite app_nil_r, Hi.
    split_and!; try done. unfold refs_of. simpl. rewrite Hp. simpl. by rewrite He.
  - fold new. assert (Hnew : refs_of (Some (<[project:=<[element:=new]> project_node]> projects))
                      project element = Some new).
    { unfold refs_of. simpl. rewrite lookup_insert_eq. simpl. by rewrite lookup_insert_eq. }
    assert (Hframe : ∀ project' element', (project', element') ≠ (project, element) →
              refs_of (Some (<[project:=<[element:=new]> project_node]> projects))
                project' element' = refs_of (Some projects) project' element').
    { intros p' e' Hne. unfold refs_of. simpl.
      destruct (decide (p' = project)) as [->|Hp'].
      - rewrite lookup_insert_eq, Hp. simpl.
        rewrite lookup_insert_ne; [done|]. congruence.
      - by rewrite lookup_insert_ne. }
    destruct (py_index new i); done.
Qed.

(** X5. [_lookup] with [ensure=True] on a tree that has the key [projects]:
    the list of the element is the one there was (empty when the project
    or the element was not there), padded with new empty nodes up to the
    index; the list of no other element changes; the node returned is the
    one at the index in that list.  A negative index beyond the start of the
    list raises [IndexError], and nothing else does; the keys of the project
    and of the element are there all the same. *)
Theorem lookup_ensure_pads projects project element i :
  let old := default [] (refs_of (Some projects) project element) in
  let new := old ++ replicate (Z.to_nat (i + 1 - Z.of_nat (length old))) empty_node in
  let r := _lookup (Some projects) project element i true in
  refs_of r.2 project element = Some new ∧
  (∀ project' element', (project', element') ≠ (project, element) →
     refs_of r.2 project' element' = refs_of (Some projects) project' element') ∧
  r.1 = match py_index new i with
        | Some pos => Ok (Some pos)
        | None => Raise IndexError
        end ∧
  (r.1 = Raise IndexError ↔ (i < - Z.of_nat (length old))%Z).
Proof.
  intros old new r.
  assert (H : refs_of r.2 project element = Some new ∧
    (∀ project' element', (project', element') ≠ (project, element) →
       refs_of r.2 project' element' = refs_of (Some projects) project' element') ∧
    r.1 = match py_index new i with
          | Some pos => Ok (Some pos)
          | None => Raise IndexError
          end).
  { subst r new old. unfold _lookup, refs_of at 1 2. simpl.
    destruct (projects !! project) as [project_node|] eqn:Hp; simpl.
    - unfold lookup_element_list.
      destruct (project_node !! element) as [element_list|] eqn:He; simpl.
      + by apply lookup_source_pads.
      + pose proof (lookup_source_pads (<[project:=<[element:=[]]> project_node]> projects)
          project (<[element:=[]]> project_node) element [] i) as H.
        rewrite !lookup_insert_eq in H. destruct (H eq_refl eq_refl) as (H1 & H2 & H3).
        split_and!; try done. intros p' e' Hne. rewrite H2 by done.
        unfold refs_of. simpl. destruct (decide (p' = project)) as [->|Hp'].
        * rewrite lookup_insert_eq, Hp. simpl. rewrite lookup_insert_ne; [done|]. congruence.
        * by rewrite lookup_insert_ne.
    - unfold lookup_element_list. rewrite lookup_empty.
      pose proof (lookup_source_pads (<[project:=<[element:=[]]> ∅]> (<[project:=∅]> projects))
        project (<[element:=[]]> ∅) element [] i) as H.
      rewrite !lookup_insert_eq in H. destruct (H eq_refl eq_refl) as (H1 & H2 & H3).
      split_and!; try done. intros p' e' Hne. rewrite H2 by done.
      unfold refs_of. simpl. destruct (decide (p' = project)) as [->|Hp'].
      * rewrite !lookup_insert_eq, Hp. simpl. rewrite lookup_insert_ne; [|congruence].
        by rewrite lookup_empty.
      * by rewrite !lookup_insert_ne. }
  destruct H as (H1 & H2 & H3). split_and!; try done.
  rewrite H3. rewrite <- (py_index_pad_none old i). fold new.
  destruct (py_index new i); split; done.
Qed.

(** ** [load] and the lookups after it *)

Lemma load_has_projects Y self : refs.load Y = Ok self → has_projects self.
Proof.
  unfold refs.load. intros H.
  destruct (match refs.try_load Y with
            | Raise (LoadError MISSING_FILE _) => Ok (mkProjectRefs None None)
            | r => r
            end) as [self0|] eqn:Htry; [|done].
  simpl in H. destruct (refs.node_validate Y (toplevel_node self0)); [|done].
  simpl in H. injection H as <-. split; simpl.
  - by destruct (toplevel_node self0).
  - destruct (toplevel_save self0) as [[?|]|]; done.
Qed.

Lemma lookup_ensure_returns projects project element i :
  (0 <= i)%Z →
  ∃ pos t', _lookup (Some projects) project element i true = (Ok (Some pos), Some t') ∧
            is_Some (node_at (Some t') project element pos).
Proof.
  intros Hi.
  destruct (_lookup (Some projects) project element i true) as [r t'] eqn:Hl.
  pose proof (lookup_ensure_pads projects project element i) as (H1 & _ & H3 & H4).
  rewrite Hl in H1, H3, H4. simpl in H1, H3, H4.
  destruct r as [found|e].
  - apply lookup_ensure in Hl as (pos & -> & Hex & _ & _).
    destruct t' as [t'|]; [|done]. exists pos, t'. split; [done|].
    unfold existing_node in Hex. unfold node_at. simpl in *.
    destruct (t' !! project) as [pn|]; [|done]. simpl in *.
    destruct (pn !! element) as [l|]; [|done]. simpl in *.
    unfold py_index in Hex. apply lookup_lt_is_Some.
    destruct (0 <=? i)%Z eqn:Hs; [|apply Z.leb_gt in Hs; lia].
    destruct (i <? Z.of_nat (length l))%Z eqn:Hlt; [|done].
    apply Z.ltb_lt in Hlt. injection Hex as <-. lia.
  - destruct (py_index _ i); [done|]. injection H3 as ->.
    destruct H4 as [H4 _]. specialize (H4 eq_refl). lia.
Qed.



(** X7. A write lookup for a triple that has no node in the loaded tree
    makes the node in the tree to save.  When project.refs was loaded from a
    file, that is another tree: the loaded tree is left as it is, and a read
    lookup for the triple still gives [None].  When there was no file, the
    two trees are one, and the read lookup gives the new node. *)
Theorem lookup_ref_write_then_read self project element i r self' :
  existing_ref self project element i = None →
  lookup_ref self project element i true = (Ok r, self') →
  lookup_ref self' project element i false
  = (Ok (if toplevel_save self is None then r else None), self')
  ∧ (toplevel_save self ≠ None → toplevel_node self' = toplevel_node self).
Proof.
  destruct self as [t save]. unfold existing_ref, lookup_ref. cbn [toplevel_node toplevel_save].
  rewrite lookup_read.
  destruct (existing_node t project element i) as [pos|] eqn:Hex; [done|]. intros _.
  cbn [fmap option_fmap option_map]. destruct save as [save|].
  - destruct (_lookup save project element i true) as [res save'] eqn:Hl.
    destruct res as [found|e]; [|done]. simpl. intros [= <- <-].
    rewrite lookup_read. simpl. by rewrite Hex.
  - destruct (_lookup t project element i true) as [res t'] eqn:Hl.
    destruct res as [found|e]; [|done]. simpl. intros [= <- <-].
    apply lookup_ensure in Hl as (pos & -> & Hex' & _ & _).
    rewrite lookup_read. simpl. rewrite Hex'. done.
Qed.

Lemma lookup_ref_write_then_read_witness :
  let written := lookup_ref example_refs "top" "b.bst" 0 true in
  lookup_ref written.2 "top" "b.bst" 0 false
  = (Ok (Some (mkNodeRef TOPLEVEL_NODE "top" "b.bst" 0)), written.2)
  ∧ (toplevel_save example_refs ≠ None →
     toplevel_node written.2 = toplevel_node example_refs).
Proof.
  intros written.
  apply (lookup_ref_write_then_read example_refs "top" "b.bst" 0%Z
           (Some (mkNodeRef TOPLEVEL_NODE "top" "b.bst" 0)) written.2).
  - vm_compute. reflexivity.
  - vm_compute. reflexivity.
Defined.

(** ** The target of a junction *)

Lemma split_not_nil sep s : junction.split sep s ≠ [].
Proof.
  destruct s as [|c s]; simpl; [done|].
  destruct (Ascii.eqb c sep); [done|]. by destruct (junction.split sep s).
Qed.

Lemma split_one sep s x :
  junction.split sep s = [x] ↔ s = x ∧ sep ∉ list_ascii_of_string s.
Proof.
  revert x. induction s as [|c s IH]; intros x; simpl.
  - split; [intros [= <-]; split; [done|apply not_elem_of_nil]|intros [<- _]; done].
  - destruct (Ascii.eqb c sep) eqn:Hc.
    + apply Ascii.eqb_eq in Hc as ->. split.
      * intros [= _ H]. by apply split_not_nil in H.
      * intros [_ H]. destruct H. apply elem_of_cons. by left.
    + apply Ascii.eqb_neq in Hc.
      destruct (junction.split sep s) as [|y ys] eqn:Hs; [by apply split_not_nil in Hs|].
      split.
      * intros [= <- ->]. destruct (IH y) as [[-> Hn] _]; [done|]. split; [done|].
        rewrite not_elem_of_cons. split; [congruence|done].
      * intros [<- Hn]. apply not_elem_of_cons in Hn as [_ Hn].
        destruct (IH s) as [_ H]. specialize (H (conj eq_refl Hn)). congruence.
Qed.

Lemma split_two sep s j e :
  junction.split sep s = [j; e] ↔
  s = j +:+ String sep e ∧ (sep ∉ list_ascii_of_string j) ∧ (sep ∉ list_ascii_of_string e).
Proof.
  revert j. induction s as [|c s IH]; intros j; simpl.
  - split; [done|]. intros [H _]. by destruct j.
  - destruct (Ascii.eqb c sep) eqn:Hc.
    + apply Ascii.eqb_eq in Hc as ->. split.
      * intros [= <- H]. apply split_one in H as [-> Hn]. split_and!; try done.
        apply not_elem_of_nil.
      * intros (H & Hj & He). destruct j as [|c j]; simpl in H.
        -- injection H as ->. f_equal. by apply split_one.
        -- injection H as -> _. destruct Hj. simpl. apply elem_of_cons. by left.
    + apply Ascii.eqb_neq in Hc.
      destruct (junction.split sep s) as [|y ys] eqn:Hs; [by apply split_not_nil in Hs|].
      split.
      * intros [= <- ->]. destruct (IH y) as [(-> & Hj & He) _]; [done|].
        split_and!; try done. simpl. rewrite not_elem_of_cons. split; [congruence|done].
      * intros (H & Hj & He). destruct j as [|c' j]; simpl in H.
        { injection H as -> _. done. }
        injection H as <- ->. simpl in Hj. apply not_elem_of_cons in Hj as [_ Hj].
        destruct (IH j) as [_ H]. specialize (H (conj eq_refl (conj Hj He))). congruence.
Qed.

(** X4. [preflight], called on a junction as [configure] leaves it, returns
    in two cases only.  Either there is no target (none, or the empty
    string), and the element is left as it is; or the target is
    [junction:element] with one colon in all, [element] is not the name of
    the junction itself, and the junction has no sources, no options and no
    path: then the two halves are stored.  In every other case it raises an
    [ElementError]. *)
Theorem junction_preflight_returns name sources node self' :
  junction.preflight (junction.configure name sources node) = (Ok tt, self') ↔
  (truthy_str (junction.config_target node) = false ∧
   self' = junction.configure name sources node) ∨
  (∃ j e, junction.config_target node = Some (j +:+ ":" +:+ e) ∧
          (":"%char ∉ list_ascii_of_string j) ∧ (":"%char ∉ list_ascii_of_string e) ∧
          e ≠ name ∧ sources = [] ∧ default [] (junction.config_options node) = [] ∧
          default "" (junction.config_path node) = "" ∧
          self' = junction.set_target (junction.configure name sources node) j e).
Proof.
  unfold junction.preflight, junction.configure. cbn [junction.target junction.sources
    junction.options junction.path junction.name junction.target_element].
  destruct (truthy_str (junction.config_target node)) eqn:Ht; cbn [andb].
  - split.
    + destruct sources as [|s sources]; [|done]. cbn [junction.any].
      destruct (default [] (junction.config_options node)) as [|o os] eqn:Ho; [|done].
      cbn [junction.any].
      destruct (String.eqb (default "" (junction.config_path node)) "") eqn:Hp; [|done].
      cbn [negb]. apply String.eqb_eq in Hp.
      unfold junction.unpack_target. cbn [junction.target].
      destruct (junction.split ":" (default "" (junction.config_target node)))
        as [|j [|e [|x xs]]] eqn:Hs; try done.
      unfold junction.set_target. cbn [junction.target_element junction.name].
      case_bool_decide as Hn; [done|]. intros [= <-]. right.
      apply split_two in Hs as (Hs & Hj & He).
      exists j, e. split_and!; try done.
      * destruct (junction.config_target node) as [t|]; [|done]. simpl in Hs. by rewrite Hs.
      * congruence.
    + intros [[? _]|(j & e & Htarget & Hj & He & Hne & -> & -> & -> & ->)]; [done|].
      cbn [junction.any negb String.eqb].
      unfold junction.unpack_target. cbn [junction.target]. rewrite Htarget.
      replace (default "" (Some (j +:+ ":" +:+ e))) with (j +:+ String ":" e) by done.
      destruct (split_two ":" (j +:+ String ":" e) j e) as [_ Hs]. rewrite Hs by done.
      unfold junction.set_target. cbn [junction.target_element junction.name].
      case_bool_decide as Hn; [congruence|done].
  - case_bool_decide as Hn; [done|]. split.
    + intros [= <-]. by left.
    + intros [[_ ->]|(j & e & Htarget & _)]; [done|].
      rewrite Htarget in Ht. simpl in Ht. by destruct j.
Qed.

Lemma install_dummy_single st L :
  loaders st = [L] →
  install_dummy 0 st
  = (Ok tt, set_loader st 0
              (set_elements L (<["" := dummy_target (_targets L)]> (_elements L)))).
Proof. intros HL. unfold install_dummy, deref. by rewrite HL. Qed.

Lemma single_project_dummy st L :
  loaders st = [L] →
  single_project st → loaded_or (λ _, False) st →
  (∀ t, t ∈ _targets L → is_Some (elem_at st (0, t))) →
  single_project (install_dummy 0 st).2 ∧ loaded_or (λ _, False) (install_dummy 0 st).2.
Proof.
  intros HL (L' & HL' & Hj & Hel) Hlo Hts. assert (L' = L) as -> by congruence.
  rewrite (install_dummy_single st L HL). cbn [snd].
  set (L1 := set_elements L _). set (st1 := set_loader st 0 L1).
  assert (HL1 : loaders st1 = [L1]). { subst st1. unfold set_loader. simpl. by rewrite HL. }
  assert (Hkeep : ∀ k, k ≠ "" → elem_at st1 (0, k) = elem_at st (0, k)).
  { intros k Hk. rewrite (single_project_elem_at st1 L1), (single_project_elem_at st L) by done.
    subst L1. simpl. by rewrite lookup_insert_ne. }
  assert (Hloaded : ∀ k, is_Some (elem_at st (0, k)) → is_Some (elem_at st1 (0, k))).
  { intros k Hk. destruct (decide (k = "")) as [->|Hne]; [|by rewrite Hkeep].
    rewrite (single_project_elem_at st1 L1) by done. subst L1. simpl.
    rewrite lookup_insert_eq. eauto. }
  split.
  - exists L1. split_and!; try done. intros k e. subst L1. simpl.
    destruct (decide (k = "")) as [->|Hne].
    + rewrite lookup_insert_eq. intros [= <-]. split; [done|]. simpl.
      apply forallb_forall. intros d Hd. apply list_elem_of_In, list_elem_of_fmap in Hd
        as (t & -> & _). done.
    + rewrite lookup_insert_ne by done. apply Hel.
  - intros k e He. right. destruct (decide (k = "")) as [->|Hne].
    + rewrite (single_project_elem_at st1 L1) in He by done. subst L1. simpl in He.
      rewrite lookup_insert_eq in He. injection He as <-. simpl.
      intros d Hd. apply list_elem_of_fmap in Hd as (t & -> & Ht). simpl.
      apply Hloaded. by apply Hts.
    + rewrite Hkeep in He by done. destruct (Hlo k e He) as [[]|Hd].
      intros d Hd'. apply Hloaded. by apply Hd.
Qed.



(** ** When the sort returns *)

Lemma bounded_S st : ∀ h x, bounded st x h → bounded st x (S h).
Proof.
  induction h as [|h IH]; intros x Hb; simpl in *.
  - intros y Hy. by destruct (Hb y).
  - intros y Hy. apply IH. by apply Hb.
Qed.

Lemma bounded_mono st x h h' : bounded st x h → h ≤ h' → bounded st x h'.
Proof. intros Hb Hle. induction Hle; [done|]. by apply bounded_S. Qed.

Lemma bounded_edge st x y h : bounded st x h → edge st x y → ∃ h', h' < h ∧ bounded st y h'.
Proof.
  destruct h as [|h]; simpl; intros Hb Hy; [by destruct (Hb y)|].
  exists h. split; [lia|]. by apply Hb.
Qed.

Lemma bounded_from_path st :
  closed st = true →
  ∀ m path x,
    NoDup path → x ∉ path →
    (∀ p, p ∈ path → is_Some (elem_at st p) ∧ tc (edge st) p x) →
    is_Some (elem_at st x) →
    (∀ z, rtc (edge st) x z → ¬ tc (edge st) z z) →
    length (all_refs st) ≤ m + length path + 1 →
    bounded st x m.
Proof.
  intros Hc. induction m as [|m IH]; intros path x Hnd Hx Hpath Hel Hacyc Hlen;
    simpl; intros y Hxy.
  - assert (Hy : y ∉ x :: path).
    { intros [->|Hy]%elem_of_cons.
      - apply (Hacyc x); [done|]. by apply tc_once.
      - apply (Hacyc y); [by apply rtc_once|]. destruct (Hpath y Hy) as [_ Hyx].
        eapply tc_r; done. }
    assert (Hsub : y :: x :: path ⊆+ all_refs st).
    { apply NoDup_submseteq; [by repeat constructor|].
      intros p [->|[->|Hp]%elem_of_cons]%elem_of_cons; apply elem_of_all_refs.
      - by eapply edge_target.
      - done.
      - by apply Hpath. }
    apply submseteq_length in Hsub. simpl in Hsub. lia.
  - apply (IH (x :: path)).
    + by constructor.
    + intros [->|Hy]%elem_of_cons.
      * apply (Hacyc x); [done|]. by apply tc_once.
      * apply (Hacyc y); [by apply rtc_once|]. destruct (Hpath y Hy) as [_ Hyx].
        eapply tc_r; done.
    + intros p [->|Hp]%elem_of_cons.
      * split; [done|by apply tc_once].
      * destruct (Hpath p Hp) as [? Hpx]. split; [done|]. eapply tc_r; done.
    + by eapply edge_target.
    + intros z Hz. apply Hacyc. by eapply rtc_l.
    + simpl. lia.
Qed.

(** Without a cycle below it, an element has no chain of dependencies
    longer than the number of elements. *)
Lemma acyclic_bounded st x :
  closed st = true → is_Some (elem_at st x) →
  (∀ z, rtc (edge st) x z → ¬ tc (edge st) z z) →
  bounded st x (length (all_refs st)).
Proof.
  intros Hc Hx Hacyc. apply (bounded_from_path st Hc _ [] x); try done.
  - constructor.
  - apply not_elem_of_nil.
  - intros p Hp. by apply elem_of_nil in Hp.
  - simpl. lia.
Qed.

Lemma rfold_returns {A S} (body : S → A → result S) xs :
  (∀ acc x, x ∈ xs → ∃ acc', body acc x = Ok acc') →
  ∀ acc, ∃ r, rfold body xs acc = Ok r.
Proof.
  induction xs as [|x xs IH]; intros Hb acc; simpl; [eauto|].
  destruct (Hb acc x) as [acc' ->]; [by left|]. simpl.
  apply IH. intros acc0 y Hy. apply Hb. by right.
Qed.

Lemma resolve_inv st l d y :
  resolve st l d = Some y → _get_loader_for_dep st l d = Ok (Some y.1) ∧ y.2 = dep_name d.
Proof.
  unfold resolve. destruct (_get_loader_for_dep st l d) as [[l'|]|]; try done.
  by intros [= <-].
Qed.

Lemma elem_at_inv st x e :
  elem_at st x = Some e →
  ∃ L, loaders st !! x.1 = Some L ∧ _elements L !! x.2 = Some e.
Proof. unfold elem_at. destruct (loaders st !! x.1) as [L|]; [eauto|done]. Qed.

Section returns.
Variable st : Store.
Hypothesis Hclosed : closed st = true.

Lemma dependency_set_returns fuel : ∀ x e h,
  bounded st x h → elem_at st x = Some e → fuel > h →
  ∃ s, dependency_set fuel st x.1 e = Ok s.
Proof.
  induction fuel as [|fuel IH]; intros x e h Hb He Hfuel; [lia|].
  cbn [dependency_set]. apply rfold_returns. intros acc d Hd.
  destruct (closed_dep st x e d Hclosed He Hd) as (y & Hres & [ey Hey]).
  destruct (bounded_edge st x y h Hb) as (h' & Hlt & Hby).
  { by exists e, d. }
  apply resolve_inv in Hres as [Hl Hn]. rewrite Hl. cbn [rbind].
  destruct (elem_at_inv _ _ _ Hey) as (Ly & HLy & Hely).
  unfold deref. rewrite HLy. cbn [rbind]. unfold lookup_element.
  rewrite <- Hn, Hely. cbn [rbind].
  destruct (IH y ey h' Hby Hey) as [s Hs]; [lia|].
  simpl. rewrite Hs. simpl. eauto.
Qed.

(** The comparison of two dependencies of an element returns, with a
    budget that is not less than the depth below the element. *)
Lemma dependency_lt_returns fuel x e h dep_a dep_b :
  bounded st x h → elem_at st x = Some e → fuel ≥ h →
  dep_a ∈ le_deps e → dep_b ∈ le_deps e →
  ∃ b, dependency_lt fuel st x.1 dep_a dep_b = Ok b.
Proof.
  intros Hb He Hfuel Ha Hb'.
  destruct (closed_dep st x e dep_a Hclosed He Ha) as (ya & Hra & [ea Hea]).
  destruct (closed_dep st x e dep_b Hclosed He Hb') as (yb & Hrb & [eb Heb]).
  destruct (bounded_edge st x ya h Hb) as (ha & Hlta & Hba); [by exists e, dep_a|].
  destruct (bounded_edge st x yb h Hb) as (hb & Hltb & Hbb); [by exists e, dep_b|].
  apply resolve_inv in Hra as [Hla Hna], Hrb as [Hlb Hnb].
  destruct (elem_at_inv _ _ _ Hea) as (La & HLa & Hela).
  destruct (elem_at_inv _ _ _ Heb) as (Lb & HLb & Helb).
  destruct (dependency_set_returns fuel ya ea ha Hba Hea) as [sa Hsa]; [lia|].
  destruct (dependency_set_returns fuel yb eb hb Hbb Heb) as [sb Hsb]; [lia|].
  unfold dependency_lt, dependency_cmp, get_element_for_dep.
  rewrite Hla, Hlb. cbn [rbind]. unfold deref. rewrite HLa, HLb. cbn [rbind].
  unfold lookup_element. rewrite <- Hna, <- Hnb, Hela, Helb. cbn [rbind].
  unfold depends. simpl. rewrite Hsa, Hsb. simpl.
  repeat first [case_bool_decide | case_decide]; simpl; eauto.
Qed.
End returns.

(** [list.sort] returns when the comparison does. *)
Section sort_returns.
Context {A : Type} (lt : A → A → result bool).

Local Abbreviation total_on l := (∀ x y : A, x ∈ l → y ∈ l → ∃ b, lt x y = Ok b).

Lemma run_ascending_returns rest : ∀ prev,
  total_on (prev :: rest) → ∃ n, run_ascending lt prev rest = Ok n ∧ n ≤ length rest.
Proof.
  induction rest as [|x rest IH]; intros prev Ht; simpl; [by exists 0|].
  destruct (Ht x prev) as [b ->]; [by right; left|by left|]. simpl.
  destruct b; [exists 0; split; [done|lia]|].
  destruct (IH x) as (n & -> & Hn); [intros a b Ha Hb; apply Ht; by right|].
  exists (S n). split; [done|lia].
Qed.

Lemma run_descending_returns rest : ∀ prev,
  total_on (prev :: rest) → ∃ n, run_descending lt prev rest = Ok n ∧ n ≤ length rest.
Proof.
  induction rest as [|x rest IH]; intros prev Ht; simpl; [by exists 0|].
  destruct (Ht x prev) as [b ->]; [by right; left|by left|]. simpl.
  destruct b; [|exists 0; split; [done|lia]].
  destruct (IH x) as (n & -> & Hn); [intros a b Ha Hb; apply Ht; by right|].
  exists (S n). split; [done|lia].
Qed.

Lemma count_run_returns l :
  total_on l → ∃ n descending, count_run lt l = Ok (n, descending) ∧ n ≤ length l.
Proof.
  intros Ht. destruct l as [|x0 [|x1 rest]]; simpl.
  { exists 0, false. split; [done|lia]. }
  { exists 1, false. split; [done|lia]. }
  destruct (Ht x1 x0) as [b ->]; [by right; left|by left|]. simpl. destruct b.
  - destruct (run_descending_returns rest x1) as (n & -> & Hn).
    { intros a b Ha Hb. apply Ht; by right. }
    exists (S (S n)), true. split; [done|lia].
  - destruct (run_ascending_returns rest x1) as (n & -> & Hn).
    { intros a b Ha Hb. apply Ht; by right. }
    exists (S (S n)), false. split; [done|lia].
Qed.

Lemma bisect_returns sorted pivot :
  (∀ x, x ∈ sorted → ∃ b, lt pivot x = Ok b) →
  ∀ steps l r, ∃ k, bisect lt steps sorted pivot l r = Ok k.
Proof.
  intros Ht. induction steps as [|steps IH]; intros l r; cbn [bisect]; [eauto|].
  destruct (sorted !! (l + (r - l) / 2)) as [x|] eqn:Hx; [|eauto].
  destruct (Ht x) as [b ->]; [by eapply list_elem_of_lookup_2|]. cbn [rbind].
  destruct b.
  - destruct (l <? l + (r - l) / 2); [apply IH|eauto].
  - destruct (S (l + (r - l) / 2) <? r); [apply IH|eauto].
Qed.

Lemma insert_all_returns rest : ∀ run,
  total_on (run ++ rest) → ∃ l, rfold (binary_insert lt) rest run = Ok l.
Proof.
  induction rest as [|x rest IH]; intros run Ht; simpl; [eauto|].
  destruct (bisect_returns run x) with (steps := length run) (l := 0) (r := length run)
    as [k Hk].
  { intros y Hy. apply Ht; apply elem_of_app; [right; by left|by left]. }
  assert (Hins : binary_insert lt run x = Ok (take k run ++ x :: drop k run)).
  { unfold binary_insert. by rewrite Hk. }
  rewrite Hins. simpl. apply IH.
  apply binary_insert_perm in Hins.
  assert (Hsub : ∀ a, a ∈ (take k run ++ x :: drop k run) ++ rest → a ∈ run ++ x :: rest).
  { intros a. rewrite (elem_of_app _ rest), Hins, !elem_of_app, list_elem_of_singleton,
      elem_of_cons. tauto. }
  intros a b Ha Hb. apply Ht; by apply Hsub.
Qed.

Lemma list_sort_returns l : total_on l → ∃ l', list_sort lt l = Ok l'.
Proof.
  intros Ht. unfold list_sort. destruct (length l <? 2); [eauto|].
  destruct (count_run_returns l Ht) as (n & descending & -> & Hn). simpl.
  apply insert_all_returns.
  assert (Hsub : ∀ a, a ∈ (if descending then reverse (take n l) else take n l)
                        ++ drop n l → a ∈ l).
  { intros a Ha. rewrite <- (take_drop n l). revert Ha. rewrite !elem_of_app.
    destruct descending; [rewrite elem_of_reverse|]; tauto. }
  intros a b Ha Hb. apply Ht; by apply Hsub.
Qed.
End sort_returns.

Lemma closed_intro st :
  (∀ x e d, elem_at st x = Some e → d ∈ le_deps e →
            ∃ y, resolve st x.1 d = Some y ∧ is_Some (elem_at st y)) →
  closed st = true.
Proof.
  intros H. unfold closed. apply forallb_forall. intros x Hx.
  apply list_elem_of_In, elem_of_all_refs in Hx as [e He]. rewrite He.
  apply forallb_forall. intros d Hd. apply list_elem_of_In in Hd.
  destruct (H x e d He Hd) as (y & Hy & Hel). unfold dep_loaded. rewrite Hy.
  by apply bool_decide_eq_true.
Qed.

Lemma reordered_closed st st' : reordered st st' → closed st = true → closed st' = true.
Proof.
  intros Hr Hc. apply closed_intro. intros x e' d He' Hd.
  destruct (reordered_elem_at_inv _ _ _ _ Hr He') as (e & He & _ & _ & _ & Hp).
  rewrite Hp in Hd. destruct (closed_dep st x e d Hc He Hd) as (y & Hy & [ey Hey]).
  exists y. split; [by rewrite (reordered_resolve st st')|].
  destruct (reordered_elem_at _ _ _ _ Hr Hey) as (ey' & -> & _). eauto.
Qed.

Lemma reordered_bounded st st' : reordered st st' → ∀ h x, bounded st x h → bounded st' x h.
Proof.
  intros Hr. induction h as [|h IH]; intros x Hb; simpl in *.
  - intros y Hy. apply (Hb y). by apply (reordered_edge st st').
  - intros y Hy. apply IH, Hb. by apply (reordered_edge st st').
Qed.

Lemma sort_deps_returns fuel st x e h :
  closed st = true → elem_at st x = Some e → bounded st x h → fuel ≥ h →
  ∃ st', sort_deps fuel x.1 x.2 st = (Ok tt, st').
Proof.
  intros Hc He Hb Hfuel. destruct (elem_at_inv _ _ _ He) as (L & HL & Hel).
  unfold sort_deps, deref. rewrite HL. cbn [rbind]. unfold lookup_element. rewrite Hel.
  cbn [rbind].
  destruct (list_sort_returns (dependency_lt fuel st x.1) (le_deps e)) as [sorted ->].
  { intros a b Ha Hb'. by eapply dependency_lt_returns. }
  simpl. eauto.
Qed.

Lemma sort_dependencies_returns fuel : ∀ x h visited st,
  closed st = true → bounded st x h → is_Some (elem_at st x) → fuel > h →
  ∃ v st', _sort_dependencies fuel x.1 x.2 visited st = (Ok v, st').
Proof.
  induction fuel as [|fuel IH]; intros x h visited st Hc Hb [e He] Hfuel; [lia|].
  destruct (elem_at_inv _ _ _ He) as (L & HL & Hel).
  cbn [_sort_dependencies]. unfold mbind at 1, mlift at 1, deref. rewrite HL.
  unfold mbind at 1, mlift at 1, lookup_element. rewrite Hel.
  destruct (visited !! le_full_name e); [by eexists _, _|].
  unfold mbind at 1.
  match goal with |- context [mfold ?b _ _ _] => set (body := b) end.
  assert (Hloop : ∀ ds v s,
    (∀ d, d ∈ ds → d ∈ le_deps e) → reordered st s →
    ∃ v' s', mfold body ds v s = (Ok v', s') ∧ reordered st s').
  { induction ds as [|d ds IHd]; intros v s Hsub Hr; [by eexists _, _|].
    cbn [mfold]. unfold mbind at 1.
    assert (∃ v1 s1, body v d s = (Ok v1, s1) ∧ reordered st s1) as (v1 & s1 & -> & Hr1).
    { destruct (closed_dep st x e d Hc He) as (y & Hy & Hely); [apply Hsub; by left|].
      destruct (bounded_edge st x y h Hb) as (h' & Hlt & Hby).
      { exists e, d. split_and!; [done| |done]. apply Hsub. by left. }
      rewrite <- (reordered_resolve st s) in Hy by done.
      apply resolve_inv in Hy as [Hl Hn].
      subst body. cbv beta. unfold mbind at 1, mlift at 1. rewrite Hl.
      destruct (IH y h' v s) as (v1 & s1 & Hrun); try done.
      - by apply (reordered_closed st).
      - by apply (reordered_bounded st).
      - destruct Hely as [ey Hey].
        destruct (reordered_elem_at _ _ _ _ Hr Hey) as (ey' & -> & _). eauto.
      - lia.
      - rewrite <- Hn. exists v1, s1. split; [done|].
        eapply reordered_trans; [done|].
        pose proof (reordered_sort_dependencies fuel y.1 y.2 v s) as Hk.
        by rewrite Hrun in Hk. }
    apply IHd; [|done]. intros d' Hd'. apply Hsub. by right. }
  destruct (Hloop (le_deps e) visited st) as (v' & s' & -> & Hr); [done|apply reordered_refl|].
  unfold mbind at 1.
  destruct (reordered_elem_at _ _ _ _ Hr He) as (e' & He' & _).
  destruct (sort_deps_returns fuel s' x e' h) as [s'' ->]; try done.
  - by apply (reordered_closed st).
  - by apply (reordered_bounded st).
  - lia.
  - by eexists _, _.
Qed.

(** *** The number of elements *)

Lemma all_refs_length_sum ls : ∀ (f : nat → Loader → list eref),
  (∀ a L, length (f a L) = size (_elements L)) →
  length (mjoin (imap f ls)) = sum_list ((λ L, size (_elements L)) <$> ls).
Proof.
  induction ls as [|L ls IH]; intros f Hf; [done|].
  simpl. rewrite length_app, Hf. f_equal. apply IH. intros a L'. apply Hf.
Qed.

Lemma all_refs_length st :
  length (all_refs st) = sum_list ((λ L, size (_elements L)) <$> loaders st).
Proof.
  apply all_refs_length_sum. intros a L. unfold loader_refs.
  by rewrite length_fmap, length_map_to_list.
Qed.

Lemma reordered_all_refs_length st st' :
  reordered st st' → length (all_refs st') = length (all_refs st).
Proof.
  intros (_ & _ & _ & Hlen & H). rewrite !all_refs_length. f_equal.
  apply list_eq_same_length with (length (loaders st)); rewrite ?length_fmap; try done.
  intros i n n' _. rewrite !list_lookup_fmap.
  destruct (loaders st !! i) as [L|] eqn:HL; [|done].
  destruct (H i L HL) as (L' & -> & _ & _ & _ & Hel). simpl. intros [= <-] [= <-].
  rewrite <- !size_dom. f_equal. apply set_eq. intros k. rewrite !elem_of_dom.
  specialize (Hel k). destruct Hel; split; intros [? ?]; eauto; done.
Qed.

Lemma same_graph_all_refs st st' : same_graph st st' → all_refs st' = all_refs st.
Proof.
  intros Hg. unfold all_refs. f_equal. apply list_eq. intros i.
  rewrite !list_lookup_imap.
  destruct (loaders st' !! i) as [L'|] eqn:HL'.
  - destruct (same_graph_lookup _ _ _ _ Hg HL') as (L & -> & HLL).
    apply graph_of_fields in HLL as (HLL & _). simpl. unfold loader_refs. by rewrite HLL.
  - destruct (loaders st !! i) as [L|] eqn:HL; [|done].
    destruct (same_graph_lookup _ _ _ _ (same_graph_sym _ _ Hg) HL) as (? & ? & _).
    congruence.
Qed.

Lemma forallb_fun_ext {A} (f g : A → bool) l :
  (∀ x, f x = g x) → forallb f l = forallb g l.
Proof. intros H. induction l as [|x l IH]; simpl; [done|]. by rewrite H, IH. Qed.

Lemma same_graph_closed st st' : same_graph st st' → closed st' = closed st.
Proof.
  intros Hg. unfold closed. rewrite (same_graph_all_refs st st') by done.
  apply forallb_fun_ext. intros x. rewrite (same_graph_elem_at st st') by done.
  destruct (elem_at st x) as [e|]; [|done]. apply forallb_fun_ext. intros d.
  unfold dep_loaded. rewrite (same_graph_resolve st st') by done.
  destruct (resolve st x.1 d) as [y|]; [|done].
  by rewrite (same_graph_elem_at st st').
Qed.

Lemma same_graph_edge st st' x y : same_graph st st' → edge st' x y ↔ edge st x y.
Proof.
  intros Hg. unfold edge. rewrite (same_graph_elem_at st st') by done.
  split; intros (e & d & He & Hd & Hr); exists e, d; split_and!; try done.
  - by rewrite <- (same_graph_resolve st st').
  - by rewrite (same_graph_resolve st st').
Qed.

Lemma rtc_iff {A} (R R' : relation A) :
  (∀ x y, R x y ↔ R' x y) → ∀ x y, rtc R x y ↔ rtc R' x y.
Proof.
  intros H x y. split; induction 1; try apply rtc_refl; eapply rtc_l; eauto; by apply H.
Qed.

Lemma reordered_fresh st st' : reordered st st' → fresh st = true → fresh st' = true.
Proof.
  intros (Hm & _ & _ & Hlen & H). unfold fresh. rewrite !andb_true_iff, !forallb_forall.
  intros [Hmetas Hall]. split; [by rewrite Hm|].
  intros L' HL'. apply list_elem_of_In, list_elem_of_lookup in HL' as [i Hi].
  destruct (loaders st !! i) as [L|] eqn:HL.
  - destruct (H i L HL) as (L2 & HL2 & _ & Hme & _). assert (L2 = L') as -> by congruence.
    rewrite Hme. apply Hall, list_elem_of_In. by eapply list_elem_of_lookup_2.
  - apply lookup_lt_Some in Hi. apply lookup_ge_None in HL. lia.
Qed.

Lemma same_but_order_collectable e e' : same_but_order e e' → collectable e → collectable e'.
Proof.
  intros (_ & _ & Hn & Hp) (node & Hnode & Hj). exists node. split; [congruence|].
  intros Hk. rewrite (Hj Hk) in Hp. by apply Permutation_nil_r in Hp.
Qed.

Lemma sort_pass_returns fuel self h targets : ∀ st,
  closed st = true →
  (∀ t, t ∈ targets → is_Some (elem_at st (self, t)) ∧ bounded st (self, t) h) →
  fuel > h →
  ∃ s, mfor targets (λ target, _ ←m _sort_dependencies fuel self target ∅; mret tt) st
       = (Ok tt, s) ∧ reordered st s.
Proof.
  induction targets as [|t targets IH]; intros st Hc Hts Hfuel.
  { exists st. split; [done|apply reordered_refl]. }
  cbn [mfor]. unfold mbind at 1. unfold mbind at 1.
  destruct (Hts t) as [Hel Hb]; [by left|].
  destruct (sort_dependencies_returns fuel (self, t) h ∅ st Hc Hb Hel Hfuel)
    as (v & s1 & Hrun).
  pose proof (reordered_sort_dependencies fuel self t ∅ st) as Hr1.
  simpl in Hrun. rewrite Hrun in *. simpl in Hr1. unfold mret at 1.
  destruct (IH s1) as (s & -> & Hr); try done.
  - by apply (reordered_closed st).
  - intros t' Ht'. destruct (Hts t') as [[e He] Hb']; [by right|]. split.
    + destruct (reordered_elem_at _ _ _ _ Hr1 He) as (e' & -> & _). eauto.
    + by apply (reordered_bounded st).
  - exists s. split; [done|]. by eapply reordered_trans.
Qed.

Lemma collect_pass_returns fuel self targets : ∀ st,
  closed st = true → collected st →
  (∀ t, t ∈ targets → is_Some (elem_at st (self, t))) →
  (∀ t x e, t ∈ targets → rtc (edge st) (self, t) x → elem_at st x = Some e →
            collectable e) →
  fuel > length (all_refs st) →
  ∃ ms st', mmap (_collect_element fuel self) targets st = (Ok ms, st') ∧
            length ms = length targets.
Proof.
  induction targets as [|t targets IH]; intros st Hc Hcol Hts Hnodes Hfuel.
  { by exists [], st. }
  cbn [mmap]. unfold mbind at 1.
  destruct (collect_spec st (self, t) (length (metas st)) Hc
              (λ x e, Hnodes t x e (list_elem_of_here t targets)) fuel
              (self, t) (λ _, False) st)
    as (a & st1 & Hrun & _ & Hinv & _).
  { apply Hcol. }
  { done. }
  { apply Hts. by left. }
  { assert (length (uncollected st st) ≤ length (all_refs st)); [|lia].
    unfold uncollected. apply length_filter. }
  simpl in Hrun. rewrite Hrun.
  pose proof (collect_inv_collected _ _ _ _ Hinv) as Hcol1.
  pose proof (ci_graph _ _ _ _ _ Hinv) as Hg.
  destruct (IH st1) as (ms & st' & Hrest & Hlen); try done.
  - by rewrite (same_graph_closed st st1).
  - intros t' Ht'. rewrite (same_graph_elem_at st st1) by done. apply Hts. by right.
  - intros t' x e Ht' Hx He. rewrite (same_graph_elem_at st st1) in He by done.
    apply (Hnodes t' x e); [by right| |done].
    by apply (rtc_iff _ _ (λ x y, same_graph_edge st st1 x y Hg)).
  - by rewrite (same_graph_all_refs st st1).
  - unfold mbind at 1. rewrite Hrest. exists (a :: ms), st'. split; [done|].
    simpl. by rewrite Hlen.
Qed.

Lemma dummy_targets st self st' :
  install_dummy self st = (Ok tt, st') →
  ∃ L, loaders st !! self = Some L ∧
       elem_at st' (self, "") = Some (dummy_target (_targets L)).
Proof.
  unfold install_dummy, deref. destruct (loaders st !! self) as [L|] eqn:HL; [|done].
  intros [= <-]. exists L. split; [done|]. unfold elem_at, set_loader. simpl.
  rewrite list_lookup_insert_eq by (by eapply lookup_lt_Some).
  simpl. apply lookup_insert_eq.
Qed.

(** After the cycle check: the sort and the collection return. *)
Lemma sort_collect_returns fuel self targets st' :
  elem_at st' (self, "") = Some (dummy_target targets) →
  closed st' = true → fresh st' = true →
  (∀ x e, x ≠ (self, "") → elem_at st' x = Some e → collectable e) →
  fuel > length (all_refs st') →
  ¬ has_cycle st' (self, "") →
  ∃ ms st'', load_sort_collect fuel self targets st' = (Ok ms, st'') ∧
             length ms = length targets.
Proof.
  intros Hdummy Hc Hfresh Hnodes Hfuel Hacyc.
  assert (Hedge : ∀ t, t ∈ targets →
            edge st' (self, "") (self, t) ∧ is_Some (elem_at st' (self, t))).
  { intros t Ht.
    assert (Hd : target_dependency t ∈ le_deps (dummy_target targets)).
    { simpl. apply list_elem_of_fmap. by exists t. }
    destruct (closed_dep st' (self, "") _ _ Hc Hdummy Hd) as (y & Hy & Hel).
    assert (y = (self, t)) as -> by (by injection Hy as <-).
    split; [|done]. by exists (dummy_target targets), (target_dependency t). }
  assert (Hbound : ∀ t, t ∈ targets → bounded st' (self, t) (length (all_refs st'))).
  { intros t Ht. destruct (Hedge t Ht) as [He Hel].
    apply acyclic_bounded; try done. intros z Hz Hzz. apply Hacyc. exists z.
    split; [|done]. by eapply rtc_l. }
  unfold load_sort_collect. unfold mbind at 1.
  destruct (sort_pass_returns fuel self (length (all_refs st')) targets st' Hc)
    as (s & -> & Hr); [|done|].
  { intros t Ht. split; [by apply Hedge|by apply Hbound]. }
  apply collect_pass_returns.
  - by apply (reordered_closed st').
  - apply fresh_collected. by apply (reordered_fresh st').
  - intros t Ht. destruct (Hedge t Ht) as [_ [e He]].
    destruct (reordered_elem_at _ _ _ _ Hr He) as (e' & -> & _). eauto.
  - intros t x e' Ht Hx He'.
    destruct (reordered_elem_at_inv _ _ _ _ Hr He') as (e & He & Hsame).
    apply (same_but_order_collectable e e' Hsame). apply (Hnodes x e); [|done].
    intros ->. apply Hacyc. exists (self, ""). split; [done|].
    apply (rtc_iff _ _ (λ x y, reordered_edge st' s x y Hr)) in Hx.
    eapply tc_rtc_r; [|done]. apply tc_once. by apply Hedge.
  - by rewrite (reordered_all_refs_length st' s).
Qed.

Lemma install_dummy_elem_at st self st' x :
  install_dummy self st = (Ok tt, st') → x ≠ (self, "") → elem_at st' x = elem_at st x.
Proof.
  unfold install_dummy, deref. destruct (loaders st !! self) as [L|] eqn:HL; [|done].
  intros [= <-] Hx. unfold elem_at, set_loader. simpl. destruct x as [a k]. simpl.
  destruct (decide (a = self)) as [->|Ha].
  - rewrite list_lookup_insert_eq by (by eapply lookup_lt_Some). rewrite HL. simpl.
    rewrite lookup_insert_ne; [done|]. congruence.
  - by rewrite list_lookup_insert_ne.
Qed.

Lemma load_returns_gen W fuel self st0 L st st' :
  loaders st0 !! self = Some L →
  load_files W fuel self (_targets L) st0 = (Ok tt, st) →
  install_dummy self st = (Ok tt, st') →
  closed st' = true → unique_full_names st' = true → fresh st' = true →
  all_collectable st = true →
  fuel > length (all_refs st') →
  ¬ has_cycle st' (self, "") →
  ∃ ms st'', load W fuel self st0 = (Ok ms, st'') ∧ length ms = length (_targets L).
Proof.
  intros HL Hfiles Hd Hc Hu Hfresh Hnodes Hfuel Hacyc.
  destruct (dummy_targets _ _ _ Hd) as (L1 & HL1 & Hdummy).
  assert (Htargets : _targets L1 = _targets L).
  { pose proof (stable_for (_targets L) (λ target, _ ←m _load_file W fuel self target; mret tt))
      as Hk.
    assert (Hext : ext st0 st).
    { unfold load_files in Hfiles.
      specialize (Hk (λ target, stable_bind _ _
        (proj1 (stable_load_file_get_loader W fuel) self target)
        (λ _, stable_ret tt)) st0). by rewrite Hfiles in Hk. }
    destruct (Hext self L HL) as (L' & HL' & Hf). assert (L' = L1) as -> by congruence.
    unfold frame_of in Hf. congruence. }
  rewrite Htargets in Hdummy.
  unfold load. unfold mbind at 1, mlift at 1, deref. rewrite HL.
  unfold mbind at 1. rewrite Hfiles. unfold mbind at 1.
  destruct (check_from_dummy_cases st self st' fuel Hd Hc Hu Hfuel)
    as [[-> _]|(x & e & _ & Hrx & Hxx & _)].
  - apply sort_collect_returns; try done. intros x e Hx He.
    rewrite (install_dummy_elem_at st self st') in He by done.
    by apply (all_collectable_spec st x e).
  - destruct Hacyc. by exists x.
Qed.

(** X21. Once the first pass of [load] has returned, with every dependency
    loaded, full names unique, no [MetaElement] made yet, and every element
    one that the collection accepts: when no cycle of dependencies can be
    reached from the targets, [load] returns, with one [MetaElement] for
    each target.  The recursion budget is more than the number of
    elements. *)
Theorem load_returns_without_cycle W fuel self st0 L st st' :
  loaders st0 !! self = Some L →
  load_files W fuel self (_targets L) st0 = (Ok tt, st) →
  install_dummy self st = (Ok tt, st') →
  closed st' = true → unique_full_names st' = true → fresh st' = true →
  all_collectable st = true →
  fuel > length (all_refs st') →
  ¬ has_cycle st' (self, "") →
  ∃ ms st'', load W fuel self st0 = (Ok ms, st'') ∧ length ms = length (_targets L).
Proof. apply load_returns_gen. Qed.

Lemma load_returns_without_cycle_witness :
  ∃ ms st'', load world_acyclic 10 0 (store_targets ["a.bst"]) = (Ok ms, st'') ∧
             length ms = length ["a.bst"].
Proof.
  pose (st := (load_files world_acyclic 10 0 ["a.bst"] (store_targets ["a.bst"])).2).
  apply (load_returns_without_cycle world_acyclic 10 0 (store_targets ["a.bst"])
           (mkLoader example_project example_context "/top/elements" ["a.bst"]
              None None ∅ ∅ []) st (install_dummy 0 st).2).
  - reflexivity.
  - vm_compute. reflexivity.
  - vm_compute. reflexivity.
  - vm_compute. reflexivity.
  - vm_compute. reflexivity.
  - vm_compute. reflexivity.
  - vm_compute. reflexivity.
  - vm_compute. lia.
  - destruct (check_from_dummy_cases st 0 (install_dummy 0 st).2 10)
      as [[_ Hno]|(x & e & _ & _ & _ & Hr)]; [vm_compute; reflexivity ..|vm_compute; lia|done|].
    vm_compute in Hr. discriminate.
Defined.

(** X22. In a project whose element files name no junction, from a loader
    with nothing loaded and no [MetaElement] made: when the first pass of
    [load] has returned, every element is one that the collection accepts,
    and no cycle of dependencies can be reached from the targets, [load]
    returns, with one [MetaElement] for each target.  The recursion budget
    is more than the number of elements. *)
Theorem load_single_project_returns W fuel L0 dirs0 removed0 st :
  plain_world W →
  _elements L0 = ∅ → _meta_elements L0 = ∅ → project_junction (project L0) = None →
  load_files W fuel 0 (_targets L0) (mkStore [L0] [] dirs0 removed0) = (Ok tt, st) →
  all_collectable st = true →
  fuel > length (all_refs (install_dummy 0 st).2) →
  ¬ has_cycle (install_dummy 0 st).2 (0, "") →
  ∃ ms st'', load W fuel 0 (mkStore [L0] [] dirs0 removed0) = (Ok ms, st'') ∧
             length ms = length (_targets L0).
Proof.
  intros Hplain Hempty Hmeta Hj Hfiles Hnodes Hfuel Hacyc.
  set (st0 := mkStore [L0] [] dirs0 removed0) in *.
  destruct (load_files_single W Hplain fuel (_targets L0) st0 st) as (Hsp & Hlo & Hts & Hm);
    [| |done|].
  { exists L0. split_and!; try done. intros k e. by rewrite Hempty, lookup_empty. }
  { intros k e. rewrite (single_project_elem_at _ L0) by done.
    by rewrite Hempty, lookup_empty. }
  destruct Hsp as (L & HL & HjL & Hel).
  destruct Hm as [Hmetas Hcaches]. rewrite HL in Hcaches. simpl in Hcaches.
  injection Hcaches as HmL. rewrite Hmeta in HmL.
  pose proof (install_dummy_single st L HL) as Hd.
  destruct (dummy_targets _ _ _ Hd) as (L1 & HL1 & Hdummy).
  assert (Htargets : _targets L = _targets L0).
  { pose proof (stable_for (_targets L0) (λ target, _ ←m _load_file W fuel 0 target; mret tt))
      as Hk.
    assert (Hext : ext st0 st).
    { unfold load_files in Hfiles.
      specialize (Hk (λ target, stable_bind _ _
        (proj1 (stable_load_file_get_loader W fuel) 0 target)
        (λ _, stable_ret tt)) st0). by rewrite Hfiles in Hk. }
    destruct (Hext 0 L0 eq_refl) as (L' & HL' & Hf). rewrite HL in HL'. injection HL' as <-.
    unfold frame_of in Hf. congruence. }
  destruct (single_project_dummy st L HL) as (Hsp' & Hlo'); try done.
  { by exists L. }
  { intros t Ht. apply Hts. by rewrite <- Htargets. }
  destruct (single_project_closed _ Hsp' Hlo') as [Hc Hu].
  apply (load_returns_gen W fuel 0 st0 L0 st (install_dummy 0 st).2); try done.
  - by rewrite Hd.
  - rewrite Hd. cbn [snd]. unfold fresh, set_loader. simpl. rewrite HL. simpl.
    rewrite Hmetas. simpl. rewrite HmL. done.
Qed.

Lemma load_single_project_returns_witness :
  ∃ ms st'', load world_acyclic 10 0 (store_targets ["a.bst"]) = (Ok ms, st'') ∧
             length ms = length ["a.bst"].
Proof.
  pose (st := (load_files world_acyclic 10 0 ["a.bst"] (store_targets ["a.bst"])).2).
  apply (load_single_project_returns world_acyclic 10
           (mkLoader example_project example_context "/top/elements" ["a.bst"]
              None None ∅ ∅ []) [] [] st).
  - apply example_world_plain. vm_compute. reflexivity.
  - reflexivity.
  - reflexivity.
  - reflexivity.
  - vm_compute. reflexivity.
  - vm_compute. reflexivity.
  - vm_compute. lia.
  - destruct (check_from_dummy_cases st 0 (install_dummy 0 st).2 10)
      as [[_ Hno]|(x & e & _ & _ & _ & Hr)]; [vm_compute; reflexivity ..|vm_compute; lia|done|].
    vm_compute in Hr. discriminate.
Defined.
